(** * Host reference model of the bitset primitives

    The functions below are the CPU oracle of the bitset test-suite:
    [add_cpu_bitset], [create_cpu_bitset], [test_cpu_bitset],
    [test_cpu_bitset_nbits], [flip_cpu_bitset], [repeat_cpu_bitset] and
    [sparsity_cpu_bitset].  Words are integers with the truncation to the
    word width written out; vectors are lists with checked access, an
    access past the end being undefined behaviour of the C++ program.
    The development also covers the masked comparison of the test fixture
    and the row-permutation kernel with the coefficient search of its host
    function. *)

From Stdlib Require Import ZArith List Lia QArith Qround Qcanon.
From stdpp Require Import base tactics option list.

Local Open Scope Z_scope.

(** ** Machine integers *)

(** The unsigned integer types the templates are instantiated with. *)
Inductive word_t : Set := uint8_t | uint16_t | uint32_t | uint64_t.

Definition sizeof (t : word_t) : Z :=
  match t with
  | uint8_t => 1
  | uint16_t => 2
  | uint32_t => 4
  | uint64_t => 8
  end.

(** [sizeof(bitset_t) * 8], the number of bits of a word. *)
Definition nbits (t : word_t) : Z := sizeof t * 8.

(** Conversion of a mathematical integer to the unsigned type [t]. *)
Definition cast (t : word_t) (x : Z) : Z := x mod 2 ^ nbits t.

Definition size_t : word_t := uint64_t.

(** [x != 0] *)
Definition nonzero (x : Z) : bool := negb (x =? 0).

(** ** Outcomes *)

(** The error taxonomy of the specification.  No path of the reference
    functions raises either of them. *)
Inductive error : Set := InvalidArgument | DeviceExecutionFailure.

Inductive outcome (A : Type) : Type :=
| Ok (a : A)          (* normal return *)
| Raise (e : error)   (* an error reported to the caller *)
| Undefined.          (* access outside a vector, division by zero *)

Arguments Ok {A} a.
Arguments Raise {A} e.
Arguments Undefined {A}.

#[global] Instance outcome_ret : MRet outcome := @Ok.
#[global] Instance outcome_bind : MBind outcome := λ A B f m,
  match m with
  | Ok a => f a
  | Raise e => Raise e
  | Undefined => Undefined
  end.

(** ** Vectors *)

(** [v.size()] *)
Definition vsize (v : list Z) : Z := Z.of_nat (length v).

(** [v[i]] as an rvalue; [std::vector::operator[]] is unchecked. *)
Definition vec_get (v : list Z) (i : Z) : outcome Z :=
  if decide (0 ≤ i) then
    match v !! Z.to_nat i with
    | Some x => Ok x
    | None => Undefined
    end
  else Undefined.

(** [v[i] = x] *)
Definition vec_set (v : list Z) (i : Z) (x : Z) : outcome (list Z) :=
  if decide (0 ≤ i < vsize v) then Ok (<[Z.to_nat i := x]> v) else Undefined.

(** [std::vector<T> v(n)]: [n] value-initialised elements. *)
Definition make_vector (n : Z) : list Z := replicate (Z.to_nat n) 0.

(** ** Counted loops *)

(** [for (size_t i = i0; i < i0 + fuel; ++i) body] over a loop state. *)
Fixpoint for_loop {S : Type} (fuel : nat) (i : Z) (body : Z → S → outcome S) (s : S)
  : outcome S :=
  match fuel with
  | O => Ok s
  | Datatypes.S k => s' ← body i s; for_loop k (i + 1) body s'
  end.

(** [for (size_t i = 0; i < n; ++i) body] *)
Definition for_range {S : Type} (n : Z) (body : Z → S → outcome S) (s : S) : outcome S :=
  for_loop (Z.to_nat n) 0 body s.

(** ** The reference functions *)

Definition add_cpu_bitset (bitset_t : word_t) (bitset : list Z) (mask_idx : list Z)
  : outcome (list Z) :=
  let bitset_element_size := sizeof bitset_t * 8 in
  for_range (vsize mask_idx) (λ i bitset,
    idx ← vec_get mask_idx i;
    x ← vec_get bitset (idx / bitset_element_size);
    vec_set bitset (idx / bitset_element_size)
      (cast bitset_t (Z.land x (Z.lnot (Z.shiftl 1 (idx mod bitset_element_size))))))
    bitset.

Definition create_cpu_bitset (bitset_t : word_t) (bitset : list Z) (mask_idx : list Z)
  : outcome (list Z) :=
  bitset ← for_range (vsize bitset) (λ i bitset,
    vec_set bitset i (cast bitset_t (Z.lnot 0))) bitset;
  add_cpu_bitset bitset_t bitset mask_idx.

Definition test_cpu_bitset (bitset_t : word_t) (bitset : list Z) (queries : list Z)
    (result : list Z) : outcome (list Z) :=
  let bitset_element_size := sizeof bitset_t * 8 in
  for_range (vsize queries) (λ i result,
    q ← vec_get queries i;
    x ← vec_get bitset (q / bitset_element_size);
    vec_set result i
      (Z.b2z (nonzero (Z.land x (Z.shiftl 1 (q mod bitset_element_size))))))
    result.

(** The bitset is a raw pointer here: [bitset k] is the word [bitset[k]].
    The test-suite instantiates [index_t] with [uint32_t] and [uint64_t];
    [original_nbits_] is an [unsigned]. *)
Definition test_cpu_bitset_nbits (index_t bitset_t : word_t) (bitset : Z → Z)
    (queries : list Z) (result : list Z) (original_nbits_ : Z) : outcome (list Z) :=
  let nbits := sizeof bitset_t * 8 in
  result ←
    (if original_nbits_ =? nbits then
       for_range (vsize queries) (λ i result,
         q ← vec_get queries i;
         vec_set result i
           (Z.b2z (nonzero (Z.land (bitset (q / nbits)) (Z.shiftl 1 (q mod nbits))))))
         result
     else Ok result);
  for_range (vsize queries) (λ i result,
    sample_index ← vec_get queries i;
    if original_nbits_ =? 0 then Undefined else
    let original_bit_index := sample_index / original_nbits_ in
    let original_bit_offset := sample_index mod original_nbits_ in
    let new_bit_index := cast index_t (original_bit_index * original_nbits_) / nbits in
    let new_bit_offset := 0 in
    let '(new_bit_index, new_bit_offset) :=
      if nbits <? original_nbits_ then
        (cast index_t (new_bit_index + original_bit_offset / nbits),
         original_bit_offset mod nbits)
      else
        let ratio := cast index_t (nbits / original_nbits_) in
        let new_bit_offset :=
          cast index_t (new_bit_offset + cast index_t ((original_bit_index mod ratio) * original_nbits_)) in
        (new_bit_index, cast index_t (new_bit_offset + original_bit_offset mod nbits)) in
    let bit_element := bitset new_bit_index in
    let is_bit_set := nonzero (Z.land bit_element (Z.shiftl 1 new_bit_offset)) in
    vec_set result i (Z.b2z is_bit_set))
    result.

Definition flip_cpu_bitset (bitset_t : word_t) (bitset : list Z) : outcome (list Z) :=
  for_range (vsize bitset) (λ i bitset,
    x ← vec_get bitset i;
    vec_set bitset i (cast bitset_t (Z.lnot x)))
    bitset.

(** [std::memset(output.data(), 0, units * sizeof(bitset_t))]: the first
    [units] words become zero; past the end of the vector it is undefined. *)
Definition memset_zero (output : list Z) (units : Z) : outcome (list Z) :=
  if decide (0 ≤ units ≤ vsize output) then
    Ok (replicate (Z.to_nat units) 0 ++ drop (Z.to_nat units) output)
  else Undefined.

Definition repeat_cpu_bitset (bitset_t : word_t) (input : list Z) (input_bits : Z)
    (repeat : Z) (output : list Z) : outcome (list Z) :=
  let output_bits := cast size_t (input_bits * repeat) in
  let output_units :=
    cast size_t (output_bits + sizeof bitset_t * 8 - 1) / (sizeof bitset_t * 8) in
  output ← memset_zero output output_units;
  let output_bit_index := 0 in
  st ← for_range repeat (λ r st,
    for_range input_bits (λ i '(output, output_bit_index),
      let input_unit_index := i / (sizeof bitset_t * 8) in
      let input_bit_offset := i mod (sizeof bitset_t * 8) in
      x ← vec_get input input_unit_index;
      let bit := nonzero (Z.land (Z.shiftr x input_bit_offset) 1) in
      let output_unit_index := output_bit_index / (sizeof bitset_t * 8) in
      let output_bit_offset := output_bit_index mod (sizeof bitset_t * 8) in
      y ← vec_get output output_unit_index;
      output ← vec_set output output_unit_index
        (cast bitset_t (Z.lor y (Z.shiftl (Z.b2z bit) output_bit_offset)));
      Ok (output, cast size_t (output_bit_index + 1)))
      st)
    (output, output_bit_index);
  Ok st.1.

(** The counting loop of [sparsity_cpu_bitset]. *)
Definition one_count (bitset_t : word_t) (data : list Z) (total_bits : Z) : outcome Z :=
  for_range total_bits (λ i one_count,
    let unit_index := i / (sizeof bitset_t * 8) in
    let bit_offset := i mod (sizeof bitset_t * 8) in
    x ← vec_get data unit_index;
    let bit := nonzero (Z.land (Z.shiftr x bit_offset) 1) in
    Ok (if bit then cast size_t (one_count + 1) else one_count))
    0.

(** The value of a [double] quotient of two unsigned integers, without its
    rounding: an exact rational, NaN for 0.0 / 0.0, infinity for x / 0.0. *)
Inductive ratio : Set := NaN | Infinity | Exact (q : Qc).

Definition fdiv (a b : Z) : ratio :=
  if b =? 0 then (if a =? 0 then NaN else Infinity)
  else Exact (Q2Qc (inject_Z a / inject_Z b)).

Definition sparsity_cpu_bitset (bitset_t : word_t) (data : list Z) (total_bits : Z)
  : outcome ratio :=
  one_count ← one_count bitset_t data total_bits;
  Ok (fdiv (cast size_t (total_bits - one_count)) total_bits).

(** ** The test fixture *)

(** Modelled from the spec: [raft::ceildiv], declared in a header of the
    library that the test includes; the specification gives it as
    [ceil(a / b)], the ceiling of the exact quotient. *)
Definition ceildiv (a b : Z) : Z := Qceiling (Qmake a (Z.to_pos b)).

(** Modelled from the spec: [bitset_view::eval_n_elements], a static member
    of the view class; the specification gives it as the pure function
    [ceil(bit_count / bits_per_word)]. *)
Definition eval_n_elements (bitset_t : word_t) (bit_count : Z) : Z :=
  ceildiv bit_count (nbits bitset_t).

(** [bitset_ref(raft::ceildiv(spec.bitset_len, bitset_element_size))] in the
    constructor of [BitsetTest]. *)
Definition bitset_ref (bitset_t : word_t) (bitset_len : Z) : list Z :=
  make_vector (ceildiv bitset_len (sizeof bitset_t * 8)).

(** [bitset_repeat_ref(raft::ceildiv(bitset_len * repeat_times, ...))] *)
Definition bitset_repeat_ref (bitset_t : word_t) (bitset_len repeat_times : Z) : list Z :=
  make_vector (ceildiv (bitset_len * repeat_times) (sizeof bitset_t * 8)).

(** ** The owning bitset *)

(** Clears the logical bit [idx] of a word array. *)
Definition clear_bit (bitset_t : word_t) (words : list Z) (idx : Z) : list Z :=
  alter (λ x, Z.clearbit x (idx mod nbits bitset_t)) (Z.to_nat (idx / nbits bitset_t)) words.

(** Modelled from the spec: the constructor of the owning bitset
    ([raft::core::bitset], which the test includes from a header that is not
    among the sources).  [construct(length, mask_indices)] allocates
    [ceil(length / word_bits)] words, initialises all bits to 1, then clears
    the bit at each index of the mask; it fails with [InvalidArgument] if any
    index is out of [0, length). *)
Definition construct (bitset_t : word_t) (length : Z) (mask_indices : list Z)
  : outcome (list Z) :=
  if forallb (λ idx, (0 <=? idx) && (idx <? length)) mask_indices then
    Ok (foldl (clear_bit bitset_t)
          (replicate (Z.to_nat (ceildiv length (nbits bitset_t))) (Z.ones (nbits bitset_t)))
          mask_indices)
  else Raise InvalidArgument.

(** ** Reinterpreting the backing array at another word width *)

(** Byte-addressed memory seen from the start of a buffer.  A cell holds
    eight bits: [peek] keeps the low eight bits of what the map gives. *)
Definition memory : Type := Z → Z.

Definition peek (mem : memory) (a : Z) : Z := mem a mod 256.

(** [v[k]] of a vector known to hold it. *)
Definition word_at (v : list Z) (k : Z) : Z := default 0 (v !! Z.to_nat k).

(** Byte [j] of a word in little-endian order. *)
Definition byte_of_word (x j : Z) : Z := Z.shiftr x (8 * j) mod 256.

(** [std::memcpy(dst, src.data(), sizeof(bitset_t) * src.size())]: the bytes
    of the vector, word after word, land at the start of [mem]; whatever
    follows them in [mem] stays. *)
Definition memcpy (bitset_t : word_t) (src : list Z) (mem : memory) : memory :=
  λ a, if decide (0 ≤ a < sizeof bitset_t * vsize src)
       then byte_of_word (word_at src (a / sizeof bitset_t)) (a mod sizeof bitset_t)
       else mem a.

(** The unsigned little-endian value of [n] bytes from address [a]. *)
Fixpoint load_bytes (n : nat) (mem : memory) (a : Z) : Z :=
  match n with
  | O => 0
  | S k => Z.lor (peek mem a) (Z.shiftl (load_bytes k mem (a + 1)) 8)
  end.

(** [reinterpret_cast<bitset_t*>(p)]: element [k] of the cast pointer. *)
Definition reinterpret_cast (bitset_t : word_t) (mem : memory) : Z → Z :=
  λ k, load_bytes (Z.to_nat (sizeof bitset_t)) mem (k * sizeof bitset_t).

(** ** Logical bits *)

(** Logical bit [p] of a word array: bit [p mod nbits] of word [p / nbits]. *)
Definition bit_at (bitset_t : word_t) (v : list Z) (p : Z) : bool :=
  Z.testbit (word_at v (p / nbits bitset_t)) (p mod nbits bitset_t).

(** Number of [k < n] with [f k]. *)
Fixpoint count_bits (f : Z → bool) (n : nat) : Z :=
  match n with
  | O => 0
  | S k => count_bits f k + Z.b2z (f (Z.of_nat k))
  end.

(** A word array whose elements are values of the type [t]. *)
Definition words_of (t : word_t) (v : list Z) : Prop :=
  Forall (λ x, 0 ≤ x < 2 ^ nbits t) v.

(** The last value of [size_t]. *)
Definition SIZE_MAX : Z := 2 ^ 64 - 1.

(** State of the copying loops of [repeat_cpu_bitset] once [k] bits are
    written into a destination that was [output0]: the bit index is [k], the
    destination has kept its size, of its first [units] words the logical
    bits below [k] repeat the input and the others are zero, and the words
    from [units] on are those of [output0]. *)
Definition repeat_inv (t : word_t) (input : list Z) (input_bits units : Z)
    (output0 : list Z) (k : Z) (st : list Z * Z) : Prop :=
  st.2 = k
  ∧ vsize st.1 = vsize output0
  ∧ (∀ p, 0 ≤ p < nbits t * units →
       bit_at t st.1 p = (p <? k) && bit_at t input (p mod input_bits))
  ∧ (∀ j, units ≤ j < vsize output0 → word_at st.1 j = word_at output0 j).

(** ** The comparison of the repeated bitsets in [BitsetTest::run]

    [tail_len], [tail_mask] and the loop that counts in [errors] the words
    in which the reference and the result differ, the last word compared
    under the mask. *)
Definition tail_mask (index_t bitset_t : word_t) (bitset_len repeat_times : Z) : Z :=
  let len_per_item := cast index_t (sizeof bitset_t * 8) in
  let tail_len :=
    cast bitset_t (cast index_t (cast uint64_t (bitset_len * repeat_times)) mod len_per_item) in
  if tail_len =? 0 then cast bitset_t (Z.lnot 0)
  else cast bitset_t (Z.shiftl 1 tail_len - 1).

(** The loop; its counter is an [index_t].  [None] when the loop is still
    running after [fuel] tests of its condition. *)
Fixpoint errors_loop (fuel : nat) (index_t : word_t) (tail_mask : Z)
    (bitset_repeat_ref bitset_repeat_result : list Z) (i errors : Z) : option (outcome Z) :=
  match fuel with
  | O => None
  | S k =>
      if i <? vsize bitset_repeat_ref then
        match
          x ← vec_get bitset_repeat_ref i;
          y ← vec_get bitset_repeat_result i;
          Ok (Z.b2z (if i =? cast size_t (vsize bitset_repeat_ref - 1)
                     then negb (Z.land x tail_mask =? Z.land y tail_mask)
                     else negb (x =? y)))
        with
        | Ok d => errors_loop k index_t tail_mask bitset_repeat_ref bitset_repeat_result
                    (cast index_t (i + 1)) (cast index_t (errors + d))
        | Raise e => Some (Raise e)
        | Undefined => Some Undefined
        end
      else Some (Ok errors)
  end.

Definition repeat_errors (fuel : nat) (index_t bitset_t : word_t)
    (bitset_len repeat_times : Z) (bitset_repeat_ref bitset_repeat_result : list Z)
  : option (outcome Z) :=
  errors_loop fuel index_t (tail_mask index_t bitset_t bitset_len repeat_times)
    bitset_repeat_ref bitset_repeat_result 0 0.

(** ** The permutation kernel and its host function

    [permuteKernel], [permute_impl_t::permuteImpl] and [permute], at the
    default instantiation [IntType = IdxType = int].  A thread of the kernel
    is modelled by the stores it performs, in program order; a launch is the
    family of its threads, and an execution applies the stores of all
    threads in some order. *)

(** The value of a two's-complement integer of [bits] bits. *)
Definition sint (bits x : Z) : Z := (x + 2 ^ (bits - 1)) mod 2 ^ bits - 2 ^ (bits - 1).

Definition INT_MAX : Z := 2 ^ 31 - 1.

Definition WARP_SIZE : Z := 32.

(** [((a * int64_t(tid)) + b) % N], converted to [IntType]. *)
Definition inIdx_of (a b N tid : Z) : Z :=
  sint 32 (Z.rem (sint 64 (sint 64 (a * tid) + b)) N).

Inductive store : Set :=
| StorePerm (outIdx inIdx : Z)   (* perms[outIdx] = inIdx *)
| StoreOut (dst src : Z).        (* out[dst] = in[src] *)

(** The values of [j] in [for (int j = start; j < stop; j += step)]. *)
Fixpoint strided (fuel : nat) (j stop step : Z) : list Z :=
  match fuel with
  | O => []
  | S k => if j <? stop then j :: strided k (sint 32 (j + step)) stop step else []
  end.

(** The stores of the thread [threadIdx] of the block [blockIdx].  The
    booleans [perms], [out] and [in_] tell which pointers are not null.  In
    the row-major branch the slot [x] of the shared arrays holds, after
    [warp.sync()], what the thread [x] of the block has put there; a thread
    reads the slots of its own warp, which must lie inside the arrays of
    [TPB] slots. *)
Definition permuteKernel (TPB : Z) (rowMajor : bool) (perms out in_ : bool)
    (a b N D : Z) (blockDim blockIdx threadIdx : Z) : outcome (list store) :=
  let tid := sint 32 (threadIdx + blockIdx * blockDim) in
  if N =? 0 then Undefined else
  let inIdx := inIdx_of a b N tid in
  let outIdx := tid in
  let to_perms := if perms && (tid <? N) then [StorePerm outIdx inIdx] else [] in
  if negb out || negb in_ then Ok to_perms else
  if rowMajor then
    let inIdxShm := λ x, inIdx_of a b N (sint 32 (x + blockIdx * blockDim)) in
    let outIdxShm := λ x, sint 32 (x + blockIdx * blockDim) in
    let warpID := Z.quot threadIdx WARP_SIZE in
    let laneID := Z.rem threadIdx WARP_SIZE in
    if decide (0 ≤ threadIdx < TPB ∧ warpID * WARP_SIZE + WARP_SIZE ≤ TPB) then
      Ok (to_perms ++
          i ← seqZ (warpID * WARP_SIZE) WARP_SIZE;
          if outIdxShm i <? N then
            j ← strided (Z.to_nat D) laneID D WARP_SIZE;
            [StoreOut (sint 32 (sint 32 (outIdxShm i * D) + j))
                      (sint 32 (sint 32 (inIdxShm i * D) + j))]
          else [])
    else Undefined
  else
    Ok (to_perms ++
        j ← seqZ 0 D;
        if tid <? N then
          [StoreOut (sint 32 (outIdx + sint 32 (j * N)))
                    (sint 32 (inIdx + sint 32 (j * N)))]
        else []).

(** [permuteKernel<<<nblks, TPB, 0, stream>>>(...)]: the stores of every
    thread of every block, thread by thread. *)
Fixpoint collect {A B : Type} (f : A → outcome B) (l : list A) : outcome (list B) :=
  match l with
  | [] => Ok []
  | x :: r => y ← f x; ys ← collect f r; Ok (y :: ys)
  end.

Definition launch_permuteKernel (TPB : Z) (rowMajor : bool) (perms out in_ : bool)
    (a b N D : Z) (nblks : Z) : outcome (list (list store)) :=
  collect (λ th : Z * Z, permuteKernel TPB rowMajor perms out in_ a b N D TPB th.1 th.2)
    (blockIdx ← seqZ 0 nblks; threadIdx ← seqZ 0 TPB; [(blockIdx, threadIdx)]).

(** Device memory: the [perms] array and the [out] array; [in_] is only
    read and overlaps neither.  A store outside an array is undefined. *)
Definition run_store {A : Type} (in_ : list A) (mem : list Z * list A) (s : store)
  : outcome (list Z * list A) :=
  match s with
  | StorePerm o i =>
      if decide (0 ≤ o < Z.of_nat (length mem.1))
      then Ok (<[Z.to_nat o := i]> mem.1, mem.2) else Undefined
  | StoreOut d c =>
      if decide (0 ≤ c ∧ 0 ≤ d < Z.of_nat (length mem.2)) then
        match in_ !! Z.to_nat c with
        | Some x => Ok (mem.1, <[Z.to_nat d := x]> mem.2)
        | None => Undefined
        end
      else Undefined
  end.

Fixpoint run_stores {A : Type} (in_ : list A) (ss : list store) (mem : list Z * list A)
  : outcome (list Z * list A) :=
  match ss with
  | [] => Ok mem
  | s :: r => mem' ← run_store in_ mem s; run_stores in_ r mem'
  end.

(** [while (raft::gcd(a, N) != 1) a = (a + 1) % N;]; [None] when the loop
    is still running after [fuel] tests.  [raft::gcd] is the greatest common
    divisor. *)
Fixpoint coprime_search (fuel : nat) (a N : Z) : option Z :=
  match fuel with
  | O => None
  | S k => if Z.gcd a N =? 1 then Some a
           else coprime_search k (Z.rem (sint 32 (a + 1)) N) N
  end.

(** The host function up to the launch: the grid size and the coefficients
    [a] and [b] of the index map, from the two values [rand()] returns. *)
Definition permute_coefficients (TPB : Z) (fuel : nat) (rand1 rand2 : Z) (N : Z)
  : option (outcome (Z * Z * Z)) :=
  if N =? 0 then Some Undefined else
  let nblks := ceildiv N TPB in
  match coprime_search fuel (Z.rem rand1 N) N with
  | None => None
  | Some a => let b := Z.rem rand2 N in Some (Ok (nblks, a, b))
  end.

(** Position of element [j] of row [t] in an array of [N] rows and [D]
    columns, row-major or column-major. *)
Definition cell (rowMajor : bool) (N D t j : Z) : Z :=
  if rowMajor then t * D + j else t + j * N.

(** A store that puts the image of [t] under the index map at [perms[t]], or
    element [j] of the input row picked for [t] at element [j] of the output
    row [t]. *)
Definition store_expected (rowMajor : bool) (a b N D : Z) (s : store) : Prop :=
  match s with
  | StorePerm t v => 0 ≤ t < N ∧ v = (a * t + b) mod N
  | StoreOut d c =>
      ∃ t j, 0 ≤ t < N ∧ 0 ≤ j < D
             ∧ d = cell rowMajor N D t j
             ∧ c = cell rowMajor N D ((a * t + b) mod N) j
  end.

(** Replaces the sizes of the four word types by their values. *)
Ltac norm_nbits :=
  change (nbits uint8_t) with 8 in *; change (nbits uint16_t) with 16 in *;
  change (nbits uint32_t) with 32 in *; change (nbits uint64_t) with 64 in *;
  change (sizeof uint8_t) with 1 in *; change (sizeof uint16_t) with 2 in *;
  change (sizeof uint32_t) with 4 in *; change (sizeof uint64_t) with 8 in *.

(** * Properties *)

(** ** Sanity checks on concrete inputs *)

Example create_cpu_bitset_32 :
  create_cpu_bitset uint32_t (bitset_ref uint32_t 32) [0; 3; 7; 31] = Ok [0x7fffff76].
Proof. vm_compute. reflexivity. Qed.

Example test_cpu_bitset_32 :
  test_cpu_bitset uint32_t [0x7fffff76] [0; 3; 7; 31; 1; 2; 4] (make_vector 7)
  = Ok [0; 0; 0; 0; 1; 1; 1].
Proof. vm_compute. reflexivity. Qed.

Example one_count_32 : one_count uint32_t [0x7fffff76] 32 = Ok 28.
Proof. vm_compute. reflexivity. Qed.

Example flip_cpu_bitset_8 : flip_cpu_bitset uint8_t [0x15; 0xff] = Ok [0xea; 0x00].
Proof. vm_compute. reflexivity. Qed.

Example repeat_cpu_bitset_5x3 :
  repeat_cpu_bitset uint8_t [0x15] 5 3 (bitset_repeat_ref uint8_t 5 3) = Ok [0xb5; 0x56].
Proof. vm_compute. reflexivity. Qed.

Example sparsity_cpu_bitset_5 :
  sparsity_cpu_bitset uint8_t [0x15] 5 = Ok (Exact (Q2Qc (2 # 5))).
Proof. vm_compute. reflexivity. Qed.

Example construct_32 : construct uint32_t 32 [0; 3; 7; 31] = Ok [0x7fffff76].
Proof. vm_compute. reflexivity. Qed.

Example construct_out_of_range : construct uint8_t 5 [6] = Raise InvalidArgument.
Proof. vm_compute. reflexivity. Qed.

Example create_cpu_bitset_padding_index :
  create_cpu_bitset uint8_t (bitset_ref uint8_t 5) [6] = Ok [0xbf].
Proof. vm_compute. reflexivity. Qed.

Example repeat_errors_padding :
  repeat_errors 3 uint32_t uint8_t 5 3 [0xb5; 0x56] [0xb5; 0xd6] = Some (Ok 0).
Proof. vm_compute. reflexivity. Qed.

Example repeat_errors_logical :
  repeat_errors 3 uint32_t uint8_t 5 3 [0xb5; 0x56] [0xb4; 0x16] = Some (Ok 2).
Proof. vm_compute. reflexivity. Qed.

Example permuteKernel_col_major :
  launch_permuteKernel 32 false true true true 3 1 4 2 1
  ≫= (λ threads, run_stores [10; 11; 12; 13; 20; 21; 22; 23] (concat threads)
                   ([0; 0; 0; 0], [0; 0; 0; 0; 0; 0; 0; 0]))
  = Ok ([1; 0; 3; 2], [11; 10; 13; 12; 21; 20; 23; 22]).
Proof. vm_compute. reflexivity. Qed.

Example permuteKernel_row_major :
  launch_permuteKernel 32 true true true true 3 1 4 2 1
  ≫= (λ threads, run_stores [10; 11; 20; 21; 30; 31; 40; 41] (concat threads)
                   ([0; 0; 0; 0], [0; 0; 0; 0; 0; 0; 0; 0]))
  = Ok ([1; 0; 3; 2], [20; 21; 10; 11; 40; 41; 30; 31]).
Proof. vm_compute. reflexivity. Qed.

Example permute_coefficients_12 :
  permute_coefficients 256 12 1234567 7654321 12 = Some (Ok (1, 7, 1)).
Proof. vm_compute. reflexivity. Qed.

Example test_cpu_bitset_nbits_16_8 :
  test_cpu_bitset_nbits uint32_t uint8_t
    (reinterpret_cast uint8_t (memcpy uint16_t [0x0100; 0x8001] (λ _, 0xff)))
    [0; 8; 16; 31; 15] (make_vector 5) 16
  = Ok [0; 1; 1; 1; 0].
Proof. vm_compute. reflexivity. Qed.

(** ** Word sizes *)

Lemma sizeof_cases t : sizeof t = 1 ∨ sizeof t = 2 ∨ sizeof t = 4 ∨ sizeof t = 8.
Proof. destruct t; simpl; auto. Qed.

Lemma nbits_pos t : 0 < nbits t.
Proof. unfold nbits. destruct (sizeof_cases t) as [E|[E|[E|E]]]; rewrite E; lia. Qed.

Lemma nbits_le_64 t : nbits t ≤ 64.
Proof. unfold nbits. destruct (sizeof_cases t) as [E|[E|[E|E]]]; rewrite E; lia. Qed.

Lemma nbits_unfold t : sizeof t * 8 = nbits t.
Proof. reflexivity. Qed.

Lemma cast_small t x : 0 ≤ x < 2 ^ nbits t → cast t x = x.
Proof. intros H. unfold cast. apply Z.mod_small. exact H. Qed.

Lemma cast_range t x : 0 ≤ cast t x < 2 ^ nbits t.
Proof.
  unfold cast. apply Z.mod_pos_bound. apply Z.pow_pos_nonneg; [lia|].
  pose proof (nbits_pos t). lia.
Qed.

Lemma cast_size_t_small x : 0 ≤ x ≤ SIZE_MAX → cast size_t x = x.
Proof. intros H. apply cast_small. unfold SIZE_MAX in H. change (2 ^ nbits size_t) with (2 ^ 64). lia. Qed.

(** ** Bit tests *)

Lemma testbit_cast t x o : 0 ≤ o < nbits t → Z.testbit (cast t x) o = Z.testbit x o.
Proof. intros H. unfold cast. apply Z.mod_pow2_bits_low. lia. Qed.

Lemma testbit_cast_high t x o : nbits t ≤ o → Z.testbit (cast t x) o = false.
Proof.
  intros H. unfold cast. apply Z.mod_pow2_bits_high.
  pose proof (nbits_pos t). lia.
Qed.

(** [(x & (1 << o)) != 0] reads bit [o]. *)
Lemma nonzero_land_shiftl x o : 0 ≤ o → nonzero (Z.land x (Z.shiftl 1 o)) = Z.testbit x o.
Proof.
  intros Ho. unfold nonzero.
  rewrite Z.shiftl_1_l.
  destruct (Z.testbit x o) eqn:E.
  - destruct (Z.eqb_spec (Z.land x (2 ^ o)) 0) as [H0|]; [|reflexivity].
    exfalso. apply (f_equal (λ y, Z.testbit y o)) in H0.
    rewrite Z.land_spec, E, Z.pow2_bits_true, Z.bits_0 in H0 by lia. discriminate.
  - destruct (Z.eqb_spec (Z.land x (2 ^ o)) 0) as [|H0]; [reflexivity|].
    exfalso. apply H0. apply Z.bits_inj'. intros k Hk.
    rewrite Z.land_spec, Z.bits_0.
    destruct (Z.eq_dec k o) as [->|Hne].
    + rewrite E. reflexivity.
    + rewrite Z.pow2_bits_false by lia. apply andb_false_r.
Qed.

(** [(x >> o) & 1] reads bit [o]. *)
Lemma nonzero_shiftr_land x o : 0 ≤ o → nonzero (Z.land (Z.shiftr x o) 1) = Z.testbit x o.
Proof.
  intros Ho.
  change 1 with (Z.shiftl 1 0) at 1.
  rewrite nonzero_land_shiftl by lia.
  rewrite Z.shiftr_spec by lia. reflexivity.
Qed.

(** ** Vectors *)

Lemma vsize_nonneg v : 0 ≤ vsize v.
Proof. unfold vsize. lia. Qed.

Lemma vec_get_ok v k : 0 ≤ k < vsize v → vec_get v k = Ok (word_at v k).
Proof.
  intros H. unfold vec_get, word_at, vsize in *.
  rewrite decide_True by lia.
  destruct (lookup_lt_is_Some_2 v (Z.to_nat k)) as [x Hx]; [lia|].
  rewrite Hx. reflexivity.
Qed.

Lemma vec_get_nth v (i : nat) x : v !! i = Some x → vec_get v (Z.of_nat i) = Ok x.
Proof.
  intros H. unfold vec_get. rewrite decide_True by lia.
  rewrite Nat2Z.id, H. reflexivity.
Qed.

Lemma vec_get_lookup v i x : 0 ≤ i → v !! Z.to_nat i = Some x → vec_get v i = Ok x.
Proof. intros Hi H. unfold vec_get. rewrite decide_True by lia. rewrite H. reflexivity. Qed.

Lemma vec_set_ok v k x : 0 ≤ k < vsize v → vec_set v k x = Ok (<[Z.to_nat k := x]> v).
Proof. intros H. unfold vec_set. rewrite decide_True by lia. reflexivity. Qed.

Lemma vsize_insert v (k : nat) x : vsize (<[k := x]> v) = vsize v.
Proof. unfold vsize. rewrite length_insert. reflexivity. Qed.

Lemma word_at_insert v k j x :
  0 ≤ k < vsize v → 0 ≤ j →
  word_at (<[Z.to_nat k := x]> v) j = if decide (j = k) then x else word_at v j.
Proof.
  intros Hk Hj. unfold word_at, vsize in *.
  destruct (decide (j = k)) as [->|Hne].
  - rewrite list_lookup_insert_eq by lia. reflexivity.
  - rewrite list_lookup_insert_ne by lia. reflexivity.
Qed.

(** Writing word [k] changes the logical bits of that word only. *)
Lemma bit_at_insert t v k x p :
  0 ≤ k < vsize v → 0 ≤ p →
  bit_at t (<[Z.to_nat k := x]> v) p =
    if decide (p / nbits t = k) then Z.testbit x (p mod nbits t) else bit_at t v p.
Proof.
  intros Hk Hp. unfold bit_at.
  pose proof (nbits_pos t).
  rewrite word_at_insert by (try apply Z.div_pos; lia).
  destruct (decide (p / nbits t = k)); reflexivity.
Qed.

(** ** Loop rules *)

Lemma for_loop_inv {S : Type} (P : Z → S → Prop) (body : Z → S → outcome S) n i0 s :
  P i0 s →
  (∀ i s, i0 ≤ i < i0 + Z.of_nat n → P i s → ∃ s', body i s = Ok s' ∧ P (i + 1) s') →
  ∃ s', for_loop n i0 body s = Ok s' ∧ P (i0 + Z.of_nat n) s'.
Proof.
  revert i0 s. induction n as [|n IH]; intros i0 s H0 Hstep.
  - exists s. split; [reflexivity|]. replace (i0 + Z.of_nat 0) with i0 by lia. exact H0.
  - destruct (Hstep i0 s) as (s1 & E1 & P1); [lia|exact H0|].
    destruct (IH (i0 + 1) s1 P1) as (s2 & E2 & P2).
    { intros i s' Hi. apply Hstep. lia. }
    exists s2. split.
    + simpl. rewrite E1. exact E2.
    + replace (i0 + Z.of_nat (Datatypes.S n)) with (i0 + 1 + Z.of_nat n) by lia. exact P2.
Qed.

Lemma for_range_inv {S : Type} (P : Z → S → Prop) (body : Z → S → outcome S) n s :
  0 ≤ n → P 0 s →
  (∀ i s, 0 ≤ i < n → P i s → ∃ s', body i s = Ok s' ∧ P (i + 1) s') →
  ∃ s', for_range n body s = Ok s' ∧ P n s'.
Proof.
  intros Hn H0 Hstep. unfold for_range.
  destruct (for_loop_inv P body (Z.to_nat n) 0 s H0) as (s' & E & HP).
  - intros i s0 Hi. apply Hstep. lia.
  - exists s'. split; [exact E|]. replace n with (0 + Z.of_nat (Z.to_nat n)) by lia. exact HP.
Qed.

(** A loop that rewrites every element in place is a [map]. *)
Lemma for_range_map (f : Z → Z) v :
  for_range (vsize v) (λ i v, x ← vec_get v i; vec_set v i (f x)) v = Ok (map f v).
Proof.
  destruct (for_range_inv
    (λ i s, s = map f (take (Z.to_nat i) v) ++ drop (Z.to_nat i) v)
    (λ i v, x ← vec_get v i; vec_set v i (f x)) (vsize v) v) as (s' & E & HP).
  - apply vsize_nonneg.
  - reflexivity.
  - intros i s Hi ->. unfold vsize in Hi.
    destruct (lookup_lt_is_Some_2 v (Z.to_nat i)) as [x Hx]; [lia|].
    assert (Hlen : length (map f (take (Z.to_nat i) v)) = Z.to_nat i).
    { rewrite length_map, length_take. lia. }
    assert (Hget : (map f (take (Z.to_nat i) v) ++ drop (Z.to_nat i) v) !! Z.to_nat i = Some x).
    { rewrite lookup_app_r by lia. rewrite Hlen, Nat.sub_diag, lookup_drop, Nat.add_0_r. exact Hx. }
    exists (map f (take (Z.to_nat (i + 1)) v) ++ drop (Z.to_nat (i + 1)) v). split; [|reflexivity].
    unfold vec_get. rewrite decide_True by lia. rewrite Hget. simpl.
    rewrite vec_set_ok by (unfold vsize; rewrite length_app, Hlen, length_drop; lia).
    f_equal.
    replace (Z.to_nat (i + 1)) with (Datatypes.S (Z.to_nat i)) by lia.
    rewrite (take_S_r v (Z.to_nat i) x Hx), map_app. simpl.
    rewrite <- app_assoc. simpl.
    rewrite <- (Nat.add_0_r (Z.to_nat i)) at 1.
    rewrite <- Hlen at 1.
    rewrite insert_app_r.
    rewrite (drop_S v x (Z.to_nat i) Hx). reflexivity.
  - rewrite E. f_equal. subst s'. unfold vsize. rewrite Nat2Z.id.
    rewrite firstn_all, drop_all, app_nil_r. reflexivity.
Qed.

(** A loop that stores [f (queries[i])] into [result[i]] tabulates [f]. *)
Lemma for_range_tabulate (body : Z → list Z → outcome (list Z)) (f : Z → Z) queries result :
  length result = length queries →
  (∀ (i : nat) q s, queries !! i = Some q → (i < length s)%nat →
     body (Z.of_nat i) s = Ok (<[i := f q]> s)) →
  for_range (vsize queries) body result = Ok (map f queries).
Proof.
  intros Hlen Hbody.
  destruct (for_range_inv
    (λ i s, s = map f (take (Z.to_nat i) queries) ++ drop (Z.to_nat i) result)
    body (vsize queries) result) as (s' & E & HP).
  - apply vsize_nonneg.
  - reflexivity.
  - intros i s Hi ->. unfold vsize in Hi.
    destruct (lookup_lt_is_Some_2 queries (Z.to_nat i)) as [q Hq]; [lia|].
    destruct (lookup_lt_is_Some_2 result (Z.to_nat i)) as [y Hy]; [lia|].
    assert (Hpre : length (map f (take (Z.to_nat i) queries)) = Z.to_nat i).
    { rewrite length_map, length_take. lia. }
    eexists. split.
    + rewrite <- (Z2Nat.id i) at 1 by lia. apply (Hbody _ q); [exact Hq|].
      rewrite length_app, Hpre, length_drop. lia.
    + replace (Z.to_nat (i + 1)) with (Datatypes.S (Z.to_nat i)) by lia.
      rewrite (take_S_r queries (Z.to_nat i) q Hq), map_app. simpl.
      rewrite <- app_assoc. simpl.
      rewrite <- (Nat.add_0_r (Z.to_nat i)) at 1.
      rewrite <- Hpre at 1.
      rewrite insert_app_r.
      rewrite (drop_S result y (Z.to_nat i) Hy). reflexivity.
  - rewrite E. f_equal. subst s'. unfold vsize. rewrite Nat2Z.id.
    rewrite firstn_all, drop_ge, app_nil_r by lia. reflexivity.
Qed.

(** ** flip *)

Lemma flip_cpu_bitset_map t v :
  flip_cpu_bitset t v = Ok (map (λ x, cast t (Z.lnot x)) v).
Proof. unfold flip_cpu_bitset. apply (for_range_map (λ x, cast t (Z.lnot x))). Qed.

Lemma testbit_word_high t x k : 0 ≤ x < 2 ^ nbits t → nbits t ≤ k → Z.testbit x k = false.
Proof.
  intros Hx Hk. rewrite <- (cast_small t x Hx). apply testbit_cast_high. exact Hk.
Qed.

Lemma cast_lnot_twice t x : 0 ≤ x < 2 ^ nbits t → cast t (Z.lnot (cast t (Z.lnot x))) = x.
Proof.
  intros Hx. apply Z.bits_inj'. intros k Hk.
  destruct (Z.lt_ge_cases k (nbits t)) as [Hlt|Hge].
  - rewrite testbit_cast, Z.lnot_spec, testbit_cast, Z.lnot_spec by lia.
    apply negb_involutive.
  - rewrite testbit_cast_high by lia. symmetry. apply (testbit_word_high t); assumption.
Qed.

Lemma bit_at_flip t v p :
  0 ≤ p < nbits t * vsize v →
  bit_at t (map (λ x, cast t (Z.lnot x)) v) p = negb (bit_at t v p).
Proof.
  intros Hp. pose proof (nbits_pos t) as Hw. unfold bit_at, word_at.
  assert (Hk : 0 ≤ p / nbits t < vsize v).
  { split; [apply Z.div_pos; lia|]. apply Z.div_lt_upper_bound; lia. }
  destruct (lookup_lt_is_Some_2 v (Z.to_nat (p / nbits t))) as [x Hx].
  { unfold vsize in Hk. lia. }
  rewrite list_lookup_fmap, Hx. simpl.
  rewrite testbit_cast by (apply Z.mod_pos_bound; lia).
  apply Z.lnot_spec. apply Z.mod_pos_bound. lia.
Qed.

(** ** Counting *)

Lemma count_bits_bounds f n : 0 ≤ count_bits f n ≤ Z.of_nat n.
Proof. induction n as [|n IH]; simpl; [lia|]. destruct (f (Z.of_nat n)); simpl; lia. Qed.

Lemma count_bits_ext f g n :
  (∀ k, 0 ≤ k < Z.of_nat n → f k = g k) → count_bits f n = count_bits g n.
Proof.
  induction n as [|n IH]; intros H; simpl; [reflexivity|].
  rewrite IH by (intros k Hk; apply H; lia).
  rewrite (H (Z.of_nat n)) by lia. reflexivity.
Qed.

Lemma count_bits_negb f n : count_bits (λ k, negb (f k)) n = Z.of_nat n - count_bits f n.
Proof. induction n as [|n IH]; simpl; [lia|]. rewrite IH. destruct (f (Z.of_nat n)); simpl; lia. Qed.

Lemma count_bits_app f n m :
  count_bits f (n + m) = count_bits f n + count_bits (λ k, f (Z.of_nat n + k)) m.
Proof.
  induction m as [|m IH]; simpl.
  - rewrite Nat.add_0_r. lia.
  - rewrite Nat.add_succ_r. simpl. rewrite IH, Nat2Z.inj_add. lia.
Qed.

(** Turning one more position on adds one. *)
Lemma count_bits_update f g x n :
  0 ≤ x < Z.of_nat n → f x = false → g x = true → (∀ k, k ≠ x → g k = f k) →
  count_bits g n = count_bits f n + 1.
Proof.
  induction n as [|n IH]; intros Hx Hf Hg Hother; [lia|]. simpl.
  destruct (decide (x = Z.of_nat n)) as [->|Hne].
  - rewrite Hf, Hg. rewrite (count_bits_ext g f n); [simpl; lia|].
    intros k Hk. apply Hother. lia.
  - rewrite IH by (auto; lia). rewrite (Hother (Z.of_nat n)) by auto. lia.
Qed.

(** The counting loop of [sparsity_cpu_bitset] counts the logical bits that
    are set. *)
Lemma one_count_spec t v N :
  0 ≤ N ≤ nbits t * vsize v → N ≤ SIZE_MAX →
  one_count t v N = Ok (count_bits (bit_at t v) (Z.to_nat N)).
Proof.
  intros HN Hmax. pose proof (nbits_pos t) as Hw. unfold one_count.
  match goal with |- for_range _ ?b _ = _ => set (body := b) end.
  destruct (for_range_inv (λ i c, c = count_bits (bit_at t v) (Z.to_nat i)) body N 0)
    as (c & E & ->); [lia|reflexivity| |exact E].
  intros i c Hi ->. subst body. cbv beta zeta. rewrite !nbits_unfold.
  rewrite vec_get_ok.
  2:{ split; [apply Z.div_pos; lia|]. apply Z.div_lt_upper_bound; lia. }
  cbn [mbind outcome_bind].
  rewrite nonzero_shiftr_land by (apply Z.mod_pos_bound; lia).
  fold (bit_at t v i).
  eexists. split; [reflexivity|].
  replace (Z.to_nat (i + 1)) with (Datatypes.S (Z.to_nat i)) by lia.
  simpl. rewrite Z2Nat.id by lia.
  pose proof (count_bits_bounds (bit_at t v) (Z.to_nat i)) as Hb.
  destruct (bit_at t v i); simpl; [|lia].
  apply cast_size_t_small. lia.
Qed.

(** ** Ceiling division *)

Lemma ceildiv_neg a b : 0 < b → ceildiv a b = - (- a / b).
Proof.
  intros Hb. unfold ceildiv, Qceiling, Qfloor. simpl.
  rewrite Z2Pos.id by lia. reflexivity.
Qed.

Lemma ceildiv_formula a b : 0 < b → ceildiv a b = (a + b - 1) / b.
Proof.
  intros Hb. rewrite ceildiv_neg by lia.
  apply (Z.div_unique _ _ _ (b - 1 - (- a) mod b)).
  - pose proof (Z.mod_pos_bound (- a) b Hb). left. lia.
  - pose proof (Z.div_mod (- a) b). lia.
Qed.

(** [ceildiv a b] is the least number of [b]-bit words that hold [a] bits. *)
Lemma ceildiv_least a b k : 0 < b → (ceildiv a b ≤ k ↔ a ≤ b * k).
Proof.
  intros Hb. rewrite ceildiv_neg by lia.
  pose proof (Z.div_mod (- a) b) as E. pose proof (Z.mod_pos_bound (- a) b Hb) as R.
  split; intros H; nia.
Qed.

Lemma ceildiv_covers a b : 0 < b → a ≤ b * ceildiv a b.
Proof. intros Hb. apply ceildiv_least; [exact Hb|lia]. Qed.

Lemma ceildiv_nonneg a b : 0 < b → 0 ≤ a → 0 ≤ ceildiv a b.
Proof.
  intros Hb Ha. rewrite ceildiv_formula by lia. apply Z.div_pos; lia.
Qed.

Lemma vsize_make_vector n : 0 ≤ n → vsize (make_vector n) = n.
Proof. intros Hn. unfold vsize, make_vector. rewrite length_replicate. lia. Qed.

Lemma vsize_bitset_ref t N : 0 ≤ N → vsize (bitset_ref t N) = ceildiv N (nbits t).
Proof.
  intros HN. unfold bitset_ref. rewrite nbits_unfold.
  apply vsize_make_vector. apply ceildiv_nonneg; [apply nbits_pos|exact HN].
Qed.

(** ** create, add and test *)

Lemma words_of_insert t v (k : nat) x :
  words_of t v → 0 ≤ x < 2 ^ nbits t → words_of t (<[k := x]> v).
Proof. intros Hv Hx. apply Forall_insert; assumption. Qed.

Lemma div_in_words w p L : 0 < w → 0 ≤ p < w * L → 0 ≤ p / w < L.
Proof.
  intros Hw Hp. split; [apply Z.div_pos; lia|]. apply Z.div_lt_upper_bound; lia.
Qed.

(** The first loop of [create_cpu_bitset] sets every logical bit. *)
Lemma fill_ones_spec t v :
  ∃ v1, for_range (vsize v) (λ i bitset, vec_set bitset i (cast t (Z.lnot 0))) v = Ok v1
        ∧ vsize v1 = vsize v ∧ words_of t v1
        ∧ ∀ p, 0 ≤ p < nbits t * vsize v → bit_at t v1 p = true.
Proof.
  pose proof (nbits_pos t) as Hw.
  destruct (for_range_inv
    (λ i s, vsize s = vsize v ∧ Forall (λ x, 0 ≤ x < 2 ^ nbits t) (take (Z.to_nat i) s)
            ∧ ∀ k, 0 ≤ k < i → word_at s k = cast t (Z.lnot 0))
    (λ i bitset, vec_set bitset i (cast t (Z.lnot 0))) (vsize v) v)
    as (v1 & E & Hsz & Hrange & Hwords).
  - apply vsize_nonneg.
  - split; [reflexivity|]. split; [constructor|]. intros k Hk. lia.
  - intros i s Hi (Hsz & Hrange & Hwords).
    eexists. split; [apply vec_set_ok; lia|].
    split; [rewrite vsize_insert; exact Hsz|]. split.
    + replace (Z.to_nat (i + 1)) with (Datatypes.S (Z.to_nat i)) by lia.
      erewrite take_S_r by (apply list_lookup_insert_eq; unfold vsize in *; lia).
      apply Forall_app. split.
      * rewrite take_insert_ge by lia. exact Hrange.
      * repeat constructor; apply cast_range.
    + intros k Hk. rewrite word_at_insert by lia.
      destruct (decide (k = i)); [reflexivity|]. apply Hwords. lia.
  - exists v1. split; [exact E|]. split; [exact Hsz|]. split.
    + unfold words_of. rewrite <- (firstn_all v1).
      unfold vsize in Hsz. replace (length v1) with (Z.to_nat (vsize v)) by (unfold vsize; lia).
      exact Hrange.
    + intros p Hp. unfold bit_at.
      rewrite Hwords by (apply div_in_words; lia).
      rewrite testbit_cast by (apply Z.mod_pos_bound; lia).
      change (Z.lnot 0) with (-1). apply Z.bits_m1. apply Z.mod_pos_bound. lia.
Qed.

(** [add_cpu_bitset] clears exactly the logical bits listed in the mask. *)
Lemma add_cpu_bitset_spec t v mask :
  words_of t v →
  Forall (λ idx, 0 ≤ idx < nbits t * vsize v) mask →
  ∃ v1, add_cpu_bitset t v mask = Ok v1 ∧ vsize v1 = vsize v ∧ words_of t v1
        ∧ ∀ p, 0 ≤ p < nbits t * vsize v →
            bit_at t v1 p = bit_at t v p && negb (bool_decide (p ∈ mask)).
Proof.
  intros Hv Hmask. pose proof (nbits_pos t) as Hw. unfold add_cpu_bitset. cbv zeta.
  match goal with |- ∃ _, for_range _ ?b _ = _ ∧ _ => set (body := b) end.
  destruct (for_range_inv
    (λ i s, vsize s = vsize v ∧ words_of t s
            ∧ ∀ p, 0 ≤ p < nbits t * vsize v →
                bit_at t s p = bit_at t v p && negb (bool_decide (p ∈ take (Z.to_nat i) mask)))
    body (vsize mask) v) as (v1 & E & Hsz & Hwf & Hbits).
  - apply vsize_nonneg.
  - split; [reflexivity|]. split; [exact Hv|]. intros p Hp.
    rewrite bool_decide_eq_false_2 by (simpl; apply not_elem_of_nil).
    simpl. rewrite andb_true_r. reflexivity.
  - intros i s Hi (Hsz & Hwf & Hbits). subst body. cbv beta. rewrite !nbits_unfold.
    destruct (lookup_lt_is_Some_2 mask (Z.to_nat i)) as [idx Hidx]; [unfold vsize in Hi; lia|].
    assert (Hin : 0 ≤ idx < nbits t * vsize v).
    { rewrite Forall_forall in Hmask. apply Hmask. eapply list_elem_of_lookup_2. exact Hidx. }
    pose proof (div_in_words (nbits t) idx (vsize v) Hw Hin) as Hk.
    pose proof (Z.mod_pos_bound idx (nbits t) Hw) as Ho.
    rewrite (vec_get_lookup _ _ _ (proj1 Hi) Hidx).
    cbn [mbind outcome_bind].
    rewrite vec_get_ok by lia. cbn [mbind outcome_bind].
    rewrite vec_set_ok by lia.
    eexists. split; [reflexivity|].
    split; [rewrite vsize_insert; exact Hsz|].
    split; [apply words_of_insert; [exact Hwf|apply cast_range]|].
    intros p Hp.
    replace (Z.to_nat (i + 1)) with (Datatypes.S (Z.to_nat i)) by lia.
    rewrite (take_S_r mask (Z.to_nat i) idx Hidx).
    rewrite bit_at_insert by lia.
    pose proof (Z.mod_pos_bound p (nbits t) Hw) as Hpo.
    pose proof (Z.div_mod p (nbits t)) as Dp. pose proof (Z.div_mod idx (nbits t)) as Di.
    destruct (decide (p / nbits t = idx / nbits t)) as [Heq|Hne].
    + rewrite testbit_cast by lia.
      rewrite Z.land_spec, Z.lnot_spec, Z.shiftl_1_l by lia.
      rewrite <- Heq.
      change (Z.testbit (word_at s (p / nbits t)) (p mod nbits t)) with (bit_at t s p).
      rewrite Hbits by lia. rewrite <- andb_assoc. f_equal.
      destruct (decide (p = idx)) as [->|Hpne].
      * rewrite Z.pow2_bits_true by lia.
        rewrite (bool_decide_eq_true_2 (idx ∈ take (Z.to_nat i) mask ++ [idx])).
        2:{ apply elem_of_app. right. apply list_elem_of_singleton. reflexivity. }
        simpl. apply andb_false_r.
      * rewrite Z.pow2_bits_false by (intros Hm; apply Hpne; rewrite Heq in Dp; lia).
        simpl. rewrite andb_true_r. f_equal. apply bool_decide_ext.
        rewrite elem_of_app, list_elem_of_singleton. tauto.
    + rewrite Hbits by lia. f_equal. f_equal. apply bool_decide_ext.
      rewrite elem_of_app, list_elem_of_singleton.
      split; [tauto|]. intros [H|H]; [exact H|]. subst p. contradiction.
  - exists v1. split; [exact E|]. split; [exact Hsz|]. split; [exact Hwf|].
    intros p Hp. rewrite Hbits by lia. unfold vsize. rewrite Nat2Z.id, firstn_all. reflexivity.
Qed.

Lemma create_cpu_bitset_spec t v mask :
  Forall (λ idx, 0 ≤ idx < nbits t * vsize v) mask →
  ∃ v1, create_cpu_bitset t v mask = Ok v1 ∧ vsize v1 = vsize v ∧ words_of t v1
        ∧ ∀ p, 0 ≤ p < nbits t * vsize v → bit_at t v1 p = negb (bool_decide (p ∈ mask)).
Proof.
  intros Hmask. unfold create_cpu_bitset.
  destruct (fill_ones_spec t v) as (v0 & E0 & Hsz0 & Hwf0 & Hones).
  rewrite E0. cbn [mbind outcome_bind].
  destruct (add_cpu_bitset_spec t v0 mask Hwf0) as (v1 & E1 & Hsz1 & Hwf1 & Hbits).
  { rewrite Hsz0. exact Hmask. }
  exists v1. split; [exact E1|]. split; [lia|]. split; [exact Hwf1|].
  intros p Hp. rewrite Hbits, Hones by lia. reflexivity.
Qed.

Lemma test_cpu_bitset_spec t v queries result :
  Forall (λ q, 0 ≤ q < nbits t * vsize v) queries →
  length result = length queries →
  test_cpu_bitset t v queries result = Ok (map (λ q, Z.b2z (bit_at t v q)) queries).
Proof.
  intros Hq Hlen. pose proof (nbits_pos t) as Hw. unfold test_cpu_bitset. cbv zeta.
  apply for_range_tabulate; [exact Hlen|].
  intros i q s Hi Hs. rewrite !nbits_unfold.
  assert (Hin : 0 ≤ q < nbits t * vsize v).
  { rewrite Forall_forall in Hq. apply Hq. eapply list_elem_of_lookup_2. exact Hi. }
  rewrite (vec_get_nth _ _ _ Hi). cbn [mbind outcome_bind].
  rewrite vec_get_ok by (apply div_in_words; lia). cbn [mbind outcome_bind].
  rewrite nonzero_land_shiftl by (apply Z.mod_pos_bound; lia).
  rewrite vec_set_ok by (unfold vsize; lia). rewrite Nat2Z.id. reflexivity.
Qed.

(** Two word arrays of the same type and size with the same logical bits are
    equal. *)
Lemma words_eq_of_bits t a b :
  words_of t a → words_of t b → vsize a = vsize b →
  (∀ p, 0 ≤ p < nbits t * vsize a → bit_at t a p = bit_at t b p) →
  a = b.
Proof.
  intros Ha Hb Hsz Hbits. pose proof (nbits_pos t) as Hw. unfold vsize in *.
  apply list_eq. intros i.
  destruct (decide (i < length a)%nat) as [Hi|Hi].
  2:{ rewrite !lookup_ge_None_2 by lia. reflexivity. }
  destruct (lookup_lt_is_Some_2 a i) as [x Hx]; [lia|].
  destruct (lookup_lt_is_Some_2 b i) as [y Hy]; [lia|].
  rewrite Hx, Hy. f_equal.
  assert (Rx : 0 ≤ x < 2 ^ nbits t).
  { unfold words_of in Ha. rewrite Forall_forall in Ha. apply Ha.
    eapply list_elem_of_lookup_2. exact Hx. }
  assert (Ry : 0 ≤ y < 2 ^ nbits t).
  { unfold words_of in Hb. rewrite Forall_forall in Hb. apply Hb.
    eapply list_elem_of_lookup_2. exact Hy. }
  apply Z.bits_inj'. intros k Hk.
  destruct (Z.lt_ge_cases k (nbits t)) as [Hlt|Hge].
  - specialize (Hbits (Z.of_nat i * nbits t + k)).
    unfold bit_at, word_at in Hbits.
    rewrite Z.div_add_l, Z.div_small, Z.add_0_r in Hbits by lia.
    rewrite Z.add_comm, Z.mod_add, Z.mod_small in Hbits by lia.
    rewrite Nat2Z.id, Hx, Hy in Hbits. simpl in Hbits. apply Hbits. nia.
  - rewrite (testbit_word_high t x), (testbit_word_high t y) by assumption. reflexivity.
Qed.

Lemma count_bits_false n : count_bits (λ _, false) n = 0.
Proof. induction n as [|n IH]; simpl; lia. Qed.

(** The positions below [n] that occur in a list of such positions are as
    many as the list has distinct elements. *)
Lemma count_bits_elem_of (mask : list Z) n :
  Forall (λ idx, 0 ≤ idx < Z.of_nat n) mask →
  count_bits (λ p, bool_decide (p ∈ mask)) n = Z.of_nat (length (remove_dups mask)).
Proof.
  induction mask as [|x m IH]; intros Hm.
  - transitivity (count_bits (λ _, false) n); [|rewrite count_bits_false; reflexivity].
    apply count_bits_ext.
    intros k _. apply bool_decide_eq_false_2. apply not_elem_of_nil.
  - inversion Hm as [|? ? Hx Hrest]; subst. simpl.
    destruct (decide_rel elem_of x m) as [Hin|Hnin].
    + rewrite <- IH by exact Hrest. apply count_bits_ext.
      intros k _. apply bool_decide_ext. rewrite elem_of_cons.
      split; [intros [->|H]; assumption|auto].
    + simpl length. rewrite Nat2Z.inj_succ, <- IH by exact Hrest.
      rewrite <- Z.add_1_r. apply (count_bits_update _ _ x).
      * exact Hx.
      * apply bool_decide_eq_false_2. exact Hnin.
      * apply bool_decide_eq_true_2. apply elem_of_cons. left. reflexivity.
      * intros k Hk. apply bool_decide_ext. rewrite elem_of_cons.
        split; [intros [H|H]; [contradiction|exact H]|auto].
Qed.

(** ** Absence of reported errors *)

Lemma bind_no_raise {A B} (m : outcome A) (f : A → outcome B) e :
  m ≠ Raise e → (∀ a, f a ≠ Raise e) → m ≫= f ≠ Raise e.
Proof.
  intros Hm Hf. destruct m as [a|e'| ]; cbn [mbind outcome_bind]; [apply Hf| |discriminate].
  intros H. apply Hm. injection H as ->. reflexivity.
Qed.

Lemma vec_get_no_raise v i e : vec_get v i ≠ Raise e.
Proof. unfold vec_get. destruct (decide (0 ≤ i)); [destruct (v !! Z.to_nat i)|]; discriminate. Qed.

Lemma vec_set_no_raise v i x e : vec_set v i x ≠ Raise e.
Proof. unfold vec_set. destruct (decide (0 ≤ i < vsize v)); discriminate. Qed.

Lemma for_loop_no_raise {S : Type} (body : Z → S → outcome S) e :
  (∀ i s, body i s ≠ Raise e) → ∀ n i s, for_loop n i body s ≠ Raise e.
Proof.
  intros Hbody n. induction n as [|n IH]; intros i s; simpl; [discriminate|].
  apply bind_no_raise; [apply Hbody|]. intros a. apply IH.
Qed.

Lemma create_cpu_bitset_no_raise t v mask e : create_cpu_bitset t v mask ≠ Raise e.
Proof.
  unfold create_cpu_bitset, add_cpu_bitset, for_range.
  apply bind_no_raise.
  - apply for_loop_no_raise. intros i s. apply vec_set_no_raise.
  - intros v0. apply for_loop_no_raise. intros i s.
    apply bind_no_raise; [apply vec_get_no_raise|]. intros idx.
    apply bind_no_raise; [apply vec_get_no_raise|]. intros x. apply vec_set_no_raise.
Qed.

(** A loop that returns has returned from every iteration. *)
Lemma for_loop_ok_inv {S : Type} (P : Z → S → Prop) (Q : Z → Prop)
    (body : Z → S → outcome S) n i0 s s' :
  for_loop n i0 body s = Ok s' → P i0 s →
  (∀ i s s1, i0 ≤ i < i0 + Z.of_nat n → P i s → body i s = Ok s1 → P (i + 1) s1 ∧ Q i) →
  ∀ i, i0 ≤ i < i0 + Z.of_nat n → Q i.
Proof.
  revert i0 s. induction n as [|n IH]; intros i0 s E H0 Hstep i Hi; [lia|].
  simpl in E. destruct (body i0 s) as [s1| |] eqn:E1; cbn [mbind outcome_bind] in E; try discriminate.
  destruct (Hstep i0 s s1) as [P1 Q0]; [lia|exact H0|exact E1|].
  destruct (decide (i = i0)) as [->|Hne]; [exact Q0|].
  apply (IH (i0 + 1) s1 E P1); [|lia].
  intros j sj sj1 Hj. apply Hstep. lia.
Qed.

(** [add_cpu_bitset] returns only if every index addresses an allocated word. *)
Lemma add_cpu_bitset_ok_inv t v mask v1 :
  add_cpu_bitset t v mask = Ok v1 → Forall (λ idx, 0 ≤ idx < nbits t * vsize v) mask.
Proof.
  intros E. pose proof (nbits_pos t) as Hw. unfold add_cpu_bitset, for_range in E. cbv zeta in E.
  apply Forall_lookup. intros i idx Hidx.
  pose proof (lookup_lt_Some _ _ _ Hidx) as Hlt.
  refine (for_loop_ok_inv (λ _ s, vsize s = vsize v)
            (λ i, ∀ idx, mask !! Z.to_nat i = Some idx → 0 ≤ idx < nbits t * vsize v)
            _ _ 0 v v1 E eq_refl _ (Z.of_nat i) _ idx _).
  - intros j s s1 Hj Hs Ebody. rewrite !nbits_unfold in Ebody.
    destruct (lookup_lt_is_Some_2 mask (Z.to_nat j)) as [y Hy]; [unfold vsize in Hj; lia|].
    rewrite (vec_get_lookup _ _ _ (proj1 Hj) Hy) in Ebody. cbn [mbind outcome_bind] in Ebody.
    destruct (vec_get s (y / nbits t)) as [x| |]; cbn [mbind outcome_bind] in Ebody; try discriminate.
    unfold vec_set in Ebody.
    destruct (decide (0 ≤ y / nbits t < vsize s)) as [Hin|]; [|discriminate].
    injection Ebody as <-. split; [rewrite vsize_insert; exact Hs|].
    intros idx' Hidx'. rewrite Hy in Hidx'. injection Hidx' as <-.
    pose proof (Z.div_mod y (nbits t)). pose proof (Z.mod_pos_bound y (nbits t) Hw). nia.
  - unfold vsize. lia.
  - rewrite Nat2Z.id. exact Hidx.
Qed.

(** ** Construction *)

Lemma capacity_bitset_ref t N : 0 ≤ N → N ≤ nbits t * vsize (bitset_ref t N).
Proof.
  intros HN. rewrite vsize_bitset_ref by exact HN.
  apply ceildiv_covers. apply nbits_pos.
Qed.

Lemma Forall_in_capacity (N C : Z) (l : list Z) :
  N ≤ C → Forall (λ k, 0 ≤ k < N) l → Forall (λ k, 0 ≤ k < C) l.
Proof. intros H. rewrite !Forall_forall. intros HF k Hk. specialize (HF k Hk). lia. Qed.

(** C3. Post-construction membership: for a length [N >= 1] and a mask whose
    indices all lie in [0, N), the bitset built by [create_cpu_bitset] (all
    bits set, then every mask index cleared) exists, and [test_cpu_bitset]
    answers 1 for a query [i] in [0, N) exactly when [i] does not occur in
    the mask, and 0 when it does. *)
Theorem create_cpu_bitset_membership t N mask queries result :
  1 ≤ N →
  Forall (λ idx, 0 ≤ idx < N) mask →
  Forall (λ i, 0 ≤ i < N) queries →
  length result = length queries →
  ∃ bitset,
    create_cpu_bitset t (bitset_ref t N) mask = Ok bitset
    ∧ test_cpu_bitset t bitset queries result
      = Ok (map (λ i, if decide (i ∈ mask) then 0 else 1) queries).
Proof.
  intros HN Hmask Hq Hlen.
  pose proof (capacity_bitset_ref t N ltac:(lia)) as Hcap.
  destruct (create_cpu_bitset_spec t (bitset_ref t N) mask) as (v1 & E & Hsz & _ & Hbits).
  { apply (Forall_in_capacity N); assumption. }
  exists v1. split; [exact E|].
  rewrite test_cpu_bitset_spec; [|rewrite Hsz; apply (Forall_in_capacity N); assumption|exact Hlen].
  f_equal. apply map_ext_in. intros i Hi.
  rewrite Forall_forall in Hq. apply list_elem_of_In in Hi. specialize (Hq i Hi).
  rewrite Hbits by lia. unfold bool_decide. destruct (decide_rel elem_of i mask); reflexivity.
Qed.

Lemma create_cpu_bitset_membership_witness :
  ∃ bitset,
    create_cpu_bitset uint32_t (bitset_ref uint32_t 32) [0; 3; 7; 31] = Ok bitset
    ∧ test_cpu_bitset uint32_t bitset [0; 3; 7; 31; 1; 2; 4] (make_vector 7)
      = Ok (map (λ i, if decide (i ∈ [0; 3; 7; 31]) then 0 else 1) [0; 3; 7; 31; 1; 2; 4]).
Proof.
  apply (create_cpu_bitset_membership uint32_t 32 [0; 3; 7; 31] [0; 3; 7; 31; 1; 2; 4]).
  - lia.
  - repeat constructor; lia.
  - repeat constructor; lia.
  - reflexivity.
Defined.

(** C4. Post-construction population count: for a length [N >= 1] and a mask
    whose indices all lie in [0, N), the number of set bits among the logical
    bits [0, N) of the constructed bitset is [N] minus the number of distinct
    mask indices; duplicates have no further effect: the mask without its
    duplicates builds the same word array. *)
Theorem create_cpu_bitset_count t N mask :
  1 ≤ N ≤ SIZE_MAX →
  Forall (λ idx, 0 ≤ idx < N) mask →
  ∃ bitset,
    create_cpu_bitset t (bitset_ref t N) mask = Ok bitset
    ∧ one_count t bitset N = Ok (N - Z.of_nat (length (remove_dups mask)))
    ∧ create_cpu_bitset t (bitset_ref t N) (remove_dups mask) = Ok bitset.
Proof.
  intros HN Hmask.
  pose proof (capacity_bitset_ref t N ltac:(lia)) as Hcap.
  destruct (create_cpu_bitset_spec t (bitset_ref t N) mask) as (v1 & E & Hsz & Hwf & Hbits).
  { apply (Forall_in_capacity N); assumption. }
  exists v1. split; [exact E|]. split.
  - rewrite one_count_spec by lia. f_equal.
    rewrite (count_bits_ext _ (λ p, negb (bool_decide (p ∈ mask)))).
    2:{ intros k Hk. apply Hbits. lia. }
    rewrite count_bits_negb, count_bits_elem_of.
    + lia.
    + apply (Forall_in_capacity N); [lia|exact Hmask].
  - destruct (create_cpu_bitset_spec t (bitset_ref t N) (remove_dups mask))
      as (v2 & E2 & Hsz2 & Hwf2 & Hbits2).
    { apply (Forall_in_capacity N); [exact Hcap|].
      rewrite Forall_forall in Hmask |- *. intros k Hk. apply Hmask.
      apply elem_of_remove_dups. exact Hk. }
    rewrite E2. f_equal.
    apply (words_eq_of_bits t); [exact Hwf2|exact Hwf|lia|].
    intros p Hp. rewrite Hbits2, Hbits by lia. f_equal.
    apply bool_decide_ext. apply elem_of_remove_dups.
Qed.

Lemma create_cpu_bitset_count_witness :
  ∃ bitset,
    create_cpu_bitset uint8_t (bitset_ref uint8_t 13) [0; 3; 12; 3; 0] = Ok bitset
    ∧ one_count uint8_t bitset 13 = Ok (13 - Z.of_nat (length (remove_dups [0; 3; 12; 3; 0])))
    ∧ create_cpu_bitset uint8_t (bitset_ref uint8_t 13) (remove_dups [0; 3; 12; 3; 0]) = Ok bitset.
Proof.
  apply (create_cpu_bitset_count uint8_t 13 [0; 3; 12; 3; 0]).
  - unfold SIZE_MAX. lia.
  - repeat constructor; lia.
Defined.

(** C5. Flip is an involution: on an array of words of the type,
    [flip_cpu_bitset] applied twice gives back the array, word for word (and
    with it every logical bit). *)
Theorem flip_cpu_bitset_involution t bitset :
  words_of t bitset →
  ∃ flipped,
    flip_cpu_bitset t bitset = Ok flipped
    ∧ flip_cpu_bitset t flipped = Ok bitset.
Proof.
  intros Hwf. exists (map (λ x, cast t (Z.lnot x)) bitset).
  split; [apply flip_cpu_bitset_map|].
  rewrite flip_cpu_bitset_map. f_equal.
  rewrite map_map. rewrite <- (map_id bitset) at 2.
  apply map_ext_in. intros x Hx.
  apply cast_lnot_twice.
  unfold words_of in Hwf. rewrite Forall_forall in Hwf. apply Hwf.
  apply list_elem_of_In. exact Hx.
Qed.

Lemma flip_cpu_bitset_involution_witness :
  ∃ flipped,
    flip_cpu_bitset uint16_t [0x00ff; 0x8001; 0] = Ok flipped
    ∧ flip_cpu_bitset uint16_t flipped = Ok [0x00ff; 0x8001; 0].
Proof.
  apply (flip_cpu_bitset_involution uint16_t [0x00ff; 0x8001; 0]).
  repeat constructor; vm_compute; congruence.
Defined.

(** C6. Flip complements the count over the logical range: for a bitset of
    logical length [N] stored in [ceil(N / word_bits)] words, the number of
    set bits in [0, N) after one flip is [N] minus that number before it,
    although the flip complements every bit of every word, the padding bits
    of the last word included. *)
Theorem flip_cpu_bitset_count t bitset N :
  0 ≤ N ≤ SIZE_MAX →
  vsize bitset = ceildiv N (nbits t) →
  ∃ flipped c,
    flip_cpu_bitset t bitset = Ok flipped
    ∧ one_count t bitset N = Ok c
    ∧ one_count t flipped N = Ok (N - c)
    ∧ ∀ p, 0 ≤ p < nbits t * vsize bitset → bit_at t flipped p = negb (bit_at t bitset p).
Proof.
  intros HN Hsz.
  assert (Hcap : N ≤ nbits t * vsize bitset).
  { rewrite Hsz. apply ceildiv_covers. apply nbits_pos. }
  exists (map (λ x, cast t (Z.lnot x)) bitset), (count_bits (bit_at t bitset) (Z.to_nat N)).
  split; [apply flip_cpu_bitset_map|].
  split; [apply one_count_spec; lia|].
  split; [|intros p Hp; apply bit_at_flip; exact Hp].
  rewrite one_count_spec; [|unfold vsize in *; rewrite length_map; lia|lia].
  f_equal.
  rewrite (count_bits_ext _ (λ p, negb (bit_at t bitset p))).
  - rewrite count_bits_negb. lia.
  - intros k Hk. apply bit_at_flip. lia.
Qed.

Lemma flip_cpu_bitset_count_witness :
  ∃ flipped c,
    flip_cpu_bitset uint8_t [0x15; 0x03] = Ok flipped
    ∧ one_count uint8_t [0x15; 0x03] 10 = Ok c
    ∧ one_count uint8_t flipped 10 = Ok (10 - c)
    ∧ ∀ p, 0 ≤ p < nbits uint8_t * vsize [0x15; 0x03] →
        bit_at uint8_t flipped p = negb (bit_at uint8_t [0x15; 0x03] p).
Proof.
  apply (flip_cpu_bitset_count uint8_t [0x15; 0x03] 10).
  - unfold SIZE_MAX. lia.
  - reflexivity.
Defined.

(** ** repeat *)

Lemma testbit_b2z_shiftl (b : bool) o j :
  0 ≤ o → 0 ≤ j → Z.testbit (Z.shiftl (Z.b2z b) o) j = b && (j =? o).
Proof.
  intros Ho Hj. rewrite Z.shiftl_spec by lia.
  destruct b; simpl.
  - change 1 with (2 ^ 0). destruct (Z.eqb_spec j o) as [->|Hne].
    + rewrite Z.sub_diag. apply Z.pow2_bits_true. lia.
    + destruct (Z.lt_ge_cases j o).
      * apply Z.testbit_neg_r. lia.
      * apply Z.pow2_bits_false. lia.
  - apply Z.bits_0.
Qed.

Lemma word_at_memset (output : list Z) units j :
  0 ≤ units ≤ vsize output → 0 ≤ j →
  word_at (replicate (Z.to_nat units) 0 ++ drop (Z.to_nat units) output) j
  = if decide (j < units) then 0 else word_at output j.
Proof.
  intros Hu Hj. unfold word_at, vsize in *.
  destruct (decide (j < units)) as [Hlt|Hge].
  - rewrite lookup_app_l by (rewrite length_replicate; lia).
    rewrite lookup_replicate_2 by lia. reflexivity.
  - rewrite lookup_app_r by (rewrite length_replicate; lia).
    rewrite length_replicate, lookup_drop. do 3 f_equal. lia.
Qed.

Lemma repeat_cpu_bitset_spec t input input_bits repeat output :
  0 ≤ input_bits → 0 ≤ repeat →
  input_bits * repeat + nbits t - 1 ≤ SIZE_MAX →
  input_bits ≤ nbits t * vsize input →
  ceildiv (input_bits * repeat) (nbits t) ≤ vsize output →
  ∃ out,
    repeat_cpu_bitset t input input_bits repeat output = Ok out
    ∧ repeat_inv t input input_bits (ceildiv (input_bits * repeat) (nbits t)) output
        (input_bits * repeat) (out, input_bits * repeat).
Proof.
  intros Hb Hr Hmax Hin Hout. pose proof (nbits_pos t) as Hw.
  unfold repeat_cpu_bitset. cbv zeta. change (sizeof t * 8) with (nbits t).
  set (total := input_bits * repeat) in *.
  set (units := ceildiv total (nbits t)) in *.
  assert (Htot : 0 ≤ total) by (subst total; nia).
  assert (Hunits : 0 ≤ units) by (apply ceildiv_nonneg; lia).
  assert (Hcap : total ≤ nbits t * units) by (apply ceildiv_covers; lia).
  rewrite (cast_size_t_small total) by lia.
  rewrite (cast_size_t_small (total + nbits t - 1)) by lia.
  rewrite <- ceildiv_formula by lia. fold units.
  unfold memset_zero. rewrite decide_True by lia.
  cbn [mbind outcome_bind].
  set (out0 := replicate (Z.to_nat units) 0 ++ drop (Z.to_nat units) output).
  match goal with |- ∃ _, (for_range _ ?b _ ≫= _) = _ ∧ _ => set (outer := b) end.
  destruct (for_range_inv
    (λ r st, repeat_inv t input input_bits units output (r * input_bits) st)
    outer repeat (out0, 0)) as (st & E & Hinv).
  - exact Hr.
  - split; [reflexivity|]. simpl. split.
    { subst out0. unfold vsize in *. rewrite length_app, length_replicate, length_drop. lia. }
    split.
    + intros p Hp. unfold bit_at. subst out0.
      rewrite word_at_memset by (try apply Z.div_pos; lia).
      rewrite decide_True by (apply Z.div_lt_upper_bound; lia).
      rewrite Z.bits_0. symmetry. apply andb_false_iff. left. apply Z.ltb_ge. lia.
    + intros j Hj. subst out0. rewrite word_at_memset by lia.
      rewrite decide_False by lia. reflexivity.
  - intros r st0 Hr' Hinv0. subst outer. cbv beta.
    match goal with |- ∃ _, for_range _ ?b _ = _ ∧ _ => set (inner := b) end.
    destruct (for_range_inv
      (λ i st, repeat_inv t input input_bits units output (r * input_bits + i) st)
      inner input_bits st0) as (st1 & E1 & Hinv1).
    + exact Hb.
    + replace (r * input_bits + 0) with (r * input_bits) by lia. exact Hinv0.
    + intros i [out idx] Hi (Hidx & Hsz & Hbits & Hrest). simpl in Hidx, Hsz, Hbits, Hrest.
      subst idx inner. cbv beta iota.
      set (k := r * input_bits + i) in *.
      assert (Hk : 0 ≤ k < total) by (subst k total; nia).
      pose proof (div_in_words (nbits t) i (vsize input) Hw ltac:(lia)) as Hiu.
      pose proof (div_in_words (nbits t) k units Hw ltac:(lia)) as Hku.
      pose proof (Z.mod_pos_bound i (nbits t) Hw) as Hio.
      pose proof (Z.mod_pos_bound k (nbits t) Hw) as Hko.
      rewrite vec_get_ok by lia. cbn [mbind outcome_bind].
      rewrite vec_get_ok by lia. cbn [mbind outcome_bind].
      rewrite nonzero_shiftr_land by lia.
      change (Z.testbit (word_at input (i / nbits t)) (i mod nbits t)) with (bit_at t input i).
      rewrite vec_set_ok by lia. cbn [mbind outcome_bind].
      rewrite (cast_size_t_small (k + 1)) by lia.
      eexists. split; [reflexivity|].
      replace (r * input_bits + (i + 1)) with (k + 1) by (subst k; lia).
      split; [reflexivity|]. simpl. split; [rewrite vsize_insert; exact Hsz|]. split.
      * intros p Hp. rewrite bit_at_insert by lia.
        pose proof (Z.mod_pos_bound p (nbits t) Hw) as Hpo.
        pose proof (Z.div_mod p (nbits t)) as Dp. pose proof (Z.div_mod k (nbits t)) as Dk.
        destruct (decide (p / nbits t = k / nbits t)) as [Heq|Hne].
        -- rewrite testbit_cast by lia.
           rewrite Z.lor_spec, testbit_b2z_shiftl by lia.
           rewrite <- Heq.
           change (Z.testbit (word_at out (p / nbits t)) (p mod nbits t)) with (bit_at t out p).
           rewrite Hbits by lia.
           destruct (Z.eqb_spec (p mod nbits t) (k mod nbits t)) as [Hm|Hm].
           ++ assert (p = k) as -> by (rewrite Heq, Hm in Dp; lia).
              replace (k mod input_bits) with i.
              2:{ subst k. rewrite Z.add_comm, Z.mod_add, Z.mod_small by lia. reflexivity. }
              destruct (Z.ltb_spec k k); [lia|].
              destruct (Z.ltb_spec k (k + 1)); [|lia].
              simpl. apply andb_true_r.
           ++ rewrite andb_false_r, orb_false_r. f_equal.
              assert (p ≠ k) by (intros ->; contradiction).
              destruct (Z.ltb_spec p k), (Z.ltb_spec p (k + 1)); auto; lia.
        -- rewrite Hbits by lia. f_equal.
           assert (p ≠ k) by (intros ->; contradiction).
           destruct (Z.ltb_spec p k), (Z.ltb_spec p (k + 1)); auto; lia.
      * intros j Hj. rewrite word_at_insert by lia.
        rewrite decide_False by lia. apply Hrest. exact Hj.
    + exists st1. split; [exact E1|].
      replace ((r + 1) * input_bits) with (r * input_bits + input_bits) by lia. exact Hinv1.
  - rewrite E. cbn [mbind outcome_bind]. exists st.1. split; [reflexivity|].
    replace (repeat * input_bits) with total in Hinv by (subst total; lia).
    destruct st as [out idx]. destruct Hinv as (Hidx & Hrest). simpl in Hidx. subst idx.
    split; [reflexivity|exact Hrest].
Qed.

Lemma eval_n_elements_unfold t n : eval_n_elements t n = ceildiv n (nbits t).
Proof. reflexivity. Qed.

(** C2. Bit-granularity correctness of repeat: for an input of [input_bits]
    bits and [repeat >= 1] repetitions (the output bit count fitting
    [size_t]), [repeat_cpu_bitset] returns a destination whose logical bit
    [p], for every [p] in [0, input_bits * repeat), is bit
    [p mod input_bits] of the input: the copies are packed bit after bit,
    whether or not [input_bits] is a multiple of the word width. *)
Theorem repeat_cpu_bitset_bits t input input_bits repeat output :
  0 ≤ input_bits → 1 ≤ repeat →
  input_bits * repeat + nbits t - 1 ≤ SIZE_MAX →
  input_bits ≤ nbits t * vsize input →
  eval_n_elements t (input_bits * repeat) ≤ vsize output →
  ∃ out,
    repeat_cpu_bitset t input input_bits repeat output = Ok out
    ∧ ∀ p, 0 ≤ p < input_bits * repeat →
        bit_at t out p = bit_at t input (p mod input_bits).
Proof.
  intros Hb Hr Hmax Hin Hout. rewrite eval_n_elements_unfold in Hout.
  destruct (repeat_cpu_bitset_spec t input input_bits repeat output)
    as (out & E & _ & _ & Hbits & _); try assumption; [lia|].
  exists out. split; [exact E|]. intros p Hp. simpl in Hbits.
  pose proof (ceildiv_covers (input_bits * repeat) (nbits t) (nbits_pos t)).
  rewrite Hbits by lia.
  destruct (Z.ltb_spec p (input_bits * repeat)); [reflexivity|lia].
Qed.

Lemma repeat_cpu_bitset_bits_witness :
  ∃ out,
    repeat_cpu_bitset uint8_t [0x15] 5 3 (bitset_repeat_ref uint8_t 5 3) = Ok out
    ∧ ∀ p, 0 ≤ p < 5 * 3 → bit_at uint8_t out p = bit_at uint8_t [0x15] (p mod 5).
Proof.
  apply (repeat_cpu_bitset_bits uint8_t [0x15] 5 3 (bitset_repeat_ref uint8_t 5 3)).
  - lia.
  - lia.
  - vm_compute. congruence.
  - vm_compute. congruence.
  - vm_compute. congruence.
Defined.

(** C8. Output sizing and in-bounds writes for repeat:
    [eval_n_elements t n] is the ceiling of [n / bits_per_word], the least
    number of words that hold [n] bits, which integer arithmetic computes as
    [(n + bits_per_word - 1) / bits_per_word]; every word index
    [k / bits_per_word] of an output bit [k < input_bits * repeat] is below
    [eval_n_elements t (input_bits * repeat)]; [repeat_cpu_bitset] on a
    destination of exactly that many words returns, all its accesses inside
    the vectors, and the destination keeps its size; in a longer destination
    the words from that index on are left as they were. *)
Theorem repeat_cpu_bitset_in_bounds t input input_bits repeat output :
  0 ≤ input_bits → 1 ≤ repeat →
  input_bits * repeat + nbits t - 1 ≤ SIZE_MAX →
  input_bits ≤ nbits t * vsize input →
  eval_n_elements t (input_bits * repeat) ≤ vsize output →
  (∀ n, eval_n_elements t n = (n + nbits t - 1) / nbits t
        ∧ ∀ k, eval_n_elements t n ≤ k ↔ n ≤ nbits t * k)
  ∧ (∀ k, 0 ≤ k < input_bits * repeat →
       0 ≤ k / nbits t < eval_n_elements t (input_bits * repeat))
  ∧ (∃ out,
       repeat_cpu_bitset t input input_bits repeat
         (take (Z.to_nat (eval_n_elements t (input_bits * repeat))) output) = Ok out
       ∧ vsize out = eval_n_elements t (input_bits * repeat))
  ∧ (∃ out,
       repeat_cpu_bitset t input input_bits repeat output = Ok out
       ∧ vsize out = vsize output
       ∧ ∀ j, eval_n_elements t (input_bits * repeat) ≤ j < vsize output →
           word_at out j = word_at output j).
Proof.
  intros Hb Hr Hmax Hin Hout. pose proof (nbits_pos t) as Hw.
  rewrite !eval_n_elements_unfold in *.
  set (total := input_bits * repeat) in *.
  assert (Htot : 0 ≤ total) by (subst total; nia).
  pose proof (ceildiv_nonneg total (nbits t) Hw Htot) as Hunits.
  pose proof (ceildiv_covers total (nbits t) Hw) as Hcap.
  split.
  { intros n. rewrite eval_n_elements_unfold. split; [apply ceildiv_formula; lia|].
    intros k. apply ceildiv_least. lia. }
  split.
  { intros k Hk. apply div_in_words; lia. }
  split.
  - assert (Hsz : vsize (take (Z.to_nat (ceildiv total (nbits t))) output)
                  = ceildiv total (nbits t)).
    { unfold vsize in *. rewrite length_take. lia. }
    destruct (repeat_cpu_bitset_spec t input input_bits repeat
                (take (Z.to_nat (ceildiv total (nbits t))) output))
      as (out & E & _ & Hsz' & _); try assumption; try lia.
    { fold total. lia. }
    exists out. split; [exact E|]. simpl in Hsz'. lia.
  - destruct (repeat_cpu_bitset_spec t input input_bits repeat output)
      as (out & E & _ & Hsz & _ & Hrest); try assumption; [lia|].
    exists out. split; [exact E|]. split; [exact Hsz|]. exact Hrest.
Qed.

Lemma repeat_cpu_bitset_in_bounds_witness :
  (∀ n, eval_n_elements uint8_t n = (n + nbits uint8_t - 1) / nbits uint8_t
        ∧ ∀ k, eval_n_elements uint8_t n ≤ k ↔ n ≤ nbits uint8_t * k)
  ∧ (∀ k, 0 ≤ k < 5 * 3 → 0 ≤ k / nbits uint8_t < eval_n_elements uint8_t (5 * 3))
  ∧ (∃ out,
       repeat_cpu_bitset uint8_t [0x15] 5 3
         (take (Z.to_nat (eval_n_elements uint8_t (5 * 3))) [1; 2; 3]) = Ok out
       ∧ vsize out = eval_n_elements uint8_t (5 * 3))
  ∧ (∃ out,
       repeat_cpu_bitset uint8_t [0x15] 5 3 [1; 2; 3] = Ok out
       ∧ vsize out = vsize [1; 2; 3]
       ∧ ∀ j, eval_n_elements uint8_t (5 * 3) ≤ j < vsize [1; 2; 3] →
           word_at out j = word_at [1; 2; 3] j).
Proof.
  apply (repeat_cpu_bitset_in_bounds uint8_t [0x15] 5 3 [1; 2; 3]).
  - lia.
  - lia.
  - vm_compute. congruence.
  - vm_compute. congruence.
  - vm_compute. congruence.
Defined.

(** ** Density *)

(** A pattern of period [b] has, over [T] periods, [T] times the set bits of
    one period. *)
Lemma count_bits_periodic f (b T : nat) :
  (0 < b)%nat →
  count_bits (λ p, f (p mod Z.of_nat b)) (T * b)
  = Z.of_nat T * count_bits f b.
Proof.
  intros Hb. induction T as [|T IH].
  - reflexivity.
  - replace (Datatypes.S T * b)%nat with (T * b + b)%nat by lia.
    rewrite count_bits_app, IH.
    rewrite (count_bits_ext (λ k, f ((Z.of_nat (T * b) + k) mod Z.of_nat b)) f b).
    + lia.
    + intros k Hk. f_equal.
      rewrite Nat2Z.inj_mul, Z.add_comm, Z.mod_add, Z.mod_small by lia. reflexivity.
Qed.

Lemma inject_Z_nonzero b : b ≠ 0 → ¬ (inject_Z b == 0)%Q.
Proof. intros Hb H. unfold Qeq in H. simpl in H. lia. Qed.

Lemma Qdiv_scale a b T :
  b ≠ 0 → T ≠ 0 → (inject_Z (T * a) / inject_Z (b * T) == inject_Z a / inject_Z b)%Q.
Proof.
  intros Hb HT. rewrite !inject_Z_mult. field.
  split; apply inject_Z_nonzero; assumption.
Qed.

Lemma sparsity_cpu_bitset_spec t data total_bits :
  1 ≤ total_bits ≤ SIZE_MAX → total_bits ≤ nbits t * vsize data →
  sparsity_cpu_bitset t data total_bits
  = Ok (Exact (Q2Qc (inject_Z (total_bits - count_bits (bit_at t data) (Z.to_nat total_bits))
                     / inject_Z total_bits))).
Proof.
  intros Hn Hcap. unfold sparsity_cpu_bitset.
  rewrite one_count_spec by lia. cbn [mbind outcome_bind].
  pose proof (count_bits_bounds (bit_at t data) (Z.to_nat total_bits)) as Hc.
  rewrite cast_size_t_small by lia.
  unfold fdiv. destruct (Z.eqb_spec total_bits 0); [lia|reflexivity].
Qed.

(** C7. Repeat preserves density: for an input of [input_bits >= 1] bits and
    [repeat >= 1] repetitions, the number of set bits of the output over
    [0, input_bits * repeat) is [repeat] times that of the input over
    [0, input_bits), and the sparsity of the output, the exact rational
    [(bits - count) / bits], is that of the input; [input_bits] need not be
    a multiple of the word width. *)
Theorem repeat_cpu_bitset_density t input input_bits repeat output :
  1 ≤ input_bits → 1 ≤ repeat →
  input_bits * repeat + nbits t - 1 ≤ SIZE_MAX →
  input_bits ≤ nbits t * vsize input →
  eval_n_elements t (input_bits * repeat) ≤ vsize output →
  ∃ out c,
    repeat_cpu_bitset t input input_bits repeat output = Ok out
    ∧ one_count t input input_bits = Ok c
    ∧ one_count t out (input_bits * repeat) = Ok (repeat * c)
    ∧ sparsity_cpu_bitset t input input_bits
      = Ok (Exact (Q2Qc (inject_Z (input_bits - c) / inject_Z input_bits)))
    ∧ sparsity_cpu_bitset t out (input_bits * repeat)
      = sparsity_cpu_bitset t input input_bits.
Proof.
  intros Hb Hr Hmax Hin Hout. pose proof (nbits_pos t) as Hw.
  rewrite eval_n_elements_unfold in Hout.
  destruct (repeat_cpu_bitset_spec t input input_bits repeat output)
    as (out & E & _ & Hsz & Hbits & _); try assumption; try lia.
  simpl in Hsz, Hbits.
  pose proof (ceildiv_covers (input_bits * repeat) (nbits t) Hw) as Hcap.
  assert (Hle : input_bits ≤ input_bits * repeat) by nia.
  assert (Hfit : input_bits * repeat ≤ nbits t * vsize out) by (rewrite Hsz; nia).
  assert (Hcount : count_bits (bit_at t out) (Z.to_nat (input_bits * repeat))
                   = repeat * count_bits (bit_at t input) (Z.to_nat input_bits)).
  { rewrite (count_bits_ext _ (λ p, bit_at t input (p mod Z.of_nat (Z.to_nat input_bits)))).
    - replace (Z.to_nat (input_bits * repeat))
        with (Z.to_nat repeat * Z.to_nat input_bits)%nat by (rewrite Z2Nat.inj_mul; lia).
      rewrite count_bits_periodic by lia. rewrite Z2Nat.id by lia. reflexivity.
    - intros k Hk. rewrite Z2Nat.id in * by lia. rewrite Hbits by lia.
      destruct (Z.ltb_spec k (input_bits * repeat)); [reflexivity|lia]. }
  exists out, (count_bits (bit_at t input) (Z.to_nat input_bits)).
  split; [exact E|].
  split; [apply one_count_spec; lia|].
  split; [rewrite one_count_spec by lia; f_equal; exact Hcount|].
  split; [apply sparsity_cpu_bitset_spec; lia|].
  rewrite !sparsity_cpu_bitset_spec by lia.
  do 2 f_equal. apply Q2Qc_eq_iff. rewrite Hcount.
  replace (input_bits * repeat - repeat * count_bits (bit_at t input) (Z.to_nat input_bits))
    with (repeat * (input_bits - count_bits (bit_at t input) (Z.to_nat input_bits))) by lia.
  apply Qdiv_scale; lia.
Qed.

Lemma repeat_cpu_bitset_density_witness :
  ∃ out c,
    repeat_cpu_bitset uint8_t [0x15] 5 3 (bitset_repeat_ref uint8_t 5 3) = Ok out
    ∧ one_count uint8_t [0x15] 5 = Ok c
    ∧ one_count uint8_t out (5 * 3) = Ok (3 * c)
    ∧ sparsity_cpu_bitset uint8_t [0x15] 5
      = Ok (Exact (Q2Qc (inject_Z (5 - c) / inject_Z 5)))
    ∧ sparsity_cpu_bitset uint8_t out (5 * 3) = sparsity_cpu_bitset uint8_t [0x15] 5.
Proof.
  apply (repeat_cpu_bitset_density uint8_t [0x15] 5 3 (bitset_repeat_ref uint8_t 5 3)).
  - lia.
  - lia.
  - vm_compute. congruence.
  - vm_compute. congruence.
  - vm_compute. congruence.
Defined.

(** ** Reinterpretation at another word width *)

Lemma testbit_byte_of_word x j o :
  0 ≤ j → 0 ≤ o < 8 → Z.testbit (byte_of_word x j) o = Z.testbit x (8 * j + o).
Proof.
  intros Hj Ho. unfold byte_of_word. change 256 with (2 ^ 8).
  rewrite Z.mod_pow2_bits_low by lia. rewrite Z.shiftr_spec by lia.
  f_equal. lia.
Qed.

Lemma peek_range mem a : 0 ≤ peek mem a < 2 ^ 8.
Proof. unfold peek. apply Z.mod_pos_bound. reflexivity. Qed.

Lemma testbit_peek_high mem a o : 8 ≤ o → Z.testbit (peek mem a) o = false.
Proof.
  intros Ho. unfold peek. change 256 with (2 ^ 8). apply Z.mod_pow2_bits_high. lia.
Qed.

(** Bit [o] of a little-endian load is bit [o mod 8] of its byte [o / 8]. *)
Lemma testbit_load_bytes n mem a o :
  0 ≤ o < 8 * Z.of_nat n →
  Z.testbit (load_bytes n mem a) o = Z.testbit (peek mem (a + o / 8)) (o mod 8).
Proof.
  revert a o. induction n as [|n IH]; intros a o Ho; [lia|].
  cbn [load_bytes]. rewrite Z.lor_spec, Z.shiftl_spec by lia.
  destruct (Z.lt_ge_cases o 8) as [Hlt|Hge].
  - rewrite (Z.testbit_neg_r _ (o - 8)) by lia. rewrite orb_false_r.
    rewrite Z.div_small, Z.mod_small, Z.add_0_r by lia. reflexivity.
  - rewrite testbit_peek_high by lia. rewrite orb_false_l.
    rewrite IH by lia. f_equal.
    + f_equal. Z.div_mod_to_equations. lia.
    + Z.div_mod_to_equations. lia.
Qed.

Lemma peek_memcpy t v mem a :
  0 ≤ a < sizeof t * vsize v →
  peek (memcpy t v mem) a = byte_of_word (word_at v (a / sizeof t)) (a mod sizeof t).
Proof.
  intros Ha. unfold peek, memcpy. rewrite decide_True by exact Ha.
  unfold byte_of_word. apply Z.mod_mod. lia.
Qed.

(** Through the copied bytes, word [q / nbits t'] of the cast pointer holds
    at offset [q mod nbits t'] the logical bit [q] of the vector, whatever
    lies in memory after the copy. *)
Lemma testbit_reinterpret_cast t t' v mem q :
  0 ≤ q < nbits t * vsize v →
  Z.testbit (reinterpret_cast t' (memcpy t v mem) (q / nbits t')) (q mod nbits t')
  = bit_at t v q.
Proof.
  intros Hq. pose proof (nbits_pos t') as Hw'. pose proof (nbits_pos t) as Hw.
  unfold reinterpret_cast.
  rewrite testbit_load_bytes.
  2:{ pose proof (Z.mod_pos_bound q (nbits t') Hw').
      replace (8 * Z.of_nat (Z.to_nat (sizeof t'))) with (nbits t'); [lia|].
      destruct t'; reflexivity. }
  replace (q / nbits t' * sizeof t' + q mod nbits t' / 8) with (q / 8).
  2:{ destruct t'; norm_nbits; Z.div_mod_to_equations; lia. }
  replace (q mod nbits t' mod 8) with (q mod 8).
  2:{ destruct t'; norm_nbits; Z.div_mod_to_equations; lia. }
  rewrite peek_memcpy.
  2:{ destruct t; norm_nbits; Z.div_mod_to_equations; lia. }
  rewrite testbit_byte_of_word.
  2:{ apply Z.mod_pos_bound. destruct t; reflexivity. }
  2:{ apply Z.mod_pos_bound. lia. }
  unfold bit_at. f_equal.
  - f_equal. destruct t; norm_nbits; Z.div_mod_to_equations; lia.
  - destruct t; norm_nbits; Z.div_mod_to_equations; lia.
Qed.

Lemma index_modulus_ge ix : 256 ≤ 2 ^ nbits ix.
Proof. destruct ix; norm_nbits; lia. Qed.

(** The index arithmetic of [test_cpu_bitset_nbits] addresses word
    [q / nbits t'] and offset [q mod nbits t'] of the cast pointer. *)
Lemma remap_index ix t t' q :
  0 ≤ q < 2 ^ nbits ix →
  (if nbits t' <? nbits t then
     (cast ix (cast ix (q / nbits t * nbits t) / nbits t' + q mod nbits t / nbits t'),
      q mod nbits t mod nbits t')
   else
     (cast ix (q / nbits t * nbits t) / nbits t',
      cast ix (cast ix (0 + cast ix (q / nbits t mod cast ix (nbits t' / nbits t) * nbits t))
               + q mod nbits t mod nbits t')))
  = (q / nbits t', q mod nbits t').
Proof.
  intros Hq. pose proof (index_modulus_ge ix) as HM.
  assert (Hc : ∀ x, 0 ≤ x → (x ≤ q ∨ x < 256) → cast ix x = x).
  { intros x H0 Hx. apply cast_small. lia. }
  assert (Hq0 : 0 ≤ q) by lia. clear Hq HM.
  destruct t, t'; norm_nbits; cbn [Z.ltb Z.compare Pos.compare Pos.compare_cont];
    repeat match goal with
      | |- context [Z.pos ?a / Z.pos ?b] =>
          let v := eval vm_compute in (Z.pos a / Z.pos b) in
          change (Z.pos a / Z.pos b) with v
      end;
    repeat match goal with
      | |- context [cast ix ?x] =>
          rewrite (Hc x) by (split || idtac; Z.div_mod_to_equations; lia)
      end;
    f_equal; Z.div_mod_to_equations; lia.
Qed.

Lemma test_cpu_bitset_nbits_spec ix t t' v mem queries result :
  Forall (λ q, 0 ≤ q < nbits t * vsize v) queries →
  Forall (λ q, q < 2 ^ nbits ix) queries →
  length result = length queries →
  test_cpu_bitset_nbits ix t' (reinterpret_cast t' (memcpy t v mem)) queries result (nbits t)
  = Ok (map (λ q, Z.b2z (bit_at t v q)) queries).
Proof.
  intros Hq Hix Hlen. pose proof (nbits_pos t) as Hw. pose proof (nbits_pos t') as Hw'.
  unfold test_cpu_bitset_nbits. cbv zeta. change (sizeof t' * 8) with (nbits t').
  set (ptr := reinterpret_cast t' (memcpy t v mem)).
  match goal with |- (?first ≫= _) = _ =>
    assert (H1 : ∃ r1, first = Ok r1 ∧ length r1 = length queries) end.
  { destruct (nbits t =? nbits t').
    - eexists. split.
      + apply (for_range_tabulate _
          (λ q, Z.b2z (nonzero (Z.land (ptr (q / nbits t')) (Z.shiftl 1 (q mod nbits t'))))));
          [exact Hlen|].
        intros i q s Hi Hs. rewrite (vec_get_nth _ _ _ Hi). cbn [mbind outcome_bind].
        rewrite vec_set_ok by (unfold vsize; lia). rewrite Nat2Z.id. reflexivity.
      + apply length_map.
    - exists result. split; [reflexivity|exact Hlen]. }
  destruct H1 as (r1 & -> & Hlen1). cbn [mbind outcome_bind].
  apply for_range_tabulate; [exact Hlen1|].
  intros i q s Hi Hs.
  assert (Hin : 0 ≤ q < nbits t * vsize v).
  { rewrite Forall_forall in Hq. apply Hq. eapply list_elem_of_lookup_2. exact Hi. }
  assert (Hrep : q < 2 ^ nbits ix).
  { rewrite Forall_forall in Hix. apply Hix. eapply list_elem_of_lookup_2. exact Hi. }
  rewrite (vec_get_nth _ _ _ Hi). cbn [mbind outcome_bind].
  destruct (Z.eqb_spec (nbits t) 0) as [H0|_]; [lia|].
  rewrite (remap_index ix t t' q) by lia. cbv iota beta.
  rewrite nonzero_land_shiftl by (apply Z.mod_pos_bound; lia).
  subst ptr. rewrite testbit_reinterpret_cast by exact Hin.
  rewrite vec_set_ok by (unfold vsize; lia). rewrite Nat2Z.id. reflexivity.
Qed.

(** C1. Width-reinterpretation equivalence of bit testing: for a bitset of
    [N] logical bits stored as words of a native type [t], copied byte for
    byte (little-endian) and read through a pointer to words of a type [t']
    (8, 32 and 64 bits among them), [test_cpu_bitset_nbits] with
    [original_nbits_] the native width answers, for queries in [0, N), what
    [test_cpu_bitset] answers on the native words: the logical bit of each
    query.  What memory holds after the copied bytes does not matter. *)
Theorem test_cpu_bitset_nbits_native index_t t t' bitset rest N queries result result_nbits :
  0 ≤ N ≤ nbits t * vsize bitset →
  N ≤ 2 ^ nbits index_t →
  Forall (λ i, 0 ≤ i < N) queries →
  length result = length queries →
  length result_nbits = length queries →
  ∃ r,
    test_cpu_bitset t bitset queries result = Ok r
    ∧ test_cpu_bitset_nbits index_t t'
        (reinterpret_cast t' (memcpy t bitset rest)) queries result_nbits (nbits t) = Ok r
    ∧ r = map (λ i, Z.b2z (bit_at t bitset i)) queries.
Proof.
  intros HN Hix Hq Hlen Hlen'.
  exists (map (λ i, Z.b2z (bit_at t bitset i)) queries).
  split; [|split; [|reflexivity]].
  - apply test_cpu_bitset_spec; [|exact Hlen].
    apply (Forall_in_capacity N); [lia|exact Hq].
  - apply test_cpu_bitset_nbits_spec; [| |exact Hlen'].
    + apply (Forall_in_capacity N); [lia|exact Hq].
    + rewrite Forall_forall in Hq |- *. intros q Hin. specialize (Hq q Hin). lia.
Qed.

Lemma test_cpu_bitset_nbits_native_witness :
  ∃ r,
    test_cpu_bitset uint16_t [0x0100; 0x8001] [0; 8; 16; 31; 15] (make_vector 5) = Ok r
    ∧ test_cpu_bitset_nbits uint32_t uint64_t
        (reinterpret_cast uint64_t (memcpy uint16_t [0x0100; 0x8001] (λ _, 0xa5)))
        [0; 8; 16; 31; 15] (make_vector 5) (nbits uint16_t) = Ok r
    ∧ r = map (λ i, Z.b2z (bit_at uint16_t [0x0100; 0x8001] i)) [0; 8; 16; 31; 15].
Proof.
  apply (test_cpu_bitset_nbits_native uint32_t uint16_t uint64_t [0x0100; 0x8001]
           (λ _, 0xa5) 32 [0; 8; 16; 31; 15]).
  - vm_compute. split; congruence.
  - vm_compute. congruence.
  - repeat constructor; lia.
  - reflexivity.
  - reflexivity.
Defined.

(** A load depends on the bytes it covers only. *)
Lemma load_bytes_ext n mem1 mem2 a :
  (∀ j, 0 ≤ j < Z.of_nat n → peek mem1 (a + j) = peek mem2 (a + j)) →
  load_bytes n mem1 a = load_bytes n mem2 a.
Proof.
  revert a. induction n as [|n IH]; intros a H; [reflexivity|].
  cbn [load_bytes]. f_equal.
  - specialize (H 0). rewrite Z.add_0_r in H. apply H. lia.
  - f_equal. apply IH. intros j Hj.
    replace (a + 1 + j) with (a + (j + 1)) by lia. apply H. lia.
Qed.

(** A word of the cast pointer that lies inside the copied bytes does not
    depend on the rest of memory; every word a query in range reads is such a
    word when the copy is a whole number of words of the new type. *)
Lemma reinterpret_cast_inside t t' v mem1 mem2 k :
  0 ≤ k → (k + 1) * sizeof t' ≤ sizeof t * vsize v →
  reinterpret_cast t' (memcpy t v mem1) k = reinterpret_cast t' (memcpy t v mem2) k.
Proof.
  intros Hk Hin. unfold reinterpret_cast. apply load_bytes_ext.
  intros j Hj. unfold peek, memcpy.
  assert (0 < sizeof t') by (destruct t'; reflexivity).
  rewrite !decide_True by nia. reflexivity.
Qed.

Lemma query_word_inside t t' v q :
  0 ≤ q < nbits t * vsize v → (sizeof t * vsize v) mod sizeof t' = 0 →
  0 ≤ q / nbits t' ∧ (q / nbits t' + 1) * sizeof t' ≤ sizeof t * vsize v.
Proof.
  intros Hq Hmul. pose proof (vsize_nonneg v).
  destruct t, t'; norm_nbits; Z.div_mod_to_equations; lia.
Qed.

(** * Further properties of the reference functions *)

(** ** Loops that return *)

(** What holds before a loop and is kept by every iteration that returns
    holds after a loop that returns. *)
Lemma for_loop_ok_post {S : Type} (P : Z → S → Prop) (body : Z → S → outcome S) n i0 s s' :
  for_loop n i0 body s = Ok s' → P i0 s →
  (∀ i s s1, i0 ≤ i < i0 + Z.of_nat n → P i s → body i s = Ok s1 → P (i + 1) s1) →
  P (i0 + Z.of_nat n) s'.
Proof.
  revert i0 s. induction n as [|n IH]; intros i0 s E H0 Hstep.
  - simpl in E. injection E as <-. replace (i0 + Z.of_nat 0) with i0 by lia. exact H0.
  - simpl in E. destruct (body i0 s) as [s1| |] eqn:E1; cbn [mbind outcome_bind] in E;
      try discriminate.
    replace (i0 + Z.of_nat (Datatypes.S n)) with (i0 + 1 + Z.of_nat n) by lia.
    apply (IH (i0 + 1) s1 E).
    + apply (Hstep i0 s s1); [lia|exact H0|exact E1].
    + intros j sj sj1 Hj. apply Hstep. lia.
Qed.

Lemma outcome_ok_inj {A} (m : outcome A) a b : m = Ok a → m = Ok b → a = b.
Proof. intros Ha Hb. rewrite Ha in Hb. injection Hb as ->. reflexivity. Qed.

(** ** add_cpu_bitset on its own *)

(** [add_cpu_bitset] returns exactly when every index of the mask addresses
    an allocated word; it reports no error; what it returns has the size of
    its argument, holds words of the type, and has lost the logical bits of
    the mask and no other bit, padding bits included. *)
Theorem add_cpu_bitset_exact t bitset mask :
  words_of t bitset →
  ((∃ out, add_cpu_bitset t bitset mask = Ok out)
   ↔ Forall (λ idx, 0 ≤ idx < nbits t * vsize bitset) mask)
  ∧ (∀ e, add_cpu_bitset t bitset mask ≠ Raise e)
  ∧ (∀ out, add_cpu_bitset t bitset mask = Ok out →
       vsize out = vsize bitset ∧ words_of t out
       ∧ ∀ p, 0 ≤ p < nbits t * vsize bitset →
           bit_at t out p = bit_at t bitset p && negb (bool_decide (p ∈ mask))).
Proof.
  intros Hwf. split; [|split].
  - split.
    + intros [out E]. exact (add_cpu_bitset_ok_inv t bitset mask out E).
    + intros Hmask.
      destruct (add_cpu_bitset_spec t bitset mask Hwf Hmask) as (out & E & _).
      exists out. exact E.
  - intros e. unfold add_cpu_bitset, for_range.
    apply for_loop_no_raise. intros i s.
    apply bind_no_raise; [apply vec_get_no_raise|]. intros idx.
    apply bind_no_raise; [apply vec_get_no_raise|]. intros x. apply vec_set_no_raise.
  - intros out E.
    pose proof (add_cpu_bitset_ok_inv t bitset mask out E) as Hmask.
    destruct (add_cpu_bitset_spec t bitset mask Hwf Hmask) as (out' & E' & Hrest).
    rewrite (outcome_ok_inj _ _ _ E E'). exact Hrest.
Qed.

Lemma add_cpu_bitset_exact_witness :
  ((∃ out, add_cpu_bitset uint8_t [0xff; 0x0f] [3; 9; 3] = Ok out)
   ↔ Forall (λ idx, 0 ≤ idx < nbits uint8_t * vsize [0xff; 0x0f]) [3; 9; 3])
  ∧ (∀ e, add_cpu_bitset uint8_t [0xff; 0x0f] [3; 9; 3] ≠ Raise e)
  ∧ (∀ out, add_cpu_bitset uint8_t [0xff; 0x0f] [3; 9; 3] = Ok out →
       vsize out = vsize [0xff; 0x0f] ∧ words_of uint8_t out
       ∧ ∀ p, 0 ≤ p < nbits uint8_t * vsize [0xff; 0x0f] →
           bit_at uint8_t out p
           = bit_at uint8_t [0xff; 0x0f] p && negb (bool_decide (p ∈ [3; 9; 3]))).
Proof.
  apply (add_cpu_bitset_exact uint8_t [0xff; 0x0f] [3; 9; 3]).
  repeat constructor; vm_compute; congruence.
Defined.

(** The result of [add_cpu_bitset] depends on the set of the mask indices
    only: neither their order nor their repetitions matter. *)
Theorem add_cpu_bitset_set t bitset mask1 mask2 :
  words_of t bitset →
  Forall (λ idx, 0 ≤ idx < nbits t * vsize bitset) mask1 →
  (∀ idx, idx ∈ mask1 ↔ idx ∈ mask2) →
  ∃ out, add_cpu_bitset t bitset mask1 = Ok out ∧ add_cpu_bitset t bitset mask2 = Ok out.
Proof.
  intros Hwf Hm1 Hset.
  assert (Hm2 : Forall (λ idx, 0 ≤ idx < nbits t * vsize bitset) mask2).
  { rewrite Forall_forall in Hm1 |- *. intros k Hk. apply Hm1. apply Hset. exact Hk. }
  destruct (add_cpu_bitset_spec t bitset mask1 Hwf Hm1) as (o1 & E1 & Hs1 & Hw1 & Hb1).
  destruct (add_cpu_bitset_spec t bitset mask2 Hwf Hm2) as (o2 & E2 & Hs2 & Hw2 & Hb2).
  exists o1. split; [exact E1|]. rewrite E2. f_equal.
  apply (words_eq_of_bits t); [exact Hw2|exact Hw1|lia|].
  intros p Hp. rewrite Hb1, Hb2 by lia. do 2 f_equal.
  apply bool_decide_ext. symmetry. apply Hset.
Qed.

Lemma add_cpu_bitset_set_witness :
  ∃ out, add_cpu_bitset uint16_t [0xffff; 0x00ff] [17; 2; 2; 30] = Ok out
         ∧ add_cpu_bitset uint16_t [0xffff; 0x00ff] [30; 17; 2] = Ok out.
Proof.
  apply (add_cpu_bitset_set uint16_t [0xffff; 0x00ff] [17; 2; 2; 30] [30; 17; 2]).
  - repeat constructor; vm_compute; congruence.
  - repeat constructor; vm_compute; congruence.
  - intros idx. rewrite !elem_of_cons, !elem_of_nil. tauto.
Defined.

(** Construction followed by a further [add_cpu_bitset], as the test does
    when it adds more samples, is the construction from both masks at once. *)
Theorem create_then_add_cpu_bitset t bitset mask1 mask2 :
  Forall (λ idx, 0 ≤ idx < nbits t * vsize bitset) (mask1 ++ mask2) →
  ∃ out,
    create_cpu_bitset t bitset (mask1 ++ mask2) = Ok out
    ∧ (create_cpu_bitset t bitset mask1 ≫= λ b, add_cpu_bitset t b mask2) = Ok out.
Proof.
  intros Hm. pose proof Hm as Hm'. apply Forall_app in Hm' as [Hm1 Hm2].
  destruct (create_cpu_bitset_spec t bitset (mask1 ++ mask2) Hm) as (o & E & Hs & Hw & Hb).
  destruct (create_cpu_bitset_spec t bitset mask1 Hm1) as (o1 & E1 & Hs1 & Hw1 & Hb1).
  destruct (add_cpu_bitset_spec t o1 mask2 Hw1) as (o2 & E2 & Hs2 & Hw2 & Hb2).
  { rewrite Hs1. exact Hm2. }
  exists o. split; [exact E|]. rewrite E1. cbn [mbind outcome_bind]. rewrite E2. f_equal.
  apply (words_eq_of_bits t); [exact Hw2|exact Hw|lia|].
  intros p Hp. rewrite Hb2, Hb1, Hb by lia.
  rewrite <- negb_orb. f_equal.
  destruct (bool_decide (p ∈ mask1)) eqn:D1, (bool_decide (p ∈ mask2)) eqn:D2; simpl;
    symmetry.
  all: try (apply bool_decide_eq_true_2; apply elem_of_app).
  - left. eapply bool_decide_eq_true_1. exact D1.
  - left. eapply bool_decide_eq_true_1. exact D1.
  - right. eapply bool_decide_eq_true_1. exact D2.
  - apply bool_decide_eq_false_2. rewrite elem_of_app.
    apply bool_decide_eq_false_1 in D1. apply bool_decide_eq_false_1 in D2. tauto.
Qed.

Lemma create_then_add_cpu_bitset_witness :
  ∃ out,
    create_cpu_bitset uint8_t [0; 0] ([1; 9] ++ [9; 4]) = Ok out
    ∧ (create_cpu_bitset uint8_t [0; 0] [1; 9] ≫= λ b, add_cpu_bitset uint8_t b [9; 4])
      = Ok out.
Proof.
  apply (create_then_add_cpu_bitset uint8_t [0; 0] [1; 9] [9; 4]).
  repeat constructor; vm_compute; congruence.
Defined.

(** [create_cpu_bitset] overwrites every word before it clears bits: its
    outcome, a bitset or an access outside the vector, depends on the size
    of the vector it is given and not on what the vector holds. *)
Theorem create_cpu_bitset_overwrites t bitset1 bitset2 mask :
  length bitset1 = length bitset2 →
  create_cpu_bitset t bitset1 mask = create_cpu_bitset t bitset2 mask.
Proof.
  intros Hlen. unfold create_cpu_bitset.
  destruct (fill_ones_spec t bitset1) as (v1 & E1 & Hs1 & Hw1 & Hb1).
  destruct (fill_ones_spec t bitset2) as (v2 & E2 & Hs2 & Hw2 & Hb2).
  rewrite E1, E2. cbn [mbind outcome_bind].
  assert (Hsz : vsize bitset1 = vsize bitset2) by (unfold vsize; lia).
  replace v2 with v1; [reflexivity|].
  apply (words_eq_of_bits t); [exact Hw1|exact Hw2|lia|].
  intros p Hp. rewrite Hb1, Hb2 by lia. reflexivity.
Qed.

Lemma create_cpu_bitset_overwrites_witness :
  create_cpu_bitset uint8_t [0x12; 0x34] [3; 40] = create_cpu_bitset uint8_t [0; 0xff] [3; 40].
Proof. apply (create_cpu_bitset_overwrites uint8_t [0x12; 0x34] [0; 0xff] [3; 40]). reflexivity. Defined.

(** ** test_cpu_bitset on its own *)

Lemma vec_get_ok_inv v k x : vec_get v k = Ok x → 0 ≤ k < vsize v.
Proof.
  unfold vec_get, vsize. destruct (decide (0 ≤ k)) as [Hk|]; [|discriminate].
  destruct (v !! Z.to_nat k) eqn:E; [|discriminate].
  intros _. apply lookup_lt_Some in E. lia.
Qed.

Lemma vec_set_ok_inv v k x v' : vec_set v k x = Ok v' → 0 ≤ k < vsize v ∧ v' = <[Z.to_nat k := x]> v.
Proof.
  unfold vec_set. destruct (decide (0 ≤ k < vsize v)) as [Hk|]; [|discriminate].
  intros E. injection E as <-. split; [exact Hk|reflexivity].
Qed.

(** A loop that stores [f (queries[i])] into [result[i]] leaves the entries
    of [result] after the last query alone. *)
Lemma for_range_tabulate_prefix (body : Z → list Z → outcome (list Z)) (f : Z → Z)
    queries result :
  (length queries ≤ length result)%nat →
  (∀ (i : nat) q s, queries !! i = Some q → (i < length s)%nat →
     body (Z.of_nat i) s = Ok (<[i := f q]> s)) →
  for_range (vsize queries) body result
  = Ok (map f queries ++ drop (length queries) result).
Proof.
  intros Hlen Hbody.
  destruct (for_range_inv
    (λ i s, s = map f (take (Z.to_nat i) queries) ++ drop (Z.to_nat i) result)
    body (vsize queries) result) as (s' & E & HP).
  - apply vsize_nonneg.
  - reflexivity.
  - intros i s Hi ->. unfold vsize in Hi.
    destruct (lookup_lt_is_Some_2 queries (Z.to_nat i)) as [q Hq]; [lia|].
    destruct (lookup_lt_is_Some_2 result (Z.to_nat i)) as [y Hy]; [lia|].
    assert (Hpre : length (map f (take (Z.to_nat i) queries)) = Z.to_nat i).
    { rewrite length_map, length_take. lia. }
    eexists. split.
    + rewrite <- (Z2Nat.id i) at 1 by lia. apply (Hbody _ q); [exact Hq|].
      rewrite length_app, Hpre, length_drop. lia.
    + replace (Z.to_nat (i + 1)) with (Datatypes.S (Z.to_nat i)) by lia.
      rewrite (take_S_r queries (Z.to_nat i) q Hq), map_app. simpl.
      rewrite <- app_assoc. simpl.
      rewrite <- (Nat.add_0_r (Z.to_nat i)) at 1.
      rewrite <- Hpre at 1.
      rewrite insert_app_r.
      rewrite (drop_S result y (Z.to_nat i) Hy). reflexivity.
  - rewrite E. f_equal. subst s'. unfold vsize. rewrite Nat2Z.id.
    rewrite firstn_all. reflexivity.
Qed.

(** [test_cpu_bitset] returns exactly when every query addresses an
    allocated word and [result] has room for every answer.  It then holds
    the logical bit of each query, in the order of the queries, followed by
    the entries of [result] it had no query for; the answers do not depend
    on what [result] held. *)
Theorem test_cpu_bitset_exact t bitset queries result :
  ((∃ r, test_cpu_bitset t bitset queries result = Ok r)
   ↔ Forall (λ q, 0 ≤ q < nbits t * vsize bitset) queries
     ∧ (length queries ≤ length result)%nat)
  ∧ (∀ r, test_cpu_bitset t bitset queries result = Ok r →
       r = map (λ q, Z.b2z (bit_at t bitset q)) queries ++ drop (length queries) result).
Proof.
  pose proof (nbits_pos t) as Hw.
  assert (Hok : Forall (λ q, 0 ≤ q < nbits t * vsize bitset) queries
                → (length queries ≤ length result)%nat
                → test_cpu_bitset t bitset queries result
                  = Ok (map (λ q, Z.b2z (bit_at t bitset q)) queries
                        ++ drop (length queries) result)).
  { intros Hq Hlen. unfold test_cpu_bitset. cbv zeta.
    apply for_range_tabulate_prefix; [exact Hlen|].
    intros i q s Hi Hs. rewrite !nbits_unfold.
    assert (Hin : 0 ≤ q < nbits t * vsize bitset).
    { rewrite Forall_forall in Hq. apply Hq. eapply list_elem_of_lookup_2. exact Hi. }
    rewrite (vec_get_nth _ _ _ Hi). cbn [mbind outcome_bind].
    rewrite vec_get_ok by (apply div_in_words; lia). cbn [mbind outcome_bind].
    rewrite nonzero_land_shiftl by (apply Z.mod_pos_bound; lia).
    rewrite vec_set_ok by (unfold vsize; lia). rewrite Nat2Z.id. reflexivity. }
  assert (Hinv : ∀ r, test_cpu_bitset t bitset queries result = Ok r
                 → Forall (λ q, 0 ≤ q < nbits t * vsize bitset) queries
                   ∧ (length queries ≤ length result)%nat).
  { intros r E. unfold test_cpu_bitset, for_range in E. cbv zeta in E.
    assert (HQ : ∀ i, 0 ≤ i < 0 + Z.of_nat (Z.to_nat (vsize queries)) →
                 i < vsize result
                 ∧ ∀ q, queries !! Z.to_nat i = Some q → 0 ≤ q < nbits t * vsize bitset).
    { apply (for_loop_ok_inv (λ _ s, vsize s = vsize result) _ _ _ 0 result r E eq_refl).
      intros j s s1 Hj Hs Ebody. rewrite !nbits_unfold in Ebody.
      destruct (lookup_lt_is_Some_2 queries (Z.to_nat j)) as [y Hy]; [unfold vsize in Hj; lia|].
      rewrite (vec_get_lookup _ _ _ (proj1 Hj) Hy) in Ebody. cbn [mbind outcome_bind] in Ebody.
      destruct (vec_get bitset (y / nbits t)) as [x| |] eqn:Ex;
        cbn [mbind outcome_bind] in Ebody; try discriminate.
      apply vec_get_ok_inv in Ex. apply vec_set_ok_inv in Ebody as [Hjs ->].
      split; [rewrite vsize_insert; exact Hs|]. split; [lia|].
      intros q Hq. rewrite Hy in Hq. injection Hq as <-.
      pose proof (Z.div_mod y (nbits t)). pose proof (Z.mod_pos_bound y (nbits t) Hw). nia. }
    split.
    - apply Forall_lookup. intros i q Hq.
      pose proof (lookup_lt_Some _ _ _ Hq) as Hlt.
      apply (HQ (Z.of_nat i)); [unfold vsize; lia|]. rewrite Nat2Z.id. exact Hq.
    - destruct queries as [|q0 qs] eqn:Eq; [simpl; lia|]. rewrite <- Eq in *.
      assert (Hpos : (0 < length queries)%nat) by (rewrite Eq; simpl; lia).
      destruct (HQ (vsize queries - 1)) as [Hlt _]; unfold vsize in *; lia. }
  split.
  - split.
    + intros [r E]. exact (Hinv r E).
    + intros [Hq Hlen]. eexists. apply Hok; assumption.
  - intros r E. destruct (Hinv r E) as [Hq Hlen].
    exact (outcome_ok_inj _ _ _ E (Hok Hq Hlen)).
Qed.

(** ** flip and sparsity composed with the other functions *)

(** Flipping the constructed bitset turns the mask into the set bits: on the
    flipped bitset a query in [0, N) is answered 1 exactly when it occurs in
    the mask. *)
Theorem flip_after_create_cpu_bitset t N mask queries result :
  1 ≤ N →
  Forall (λ idx, 0 ≤ idx < N) mask →
  Forall (λ i, 0 ≤ i < N) queries →
  length result = length queries →
  ∃ bitset flipped,
    create_cpu_bitset t (bitset_ref t N) mask = Ok bitset
    ∧ flip_cpu_bitset t bitset = Ok flipped
    ∧ test_cpu_bitset t flipped queries result
      = Ok (map (λ i, if decide (i ∈ mask) then 1 else 0) queries).
Proof.
  intros HN Hmask Hq Hlen.
  pose proof (capacity_bitset_ref t N ltac:(lia)) as Hcap.
  destruct (create_cpu_bitset_spec t (bitset_ref t N) mask) as (b & E & Hsz & _ & Hbits).
  { apply (Forall_in_capacity N); assumption. }
  exists b, (map (λ x, cast t (Z.lnot x)) b).
  split; [exact E|]. split; [apply flip_cpu_bitset_map|].
  assert (Hsz' : vsize (map (λ x, cast t (Z.lnot x)) b) = vsize b).
  { unfold vsize. rewrite length_map. reflexivity. }
  rewrite test_cpu_bitset_spec;
    [|rewrite Hsz', Hsz; apply (Forall_in_capacity N); assumption|exact Hlen].
  f_equal. apply map_ext_in. intros i Hi.
  rewrite Forall_forall in Hq. apply list_elem_of_In in Hi. specialize (Hq i Hi).
  rewrite bit_at_flip by lia. rewrite Hbits by lia. rewrite negb_involutive.
  unfold bool_decide. destruct (decide_rel elem_of i mask); reflexivity.
Qed.

Lemma flip_after_create_cpu_bitset_witness :
  ∃ bitset flipped,
    create_cpu_bitset uint16_t (bitset_ref uint16_t 20) [5; 17] = Ok bitset
    ∧ flip_cpu_bitset uint16_t bitset = Ok flipped
    ∧ test_cpu_bitset uint16_t flipped [0; 5; 16; 17; 19] (make_vector 5)
      = Ok (map (λ i, if decide (i ∈ [5; 17]) then 1 else 0) [0; 5; 16; 17; 19]).
Proof.
  apply (flip_after_create_cpu_bitset uint16_t 20 [5; 17] [0; 5; 16; 17; 19]).
  - lia.
  - repeat constructor; lia.
  - repeat constructor; lia.
  - reflexivity.
Defined.

Lemma Q2Qc_le a b : (a <= b)%Q → (Q2Qc a <= Q2Qc b)%Qc.
Proof. intros H. unfold Qcle. simpl. rewrite !Qred_correct. exact H. Qed.

Lemma Qdiv_unit_range c N :
  0 ≤ c ≤ N → 0 < N → (0 <= inject_Z c / inject_Z N)%Q ∧ (inject_Z c / inject_Z N <= 1)%Q.
Proof.
  intros Hc HN.
  assert (HNq : (0 < inject_Z N)%Q) by (unfold Qlt; simpl; lia).
  split.
  - apply Qle_shift_div_l; [exact HNq|]. rewrite Qmult_0_l.
    unfold Qle. simpl. lia.
  - apply Qle_shift_div_r; [exact HNq|]. rewrite Qmult_1_l.
    unfold Qle. simpl. lia.
Qed.

(** On at least one bit and at most the bits the vector holds,
    [sparsity_cpu_bitset] returns a fraction between 0 and 1: the zero bits
    of the logical range over its length. *)
Theorem sparsity_cpu_bitset_range t data total_bits :
  1 ≤ total_bits ≤ SIZE_MAX → total_bits ≤ nbits t * vsize data →
  ∃ ones q,
    one_count t data total_bits = Ok ones
    ∧ 0 ≤ ones ≤ total_bits
    ∧ sparsity_cpu_bitset t data total_bits = Ok (Exact q)
    ∧ q = Q2Qc (inject_Z (total_bits - ones) / inject_Z total_bits)
    ∧ (0 <= q)%Qc ∧ (q <= 1)%Qc.
Proof.
  intros HN Hcap.
  pose proof (count_bits_bounds (bit_at t data) (Z.to_nat total_bits)) as Hc.
  exists (count_bits (bit_at t data) (Z.to_nat total_bits)). eexists.
  split; [apply one_count_spec; lia|]. split; [lia|].
  split; [apply sparsity_cpu_bitset_spec; lia|]. split; [reflexivity|].
  destruct (Qdiv_unit_range
              (total_bits - count_bits (bit_at t data) (Z.to_nat total_bits)) total_bits)
    as [H0 H1]; [lia|lia|].
  split.
  - change 0%Qc with (Q2Qc 0). apply Q2Qc_le. exact H0.
  - change 1%Qc with (Q2Qc 1). apply Q2Qc_le. exact H1.
Qed.

Lemma sparsity_cpu_bitset_range_witness :
  ∃ ones q,
    one_count uint8_t [0x15; 0x03] 10 = Ok ones
    ∧ 0 ≤ ones ≤ 10
    ∧ sparsity_cpu_bitset uint8_t [0x15; 0x03] 10 = Ok (Exact q)
    ∧ q = Q2Qc (inject_Z (10 - ones) / inject_Z 10)
    ∧ (0 <= q)%Qc ∧ (q <= 1)%Qc.
Proof.
  apply (sparsity_cpu_bitset_range uint8_t [0x15; 0x03] 10).
  - unfold SIZE_MAX. lia.
  - vm_compute. congruence.
Defined.

Lemma one_count_no_raise t data total_bits e : one_count t data total_bits ≠ Raise e.
Proof.
  unfold one_count, for_range. apply for_loop_no_raise. intros i c.
  apply bind_no_raise; [apply vec_get_no_raise|]. intros x. discriminate.
Qed.

(** The counting loop reads word [i / nbits] for every [i] below
    [total_bits]: it returns only if the vector holds that many bits. *)
Lemma one_count_ok_inv t data total_bits c :
  0 ≤ total_bits → one_count t data total_bits = Ok c → total_bits ≤ nbits t * vsize data.
Proof.
  intros HN E. pose proof (nbits_pos t) as Hw. pose proof (vsize_nonneg data) as HL.
  destruct (Z.le_gt_cases total_bits (nbits t * vsize data)) as [|Hgt]; [assumption|].
  exfalso. unfold one_count, for_range in E.
  assert (HQ : nbits t * vsize data / nbits t < vsize data).
  { refine (for_loop_ok_inv (λ _ _, True) (λ i, i / nbits t < vsize data)
              _ _ 0 0 c E I _ (nbits t * vsize data) _); [|nia].
    intros i s s1 Hi _ Ebody. split; [exact I|].
    rewrite !nbits_unfold in Ebody.
    destruct (vec_get data (i / nbits t)) as [x| |] eqn:Ex;
      cbn [mbind outcome_bind] in Ebody; try discriminate.
    apply vec_get_ok_inv in Ex. lia. }
  rewrite Z.mul_comm, Z.div_mul in HQ by lia. lia.
Qed.

(** The three outcomes of [sparsity_cpu_bitset]: NaN on no bits at all
    (0.0 / 0.0), a fraction when the vector holds the logical range, and an
    access outside the vector when [total_bits] exceeds the bits the vector
    holds. *)
Theorem sparsity_cpu_bitset_outcomes t data total_bits :
  0 ≤ total_bits ≤ SIZE_MAX →
  (total_bits = 0 → sparsity_cpu_bitset t data total_bits = Ok NaN)
  ∧ (1 ≤ total_bits ≤ nbits t * vsize data →
     ∃ q, sparsity_cpu_bitset t data total_bits = Ok (Exact q))
  ∧ (nbits t * vsize data < total_bits →
     sparsity_cpu_bitset t data total_bits = Undefined).
Proof.
  intros HN. split; [|split].
  - intros ->. reflexivity.
  - intros Hcap. eexists. apply sparsity_cpu_bitset_spec; lia.
  - intros Hgt. unfold sparsity_cpu_bitset.
    destruct (one_count t data total_bits) as [c|e|] eqn:E.
    + apply one_count_ok_inv in E; lia.
    + exfalso. exact (one_count_no_raise t data total_bits e E).
    + reflexivity.
Qed.

Lemma sparsity_cpu_bitset_outcomes_witness :
  (9 = 0 → sparsity_cpu_bitset uint8_t [0x15] 9 = Ok NaN)
  ∧ (1 ≤ 9 ≤ nbits uint8_t * vsize [0x15] →
     ∃ q, sparsity_cpu_bitset uint8_t [0x15] 9 = Ok (Exact q))
  ∧ (nbits uint8_t * vsize [0x15] < 9 → sparsity_cpu_bitset uint8_t [0x15] 9 = Undefined).
Proof. apply (sparsity_cpu_bitset_outcomes uint8_t [0x15] 9). unfold SIZE_MAX. lia. Defined.

(** The sparsity of the constructed bitset is the number of distinct mask
    indices over the length. *)
Theorem sparsity_after_create_cpu_bitset t N mask :
  1 ≤ N ≤ SIZE_MAX →
  Forall (λ idx, 0 ≤ idx < N) mask →
  ∃ bitset,
    create_cpu_bitset t (bitset_ref t N) mask = Ok bitset
    ∧ sparsity_cpu_bitset t bitset N
      = Ok (Exact (Q2Qc (inject_Z (Z.of_nat (length (remove_dups mask))) / inject_Z N))).
Proof.
  intros HN Hmask.
  pose proof (capacity_bitset_ref t N ltac:(lia)) as Hcap.
  destruct (create_cpu_bitset_spec t (bitset_ref t N) mask) as (b & E & Hsz & _ & Hbits).
  { apply (Forall_in_capacity N); assumption. }
  exists b. split; [exact E|].
  rewrite sparsity_cpu_bitset_spec by lia.
  rewrite (count_bits_ext _ (λ p, negb (bool_decide (p ∈ mask)))).
  2:{ intros k Hk. apply Hbits. lia. }
  rewrite count_bits_negb, count_bits_elem_of.
  2:{ apply (Forall_in_capacity N); [lia|exact Hmask]. }
  rewrite Z2Nat.id by lia.
  replace (N - (N - Z.of_nat (length (remove_dups mask))))
    with (Z.of_nat (length (remove_dups mask))) by lia.
  reflexivity.
Qed.

Lemma sparsity_after_create_cpu_bitset_witness :
  ∃ bitset,
    create_cpu_bitset uint8_t (bitset_ref uint8_t 13) [0; 3; 12; 3; 0] = Ok bitset
    ∧ sparsity_cpu_bitset uint8_t bitset 13
      = Ok (Exact (Q2Qc (inject_Z (Z.of_nat (length (remove_dups [0; 3; 12; 3; 0])))
                         / inject_Z 13))).
Proof.
  apply (sparsity_after_create_cpu_bitset uint8_t 13 [0; 3; 12; 3; 0]).
  - unfold SIZE_MAX. lia.
  - repeat constructor; lia.
Defined.

(** ** repeat_cpu_bitset: when it returns, and what it depends on *)

(** A run of [repeat_cpu_bitset] that returns had a destination of at least
    [ceildiv total nbits] words, an input holding its bits when any bit was
    to be written, and has left words of the type in the destination. *)
Lemma repeat_cpu_bitset_ok_inv t input input_bits repeat output out :
  0 ≤ input_bits → 0 ≤ repeat →
  input_bits * repeat + nbits t - 1 ≤ SIZE_MAX →
  repeat_cpu_bitset t input input_bits repeat output = Ok out →
  ceildiv (input_bits * repeat) (nbits t) ≤ vsize output
  ∧ (1 ≤ input_bits * repeat → input_bits ≤ nbits t * vsize input)
  ∧ (∀ j, 0 ≤ j < ceildiv (input_bits * repeat) (nbits t) →
       0 ≤ word_at out j < 2 ^ nbits t).
Proof.
  intros Hb Hr Hmax E. pose proof (nbits_pos t) as Hw.
  unfold repeat_cpu_bitset in E. cbv zeta in E. change (sizeof t * 8) with (nbits t) in E.
  set (total := input_bits * repeat) in *.
  set (units := ceildiv total (nbits t)) in *.
  assert (Htot : 0 ≤ total) by (subst total; nia).
  rewrite (cast_size_t_small total) in E by lia.
  rewrite (cast_size_t_small (total + nbits t - 1)) in E by lia.
  rewrite <- ceildiv_formula in E by lia. fold units in E.
  unfold memset_zero in E.
  destruct (decide (0 ≤ units ≤ vsize output)) as [Hu|]; [|discriminate].
  cbn [mbind outcome_bind] in E.
  set (out0 := replicate (Z.to_nat units) 0 ++ drop (Z.to_nat units) output) in *.
  match type of E with (for_range _ ?b _ ≫= _) = _ => set (outer := b) in * end.
  destruct (for_range repeat outer (out0, 0)) as [st| |] eqn:EL;
    cbn [mbind outcome_bind] in E; try discriminate.
  injection E as <-. unfold for_range in EL.
  split; [lia|]. split.
  - intros Hone. assert (Hpos : 1 ≤ input_bits ∧ 1 ≤ repeat) by (subst total; nia).
    assert (HQ : ∀ i, 0 ≤ i < input_bits → i / nbits t < vsize input).
    { refine (for_loop_ok_inv (λ _ _, True)
                (λ _, ∀ i, 0 ≤ i < input_bits → i / nbits t < vsize input)
                _ _ 0 _ st EL I _ 0 _); [|lia].
      intros r s s1 Hr' _ Ebody. split; [exact I|]. intros i Hi.
      subst outer. cbv beta in Ebody. unfold for_range in Ebody.
      refine (for_loop_ok_inv (λ _ _, True) (λ i, i / nbits t < vsize input)
                _ _ 0 s s1 Ebody I _ i _); [|lia].
      intros i' [o k] s2 Hi' _ Eb. split; [exact I|]. cbv beta iota in Eb.
      destruct (vec_get input (i' / nbits t)) as [x| |] eqn:Ex;
        cbn [mbind outcome_bind] in Eb; try discriminate.
      apply vec_get_ok_inv in Ex. lia. }
    specialize (HQ (input_bits - 1) ltac:(lia)).
    pose proof (Z.div_mod (input_bits - 1) (nbits t)).
    pose proof (Z.mod_pos_bound (input_bits - 1) (nbits t) Hw). nia.
  - refine (for_loop_ok_post
              (λ _ s, ∀ j, 0 ≤ j < units → 0 ≤ word_at s.1 j < 2 ^ nbits t)
              _ _ 0 _ st EL _ _).
    + intros j Hj. simpl. subst out0. rewrite word_at_memset by lia.
      rewrite decide_True by lia. split; [lia|]. apply Z.pow_pos_nonneg; lia.
    + intros r s s1 Hr' Hs Ebody. subst outer. cbv beta in Ebody. unfold for_range in Ebody.
      refine (for_loop_ok_post
                (λ _ s, ∀ j, 0 ≤ j < units → 0 ≤ word_at s.1 j < 2 ^ nbits t)
                _ _ 0 s s1 Ebody Hs _).
      intros i' [o k] s2 Hi' Ho Eb. cbv beta iota in Eb. simpl in Ho.
      destruct (vec_get input (i' / nbits t)) as [x| |];
        cbn [mbind outcome_bind] in Eb; try discriminate.
      destruct (vec_get o (k / nbits t)) as [y| |];
        cbn [mbind outcome_bind] in Eb; try discriminate.
      match type of Eb with (vec_set ?v ?kk ?xx ≫= _) = _ =>
        destruct (vec_set v kk xx) as [o'| |] eqn:Es end;
        cbn [mbind outcome_bind] in Eb; try discriminate.
      injection Eb as <-. simpl.
      apply vec_set_ok_inv in Es as [Hk ->].
      intros j Hj. rewrite word_at_insert by lia.
      destruct (decide (j = k / nbits t)); [apply cast_range|apply Ho; exact Hj].
Qed.

Lemma typed_prefix_words_of t v units :
  vsize v = units → (∀ j, 0 ≤ j < units → 0 ≤ word_at v j < 2 ^ nbits t) → words_of t v.
Proof.
  intros Hsz H. unfold words_of. apply Forall_lookup. intros i x Hx.
  pose proof (lookup_lt_Some _ _ _ Hx) as Hlt.
  specialize (H (Z.of_nat i)). unfold word_at in H. rewrite Nat2Z.id, Hx in H.
  apply H. unfold vsize in Hsz. lia.
Qed.

(** With the sizes in the range of [size_t], [repeat_cpu_bitset] returns
    exactly when the destination has the [eval_n_elements] words of the
    output and, if there is any bit to write, the input holds [input_bits]
    bits; with no bit to write it returns the destination untouched. *)
Theorem repeat_cpu_bitset_defined t input input_bits repeat output :
  0 ≤ input_bits → 0 ≤ repeat →
  input_bits * repeat + nbits t - 1 ≤ SIZE_MAX →
  ((∃ out, repeat_cpu_bitset t input input_bits repeat output = Ok out)
   ↔ eval_n_elements t (input_bits * repeat) ≤ vsize output
     ∧ (input_bits * repeat = 0 ∨ input_bits ≤ nbits t * vsize input))
  ∧ (input_bits * repeat = 0 →
     repeat_cpu_bitset t input input_bits repeat output = Ok output).
Proof.
  intros Hb Hr Hmax. pose proof (nbits_pos t) as Hw.
  assert (Hzero : input_bits * repeat = 0 →
                  repeat_cpu_bitset t input input_bits repeat output = Ok output).
  { intros H0. unfold repeat_cpu_bitset. cbv zeta. change (sizeof t * 8) with (nbits t).
    rewrite H0. change (cast size_t 0) with 0.
    rewrite (cast_size_t_small (0 + nbits t - 1))
      by (pose proof (nbits_le_64 t); unfold SIZE_MAX; lia).
    rewrite Z.div_small by lia.
    unfold memset_zero. rewrite decide_True by (pose proof (vsize_nonneg output); lia).
    cbn [mbind outcome_bind]. change (Z.to_nat 0) with 0%nat. cbn [replicate app].
    rewrite drop_0.
    match goal with |- (for_range _ ?b _ ≫= _) = _ => set (outer := b) end.
    destruct (for_range_inv (λ _ st, st = (output, 0)) outer repeat (output, 0))
      as (st & E & ->); [exact Hr|reflexivity| |rewrite E; reflexivity].
    intros r st Hr' ->. exists (output, 0). split; [|reflexivity].
    assert (input_bits = 0) as -> by nia. reflexivity. }
  split; [|exact Hzero].
  rewrite eval_n_elements_unfold. split.
  - intros [out E].
    destruct (repeat_cpu_bitset_ok_inv t input input_bits repeat output out Hb Hr Hmax E)
      as (Hu & Hin & _).
    split; [exact Hu|].
    destruct (Z.eq_dec (input_bits * repeat) 0) as [|Hne]; [left; assumption|].
    right. apply Hin. nia.
  - intros [Hu [H0|Hin]].
    + exists output. apply Hzero. exact H0.
    + destruct (repeat_cpu_bitset_spec t input input_bits repeat output)
        as (out & E & _); try assumption.
      exists out. exact E.
Qed.

Lemma repeat_cpu_bitset_defined_witness :
  ((∃ out, repeat_cpu_bitset uint8_t [0x15] 5 3 [7; 7] = Ok out)
   ↔ eval_n_elements uint8_t (5 * 3) ≤ vsize [7; 7]
     ∧ (5 * 3 = 0 ∨ 5 ≤ nbits uint8_t * vsize [0x15]))
  ∧ (5 * 3 = 0 → repeat_cpu_bitset uint8_t [0x15] 5 3 [7; 7] = Ok [7; 7]).
Proof.
  apply (repeat_cpu_bitset_defined uint8_t [0x15] 5 3 [7; 7]).
  - lia.
  - lia.
  - vm_compute. congruence.
Defined.

(** Into a destination of exactly [eval_n_elements] words,
    [repeat_cpu_bitset] writes words that depend on the logical bits of the
    input only: neither the padding bits of the input, nor its words past the
    logical range, nor what the destination held before show in the result. *)
Theorem repeat_cpu_bitset_input_bits t input1 input2 input_bits repeat output1 output2 :
  0 ≤ input_bits → 1 ≤ repeat →
  input_bits * repeat + nbits t - 1 ≤ SIZE_MAX →
  input_bits ≤ nbits t * vsize input1 →
  input_bits ≤ nbits t * vsize input2 →
  (∀ p, 0 ≤ p < input_bits → bit_at t input1 p = bit_at t input2 p) →
  vsize output1 = eval_n_elements t (input_bits * repeat) →
  vsize output2 = eval_n_elements t (input_bits * repeat) →
  ∃ out,
    repeat_cpu_bitset t input1 input_bits repeat output1 = Ok out
    ∧ repeat_cpu_bitset t input2 input_bits repeat output2 = Ok out.
Proof.
  intros Hb Hr Hmax Hin1 Hin2 Hsame Hs1 Hs2. pose proof (nbits_pos t) as Hw.
  rewrite eval_n_elements_unfold in *.
  destruct (repeat_cpu_bitset_spec t input1 input_bits repeat output1)
    as (o1 & E1 & _ & Hsz1 & Hb1 & _); try assumption; try lia.
  destruct (repeat_cpu_bitset_spec t input2 input_bits repeat output2)
    as (o2 & E2 & _ & Hsz2 & Hb2 & _); try assumption; try lia.
  simpl in Hsz1, Hb1, Hsz2, Hb2.
  destruct (repeat_cpu_bitset_ok_inv t input1 input_bits repeat output1 o1)
    as (_ & _ & Ht1); try assumption; try lia.
  destruct (repeat_cpu_bitset_ok_inv t input2 input_bits repeat output2 o2)
    as (_ & _ & Ht2); try assumption; try lia.
  exists o1. split; [exact E1|]. rewrite E2. f_equal.
  apply (words_eq_of_bits t).
  - apply (typed_prefix_words_of t o2 (ceildiv (input_bits * repeat) (nbits t))); [lia|exact Ht2].
  - apply (typed_prefix_words_of t o1 (ceildiv (input_bits * repeat) (nbits t))); [lia|exact Ht1].
  - lia.
  - intros p Hp. rewrite Hb1, Hb2 by (rewrite <- ?Hs1, <- ?Hs2; lia).
    destruct (Z.ltb_spec p (input_bits * repeat)) as [Hlt|]; [|reflexivity].
    simpl. symmetry. apply Hsame. apply Z.mod_pos_bound. nia.
Qed.

Lemma repeat_cpu_bitset_input_bits_witness :
  ∃ out,
    repeat_cpu_bitset uint8_t [0x15; 0xaa] 5 3 [0x11; 0x22] = Ok out
    ∧ repeat_cpu_bitset uint8_t [0xf5] 5 3 [0x33; 0x44] = Ok out.
Proof.
  apply (repeat_cpu_bitset_input_bits uint8_t [0x15; 0xaa] [0xf5] 5 3 [0x11; 0x22] [0x33; 0x44]).
  - lia.
  - lia.
  - vm_compute. congruence.
  - vm_compute. congruence.
  - vm_compute. congruence.
  - intros p Hp.
    assert (Hc : p = 0 ∨ p = 1 ∨ p = 2 ∨ p = 3 ∨ p = 4) by lia.
    destruct Hc as [->|[->|[->|[->| ->]]]]; reflexivity.
  - reflexivity.
  - reflexivity.
Defined.

(** Repetitions compose: repeating [a] times and then repeating the result,
    as an input of [input_bits * a] bits, [b] times gives the words of
    repeating [a * b] times. *)
Theorem repeat_cpu_bitset_compose t input input_bits a b output1 output2 :
  0 ≤ input_bits → 1 ≤ a → 1 ≤ b →
  input_bits * (a * b) + nbits t - 1 ≤ SIZE_MAX →
  input_bits ≤ nbits t * vsize input →
  vsize output1 = eval_n_elements t (input_bits * a) →
  vsize output2 = eval_n_elements t (input_bits * (a * b)) →
  ∃ once out,
    repeat_cpu_bitset t input input_bits a output1 = Ok once
    ∧ repeat_cpu_bitset t once (input_bits * a) b output2 = Ok out
    ∧ repeat_cpu_bitset t input input_bits (a * b) output2 = Ok out.
Proof.
  intros Hb Ha Hb' Hmax Hin Hs1 Hs2. pose proof (nbits_pos t) as Hw.
  rewrite eval_n_elements_unfold in *.
  assert (Hab : input_bits * a ≤ input_bits * (a * b)) by nia.
  assert (Hassoc : input_bits * a * b = input_bits * (a * b)) by lia.
  destruct (repeat_cpu_bitset_spec t input input_bits a output1)
    as (o1 & E1 & _ & Hsz1 & Hb1 & _); try assumption; try lia.
  simpl in Hsz1, Hb1.
  pose proof (ceildiv_covers (input_bits * a) (nbits t) Hw) as Hcap1.
  assert (H1 : 0 ≤ input_bits * a) by nia.
  assert (H2 : input_bits * a * b + nbits t - 1 ≤ SIZE_MAX) by (rewrite Hassoc; exact Hmax).
  assert (H3 : input_bits * a ≤ nbits t * vsize o1) by (rewrite Hsz1, Hs1; exact Hcap1).
  assert (H4 : ceildiv (input_bits * a * b) (nbits t) ≤ vsize output2)
    by (rewrite Hassoc; lia).
  destruct (repeat_cpu_bitset_spec t o1 (input_bits * a) b output2 H1 ltac:(lia) H2 H3 H4)
    as (o2 & E2 & _ & Hsz2 & Hb2 & _).
  simpl in Hsz2, Hb2. rewrite Hassoc in Hb2.
  destruct (repeat_cpu_bitset_spec t input input_bits (a * b) output2)
    as (o3 & E3 & _ & Hsz3 & Hb3 & _); try assumption; try lia.
  simpl in Hsz3, Hb3.
  destruct (repeat_cpu_bitset_ok_inv t o1 (input_bits * a) b output2 o2 H1 ltac:(lia) H2 E2)
    as (_ & _ & Ht2).
  rewrite Hassoc in Ht2.
  destruct (repeat_cpu_bitset_ok_inv t input input_bits (a * b) output2 o3)
    as (_ & _ & Ht3); try assumption; try lia.
  exists o1, o2. split; [exact E1|]. split; [exact E2|]. rewrite E3. f_equal.
  apply (words_eq_of_bits t).
  - apply (typed_prefix_words_of t o3 (ceildiv (input_bits * (a * b)) (nbits t))); [lia|exact Ht3].
  - apply (typed_prefix_words_of t o2 (ceildiv (input_bits * (a * b)) (nbits t))); [lia|exact Ht2].
  - lia.
  - intros p Hp. rewrite Hb3, Hb2 by (rewrite <- ?Hs2; lia).
    destruct (Z.ltb_spec p (input_bits * (a * b))) as [Hlt|]; [|reflexivity].
    simpl. assert (Hpos : 1 ≤ input_bits) by nia.
    pose proof (Z.mod_pos_bound p (input_bits * a) ltac:(nia)) as Hq.
    rewrite Hb1 by lia.
    destruct (Z.ltb_spec (p mod (input_bits * a)) (input_bits * a)); [|lia].
    simpl. f_equal. symmetry. apply Z.mod_mod_divide.
    exists a. lia.
Qed.

Lemma repeat_cpu_bitset_compose_witness :
  ∃ once out,
    repeat_cpu_bitset uint8_t [0x15] 5 2 [0; 0] = Ok once
    ∧ repeat_cpu_bitset uint8_t once (5 * 2) 3 [0; 0; 0; 0] = Ok out
    ∧ repeat_cpu_bitset uint8_t [0x15] 5 (2 * 3) [0; 0; 0; 0] = Ok out.
Proof.
  apply (repeat_cpu_bitset_compose uint8_t [0x15] 5 2 3 [0; 0] [0; 0; 0; 0]).
  - lia.
  - lia.
  - lia.
  - vm_compute. congruence.
  - vm_compute. congruence.
  - reflexivity.
  - reflexivity.
Defined.

(** * The permutation kernel *)

(** ** Integer arithmetic of the kernel *)

Lemma sint32_small x : - 2 ^ 31 ≤ x ≤ INT_MAX → sint 32 x = x.
Proof.
  intros H. unfold sint, INT_MAX in *. change (32 - 1) with 31.
  rewrite Z.mod_small by lia. lia.
Qed.

Lemma sint64_small x : - 2 ^ 63 ≤ x < 2 ^ 63 → sint 64 x = x.
Proof.
  intros H. unfold sint. change (64 - 1) with 63.
  rewrite Z.mod_small by lia. lia.
Qed.

(** With operands that are non-negative [int]s the 64-bit product and sum
    are exact, and the index is the residue of [a * tid + b] modulo [N]. *)
Lemma inIdx_of_mod a b N tid :
  1 ≤ N ≤ INT_MAX → 0 ≤ a ≤ INT_MAX → 0 ≤ b ≤ INT_MAX → 0 ≤ tid ≤ INT_MAX →
  inIdx_of a b N tid = (a * tid + b) mod N.
Proof.
  intros HN Ha Hb Ht. unfold inIdx_of, INT_MAX in *.
  assert (Hprod : 0 ≤ a * tid ≤ (2 ^ 31 - 1) * (2 ^ 31 - 1)) by nia.
  rewrite (sint64_small (a * tid)) by lia.
  rewrite (sint64_small (a * tid + b)) by lia.
  rewrite Z.rem_mod_nonneg by lia.
  pose proof (Z.mod_pos_bound (a * tid + b) N ltac:(lia)).
  apply sint32_small. unfold INT_MAX. lia.
Qed.

Lemma index_map_injective a b N s t :
  1 ≤ N → Z.gcd a N = 1 → 0 ≤ s < N → 0 ≤ t < N →
  (a * s + b) mod N = (a * t + b) mod N → s = t.
Proof.
  intros HN Hg Hs Ht E.
  assert (Hdiv : (N | a * (s - t))).
  { exists ((a * s + b) / N - (a * t + b) / N).
    pose proof (Z.div_mod (a * s + b) N ltac:(lia)).
    pose proof (Z.div_mod (a * t + b) N ltac:(lia)). lia. }
  apply Z.gauss in Hdiv; [|rewrite Z.gcd_comm; exact Hg].
  destruct Hdiv as [k Hk]. assert (k = 0) by nia. lia.
Qed.

Lemma index_map_permutation a b N :
  1 ≤ N → Z.gcd a N = 1 →
  (λ t, (a * t + b) mod N) <$> seqZ 0 N ≡ₚ seqZ 0 N.
Proof.
  intros HN Hg.
  apply submseteq_length_Permutation.
  - apply NoDup_submseteq.
    + apply NoDup_fmap_2_strong; [|apply NoDup_seqZ].
      intros s t Hs Ht E. apply elem_of_seqZ in Hs, Ht.
      apply (index_map_injective a b N); lia.
    + intros y Hy. apply list_elem_of_fmap in Hy as (t & -> & Ht).
      apply elem_of_seqZ in Ht. apply elem_of_seqZ.
      pose proof (Z.mod_pos_bound (a * t + b) N ltac:(lia)). lia.
  - rewrite length_fmap. reflexivity.
Qed.

(** The index map of the kernel permutes the row indices when [a] is
    coprime to [N]: over the threads [0 .. N - 1] the values of [inIdx] are
    [0 .. N - 1], each once. *)
Theorem inIdx_of_permutation a b N :
  1 ≤ N ≤ INT_MAX → 0 ≤ a ≤ INT_MAX → 0 ≤ b ≤ INT_MAX →
  Z.gcd a N = 1 →
  inIdx_of a b N <$> seqZ 0 N ≡ₚ seqZ 0 N.
Proof.
  intros HN Ha Hb Hg.
  replace (inIdx_of a b N <$> seqZ 0 N) with ((λ t, (a * t + b) mod N) <$> seqZ 0 N).
  - apply index_map_permutation; [lia|exact Hg].
  - apply list_fmap_ext. intros i t Ht.
    apply lookup_seqZ in Ht as [-> Hi]. symmetry.
    apply inIdx_of_mod; unfold INT_MAX in *; lia.
Qed.

Lemma inIdx_of_permutation_witness : inIdx_of 7 5 12 <$> seqZ 0 12 ≡ₚ seqZ 0 12.
Proof.
  apply (inIdx_of_permutation 7 5 12).
  - vm_compute. split; congruence.
  - vm_compute. split; congruence.
  - vm_compute. split; congruence.
  - reflexivity.
Defined.

(** ** The search for a coprime coefficient *)

Lemma gcd_pred_self N : 1 ≤ N → Z.gcd (N - 1) N = 1.
Proof.
  intros HN. replace N with (1 + 1 * (N - 1)) at 2 by lia.
  rewrite Z.gcd_add_mult_diag_r. apply Z.gcd_1_r.
Qed.

Lemma coprime_search_spec fuel a N :
  1 ≤ N ≤ INT_MAX → 0 ≤ a < N → (Z.to_nat (N - a) ≤ fuel)%nat →
  ∃ a', coprime_search fuel a N = Some a'
        ∧ a ≤ a' < N ∧ Z.gcd a' N = 1
        ∧ ∀ c, a ≤ c < a' → Z.gcd c N ≠ 1.
Proof.
  intros HN. revert a. induction fuel as [|fuel IH]; intros a Ha Hfuel; [lia|].
  cbn [coprime_search].
  destruct (Z.eqb_spec (Z.gcd a N) 1) as [Hg|Hg].
  - exists a. split; [reflexivity|]. split; [lia|]. split; [exact Hg|]. intros c Hc. lia.
  - assert (Hlt : a + 1 < N).
    { destruct (Z.eq_dec a (N - 1)) as [->|]; [|lia].
      exfalso. apply Hg. apply gcd_pred_self. lia. }
    rewrite sint32_small by (unfold INT_MAX in *; lia).
    rewrite Z.rem_small by lia.
    destruct (IH (a + 1)) as (a' & E & Hr & Hg' & Hmin); [lia|lia|].
    exists a'. split; [exact E|]. split; [lia|]. split; [exact Hg'|].
    intros c Hc. destruct (Z.eq_dec c a) as [->|]; [exact Hg|]. apply Hmin. lia.
Qed.

(** The host function picks its coefficients in finitely many steps: with
    [N] tests or more allowed, the loop ends on the first residue from
    [rand1 mod N] upwards that is coprime to [N], without wrapping around;
    [a] and [b] are residues modulo [N] and the grid has
    [ceil(N / TPB)] blocks. *)
Theorem permute_coefficients_found TPB fuel rand1 rand2 N :
  1 ≤ N ≤ INT_MAX → 0 ≤ rand1 → 0 ≤ rand2 → (Z.to_nat N ≤ fuel)%nat →
  ∃ a b,
    permute_coefficients TPB fuel rand1 rand2 N = Some (Ok (ceildiv N TPB, a, b))
    ∧ rand1 mod N ≤ a < N ∧ Z.gcd a N = 1
    ∧ (∀ c, rand1 mod N ≤ c < a → Z.gcd c N ≠ 1)
    ∧ b = rand2 mod N ∧ 0 ≤ b < N.
Proof.
  intros HN H1 H2 Hfuel. unfold permute_coefficients.
  destruct (Z.eqb_spec N 0); [lia|].
  rewrite !Z.rem_mod_nonneg by lia.
  pose proof (Z.mod_pos_bound rand1 N ltac:(lia)) as Ha.
  pose proof (Z.mod_pos_bound rand2 N ltac:(lia)) as Hb.
  destruct (coprime_search_spec fuel (rand1 mod N) N HN Ha ltac:(lia))
    as (a & E & Hr & Hg & Hmin).
  rewrite E. exists a, (rand2 mod N).
  split; [reflexivity|]. split; [exact Hr|]. split; [exact Hg|].
  split; [exact Hmin|]. split; [reflexivity|exact Hb].
Qed.

Lemma permute_coefficients_found_witness :
  ∃ a b,
    permute_coefficients 256 12 1234566 7654321 12 = Some (Ok (ceildiv 12 256, a, b))
    ∧ 1234566 mod 12 ≤ a < 12 ∧ Z.gcd a 12 = 1
    ∧ (∀ c, 1234566 mod 12 ≤ c < a → Z.gcd c 12 ≠ 1)
    ∧ b = 7654321 mod 12 ∧ 0 ≤ b < 12.
Proof.
  apply (permute_coefficients_found 256 12 1234566 7654321 12).
  - vm_compute. split; congruence.
  - lia.
  - lia.
  - vm_compute. lia.
Defined.

(** ** Executions of a launch *)

Lemma cell_range rowMajor N D t j :
  0 ≤ t < N → 0 ≤ j < D → 0 ≤ cell rowMajor N D t j < N * D.
Proof. intros Ht Hj. unfold cell. destruct rowMajor; nia. Qed.

Lemma cell_injective rowMajor N D t j t' j' :
  0 ≤ t < N → 0 ≤ j < D → 0 ≤ t' < N → 0 ≤ j' < D →
  cell rowMajor N D t j = cell rowMajor N D t' j' → t = t' ∧ j = j'.
Proof.
  intros Ht Hj Ht' Hj' E. unfold cell in E. destruct rowMajor.
  - assert (t = t') as ->; [|lia].
    destruct (Z.lt_trichotomy t t') as [H|[H|H]]; [|exact H|].
    + assert ((t + 1) * D ≤ t' * D) by nia. lia.
    + assert ((t' + 1) * D ≤ t * D) by nia. lia.
  - assert (j = j') as ->; [|lia].
    destruct (Z.lt_trichotomy j j') as [H|[H|H]]; [|exact H|].
    + assert ((j + 1) * N ≤ j' * N) by nia. lia.
    + assert ((j' + 1) * N ≤ j * N) by nia. lia.
Qed.

(** Applying, in any order, stores that are all as expected fills every cell
    some store addresses with its expected value, keeps the cells that held
    it already, and stays inside the arrays. *)
Lemma run_stores_expected {A : Type} rowMajor a b N D (in_ : list A) ss :
  1 ≤ N → 0 ≤ D → Z.of_nat (length in_) = N * D →
  Forall (store_expected rowMajor a b N D) ss →
  ∀ p0 o0,
    Z.of_nat (length p0) = N → Z.of_nat (length o0) = N * D →
    ∃ p o,
      run_stores in_ ss (p0, o0) = Ok (p, o)
      ∧ Z.of_nat (length p) = N ∧ Z.of_nat (length o) = N * D
      ∧ (∀ t, 0 ≤ t < N →
           p0 !! Z.to_nat t = Some ((a * t + b) mod N) ∨ (∃ v, StorePerm t v ∈ ss) →
           p !! Z.to_nat t = Some ((a * t + b) mod N))
      ∧ (∀ t j, 0 ≤ t < N → 0 ≤ j < D →
           o0 !! Z.to_nat (cell rowMajor N D t j)
             = in_ !! Z.to_nat (cell rowMajor N D ((a * t + b) mod N) j)
           ∨ (∃ c, StoreOut (cell rowMajor N D t j) c ∈ ss) →
           o !! Z.to_nat (cell rowMajor N D t j)
             = in_ !! Z.to_nat (cell rowMajor N D ((a * t + b) mod N) j)).
Proof.
  intros HN HD Hin. induction 1 as [|s ss Hs Hss IH]; intros p0 o0 Hp0 Ho0.
  - exists p0, o0. split; [reflexivity|]. split; [exact Hp0|]. split; [exact Ho0|].
    split.
    + intros t Ht [H|[v H]]; [exact H|]. apply elem_of_nil in H. contradiction.
    + intros t j Ht Hj [H|[c H]]; [exact H|]. apply elem_of_nil in H. contradiction.
  - cbn [run_stores]. destruct s as [t0 v0|d0 c0]; cbn [run_store store_expected] in *.
    + destruct Hs as [Ht0 ->]. cbn [fst snd].
      rewrite decide_True by lia. cbn [mbind outcome_bind].
      destruct (IH (<[Z.to_nat t0 := (a * t0 + b) mod N]> p0) o0)
        as (p & o & E & Hp & Ho & HP & HO); [rewrite length_insert; exact Hp0|exact Ho0|].
      exists p, o. split; [exact E|]. split; [exact Hp|]. split; [exact Ho|]. split.
      * intros t Ht Hcase. apply HP; [exact Ht|].
        destruct (decide (t = t0)) as [->|Hne].
        -- left. apply list_lookup_insert_eq. lia.
        -- rewrite list_lookup_insert_ne by lia.
           destruct Hcase as [H|[v H]]; [left; exact H|right].
           apply elem_of_cons in H as [H|H]; [injection H as -> _; contradiction|].
           exists v. exact H.
      * intros t j Ht Hj Hcase. apply HO; [exact Ht|exact Hj|].
        destruct Hcase as [H|[c H]]; [left; exact H|right].
        apply elem_of_cons in H as [H|H]; [discriminate|]. exists c. exact H.
    + destruct Hs as (t0 & j0 & Ht0 & Hj0 & -> & ->). cbn [fst snd].
      pose proof (cell_range rowMajor N D t0 j0 Ht0 Hj0) as Hd0.
      assert (Hpt0 : 0 ≤ (a * t0 + b) mod N < N) by (apply Z.mod_pos_bound; lia).
      pose proof (cell_range rowMajor N D _ j0 Hpt0 Hj0) as Hc0.
      rewrite decide_True by lia.
      destruct (lookup_lt_is_Some_2 in_
                  (Z.to_nat (cell rowMajor N D ((a * t0 + b) mod N) j0))) as [x Hx]; [lia|].
      rewrite Hx. cbn [mbind outcome_bind].
      destruct (IH p0 (<[Z.to_nat (cell rowMajor N D t0 j0) := x]> o0))
        as (p & o & E & Hp & Ho & HP & HO); [exact Hp0|rewrite length_insert; exact Ho0|].
      exists p, o. split; [exact E|]. split; [exact Hp|]. split; [exact Ho|]. split.
      * intros t Ht Hcase. apply HP; [exact Ht|].
        destruct Hcase as [H|[v H]]; [left; exact H|right].
        apply elem_of_cons in H as [H|H]; [discriminate|]. exists v. exact H.
      * intros t j Ht Hj Hcase. apply HO; [exact Ht|exact Hj|].
        pose proof (cell_range rowMajor N D t j Ht Hj) as Hd.
        destruct (decide (cell rowMajor N D t j = cell rowMajor N D t0 j0)) as [Heq|Hne].
        -- left. destruct (cell_injective rowMajor N D t j t0 j0) as [-> ->]; try assumption.
           rewrite list_lookup_insert_eq by lia. symmetry. exact Hx.
        -- rewrite list_lookup_insert_ne by lia.
           destruct Hcase as [H|[c H]]; [left; exact H|right].
           apply elem_of_cons in H as [H|H]; [injection H as Hd' _; contradiction|].
           exists c. exact H.
Qed.

Lemma elem_of_strided fuel l stop j :
  0 ≤ l → stop + WARP_SIZE ≤ INT_MAX → (Z.to_nat (stop - l) ≤ fuel)%nat →
  j ∈ strided fuel l stop WARP_SIZE ↔ l ≤ j < stop ∧ (j - l) mod WARP_SIZE = 0.
Proof.
  unfold WARP_SIZE. revert l. induction fuel as [|fuel IH]; intros l Hl Hstop Hfuel.
  - cbn [strided]. rewrite elem_of_nil. split; [tauto|]. lia.
  - cbn [strided]. destruct (Z.ltb_spec l stop) as [Hlt|Hge].
    + rewrite sint32_small by (unfold INT_MAX in *; lia).
      rewrite elem_of_cons, IH by lia.
      split.
      * intros [->|[Hr Hm]].
        -- rewrite Z.sub_diag. split; [lia|reflexivity].
        -- split; [lia|]. Z.div_mod_to_equations. lia.
      * intros [Hr Hm].
        destruct (Z.eq_dec j l) as [|Hne]; [left; assumption|right].
        Z.div_mod_to_equations. lia.
    + rewrite elem_of_nil. split; [tauto|]. lia.
Qed.

(** The stores of one thread of a launch of [TPB] threads a block: all as
    expected; the thread stores its own entry of [perms]; column-major it
    copies its own row, row-major the columns of its lane in the rows of its
    warp. *)
Lemma permuteKernel_thread rowMajor TPB a b N D nblks blk x :
  1 ≤ N ≤ INT_MAX → 0 ≤ D → N * D ≤ INT_MAX → D + WARP_SIZE ≤ INT_MAX →
  0 ≤ a ≤ INT_MAX → 0 ≤ b ≤ INT_MAX →
  0 < TPB → TPB mod WARP_SIZE = 0 → nblks * TPB ≤ INT_MAX →
  0 ≤ blk < nblks → 0 ≤ x < TPB →
  ∃ ss,
    permuteKernel TPB rowMajor true true true a b N D TPB blk x = Ok ss
    ∧ Forall (store_expected rowMajor a b N D) ss
    ∧ (x + blk * TPB < N →
       StorePerm (x + blk * TPB) ((a * (x + blk * TPB) + b) mod N) ∈ ss)
    ∧ (∀ t j, 0 ≤ t < N → 0 ≤ j < D →
         (if rowMajor
          then t / TPB = blk ∧ (t mod TPB) / WARP_SIZE = x / WARP_SIZE
               ∧ j mod WARP_SIZE = x mod WARP_SIZE
          else t = x + blk * TPB) →
         StoreOut (cell rowMajor N D t j) (cell rowMajor N D ((a * t + b) mod N) j) ∈ ss).
Proof.
  intros HN HD HND HDW Ha Hb HT HTW Hgrid Hblk Hx.
  assert (Htid : 0 ≤ x + blk * TPB ≤ INT_MAX) by nia.
  unfold permuteKernel. cbv zeta.
  rewrite (sint32_small (x + blk * TPB)) by (unfold INT_MAX in *; lia).
  destruct (Z.eqb_spec N 0); [lia|].
  cbn [negb orb andb].
  rewrite (inIdx_of_mod a b N (x + blk * TPB)) by lia.
  set (tid := x + blk * TPB) in *.
  destruct rowMajor.
  - unfold WARP_SIZE in *.
    rewrite Z.quot_div_nonneg, Z.rem_mod_nonneg by lia.
    rewrite decide_True by (split; [lia|]; Z.div_mod_to_equations; lia).
    eexists. split; [reflexivity|].
    match goal with |- Forall _ (_ ++ ?e) ∧ _ => set (copies := e) end.
    assert (Hwarp : 0 ≤ x / 32 * 32 ∧ x / 32 * 32 + 32 ≤ TPB)
      by (Z.div_mod_to_equations; lia).
    assert (Hlane : 0 ≤ x mod 32 < 32) by (apply Z.mod_pos_bound; lia).
    assert (Hmem : ∀ s, s ∈ copies ↔
              ∃ i j, x / 32 * 32 ≤ i < x / 32 * 32 + 32 ∧ i + blk * TPB < N
                     ∧ x mod 32 ≤ j < D ∧ (j - x mod 32) mod 32 = 0
                     ∧ s = StoreOut (cell true N D (i + blk * TPB) j)
                             (cell true N D ((a * (i + blk * TPB) + b) mod N) j)).
    { intros s. subst copies. rewrite list_elem_of_bind. unfold cell.
      split.
      - intros (i & Hs & Hi). apply elem_of_seqZ in Hi.
        assert (Hti : 0 ≤ i + blk * TPB ≤ INT_MAX) by nia.
        rewrite (sint32_small (i + blk * TPB)) in Hs by (unfold INT_MAX in *; lia).
        destruct (Z.ltb_spec (i + blk * TPB) N) as [Hlt|]; [|apply elem_of_nil in Hs; tauto].
        apply list_elem_of_bind in Hs as (j & Hs & Hj).
        apply elem_of_strided in Hj; [|lia|exact HDW|lia].
        unfold WARP_SIZE in Hj. apply list_elem_of_singleton in Hs.
        rewrite inIdx_of_mod in Hs by lia.
        pose proof (Z.mod_pos_bound (a * (i + blk * TPB) + b) N ltac:(lia)) as Hpi.
        rewrite (sint32_small ((i + blk * TPB) * D)) in Hs by (unfold INT_MAX in *; nia).
        rewrite (sint32_small ((i + blk * TPB) * D + j)) in Hs by (unfold INT_MAX in *; nia).
        rewrite (sint32_small ((a * (i + blk * TPB) + b) mod N * D)) in Hs
          by (unfold INT_MAX in *; nia).
        rewrite (sint32_small ((a * (i + blk * TPB) + b) mod N * D + j)) in Hs
          by (unfold INT_MAX in *; nia).
        exists i, j. repeat split; try lia. exact Hs.
      - intros (i & j & Hi & Hlt & Hj & Hm & ->).
        exists i. split; [|apply elem_of_seqZ; lia].
        assert (Hti : 0 ≤ i + blk * TPB ≤ INT_MAX) by nia.
        rewrite (sint32_small (i + blk * TPB)) by (unfold INT_MAX in *; lia).
        destruct (Z.ltb_spec (i + blk * TPB) N); [|lia].
        apply list_elem_of_bind. exists j. split.
        + rewrite inIdx_of_mod by lia.
          pose proof (Z.mod_pos_bound (a * (i + blk * TPB) + b) N ltac:(lia)) as Hpi.
          rewrite (sint32_small ((i + blk * TPB) * D)) by (unfold INT_MAX in *; nia).
          rewrite (sint32_small ((i + blk * TPB) * D + j)) by (unfold INT_MAX in *; nia).
          rewrite (sint32_small ((a * (i + blk * TPB) + b) mod N * D))
            by (unfold INT_MAX in *; nia).
          rewrite (sint32_small ((a * (i + blk * TPB) + b) mod N * D + j))
            by (unfold INT_MAX in *; nia).
          apply list_elem_of_singleton. reflexivity.
        + apply elem_of_strided; [lia|exact HDW|lia|].
          unfold WARP_SIZE. lia. }
    clearbody copies. split; [|split].
    + apply Forall_app. split.
      * destruct (Z.ltb_spec tid N); [|constructor].
        repeat constructor; lia.
      * apply Forall_forall. intros s Hs. apply Hmem in Hs
          as (i & j & Hi & Hlt & Hj & Hm & ->).
        exists (i + blk * TPB), j. repeat split; try lia; nia.
    + intros Hlt. apply elem_of_app. left.
      destruct (Z.ltb_spec tid N); [|lia]. apply list_elem_of_singleton. reflexivity.
    + intros t j Ht Hj (Hb1 & Hb2 & Hb3). apply elem_of_app. right. apply Hmem.
      exists (t mod TPB), j.
      assert (Et : t mod TPB + blk * TPB = t).
      { pose proof (Z.div_mod t TPB ltac:(lia)). subst blk. lia. }
      rewrite Et. repeat split; try lia.
      * Z.div_mod_to_equations; lia.
      * Z.div_mod_to_equations; lia.
      * Z.div_mod_to_equations; lia.
      * Z.div_mod_to_equations; lia.
  - eexists. split; [reflexivity|].
    match goal with |- Forall _ (_ ++ ?e) ∧ _ => set (copies := e) end.
    assert (Hpi : 0 ≤ (a * tid + b) mod N < N) by (apply Z.mod_pos_bound; lia).
    assert (Hmem : ∀ s, s ∈ copies ↔
              ∃ j, 0 ≤ j < D ∧ tid < N
                   ∧ s = StoreOut (cell false N D tid j)
                           (cell false N D ((a * tid + b) mod N) j)).
    { intros s. subst copies. rewrite list_elem_of_bind. unfold cell.
      split.
      - intros (j & Hs & Hj). apply elem_of_seqZ in Hj.
        destruct (Z.ltb_spec tid N) as [Hlt|]; [|apply elem_of_nil in Hs; tauto].
        apply list_elem_of_singleton in Hs.
        rewrite (sint32_small (j * N)) in Hs by (unfold INT_MAX in *; nia).
        rewrite (sint32_small (tid + j * N)) in Hs by (unfold INT_MAX in *; nia).
        rewrite (sint32_small ((a * tid + b) mod N + j * N)) in Hs
          by (unfold INT_MAX in *; nia).
        exists j. repeat split; try lia. exact Hs.
      - intros (j & Hj & Hlt & ->).
        exists j. split; [|apply elem_of_seqZ; lia].
        destruct (Z.ltb_spec tid N); [|lia].
        rewrite (sint32_small (j * N)) by (unfold INT_MAX in *; nia).
        rewrite (sint32_small (tid + j * N)) by (unfold INT_MAX in *; nia).
        rewrite (sint32_small ((a * tid + b) mod N + j * N)) by (unfold INT_MAX in *; nia).
        apply list_elem_of_singleton. reflexivity. }
    clearbody copies. split; [|split].
    + apply Forall_app. split.
      * destruct (Z.ltb_spec tid N); [|constructor].
        repeat constructor; lia.
      * apply Forall_forall. intros s Hs. apply Hmem in Hs as (j & Hj & Hlt & ->).
        exists tid, j. repeat split; lia.
    + intros Hlt. apply elem_of_app. left.
      destruct (Z.ltb_spec tid N); [|lia]. apply list_elem_of_singleton. reflexivity.
    + intros t j Ht Hj ->. apply elem_of_app. right. apply Hmem.
      exists j. repeat split; lia.
Qed.

Lemma collect_spec {A B : Type} (f : A → outcome B) (P : A → B → Prop) l :
  (∀ x, x ∈ l → ∃ y, f x = Ok y ∧ P x y) →
  ∃ ys, collect f l = Ok ys ∧ Forall2 P l ys.
Proof.
  induction l as [|x l IH]; intros H.
  - exists []. split; [reflexivity|constructor].
  - destruct (H x) as (y & Ey & Py); [apply elem_of_cons; left; reflexivity|].
    destruct IH as (ys & Eys & Pys).
    { intros x' Hx'. apply H. apply elem_of_cons. right. exact Hx'. }
    exists (y :: ys). split; [|constructor; assumption].
    cbn [collect]. rewrite Ey. cbn [mbind outcome_bind]. rewrite Eys. reflexivity.
Qed.

Lemma elem_of_threads nblks TPB blk x :
  (blk, x) ∈ (blockIdx ← seqZ 0 nblks; threadIdx ← seqZ 0 TPB; [(blockIdx, threadIdx)])
  ↔ 0 ≤ blk < nblks ∧ 0 ≤ x < TPB.
Proof.
  rewrite list_elem_of_bind. split.
  - intros (blk' & H & Hb). apply list_elem_of_bind in H as (x' & H & Hx).
    apply list_elem_of_singleton in H. injection H as -> ->.
    apply elem_of_seqZ in Hb, Hx. lia.
  - intros [Hb Hx]. exists blk. split; [|apply elem_of_seqZ; lia].
    apply list_elem_of_bind. exists x. split; [|apply elem_of_seqZ; lia].
    apply list_elem_of_singleton. reflexivity.
Qed.

Lemma elem_of_concat {A : Type} (x : A) (ls : list (list A)) :
  x ∈ concat ls ↔ ∃ l, l ∈ ls ∧ x ∈ l.
Proof.
  rewrite list_elem_of_In, in_concat. split.
  - intros (l & Hl & Hx). exists l. rewrite !list_elem_of_In. tauto.
  - intros (l & Hl & Hx). exists l. rewrite <- !list_elem_of_In. tauto.
Qed.

Lemma permuteKernel_launch_run {A : Type} rowMajor TPB a b N D nblks
    (in_ out0 : list A) (perms0 : list Z) :
  1 ≤ N ≤ INT_MAX → 0 ≤ D → N * D ≤ INT_MAX → D + WARP_SIZE ≤ INT_MAX →
  0 ≤ a ≤ INT_MAX → 0 ≤ b ≤ INT_MAX →
  0 < TPB → TPB mod WARP_SIZE = 0 → N ≤ nblks * TPB → nblks * TPB ≤ INT_MAX →
  Z.of_nat (length in_) = N * D → Z.of_nat (length out0) = N * D →
  Z.of_nat (length perms0) = N →
  ∃ threads,
    launch_permuteKernel TPB rowMajor true true true a b N D nblks = Ok threads
    ∧ ∀ sched, sched ≡ₚ concat threads →
        ∃ perms out,
          run_stores in_ sched (perms0, out0) = Ok (perms, out)
          ∧ Z.of_nat (length perms) = N ∧ Z.of_nat (length out) = N * D
          ∧ (∀ t, 0 ≤ t < N → perms !! Z.to_nat t = Some ((a * t + b) mod N))
          ∧ (∀ t j, 0 ≤ t < N → 0 ≤ j < D →
               out !! Z.to_nat (cell rowMajor N D t j)
               = in_ !! Z.to_nat (cell rowMajor N D ((a * t + b) mod N) j)).
Proof.
  intros HN HD HND HDW Ha Hb HT HTW Hcover Hgrid Hin Hout Hperms.
  unfold launch_permuteKernel.
  destruct (collect_spec
    (λ th : Z * Z, permuteKernel TPB rowMajor true true true a b N D TPB th.1 th.2)
    (λ th ss,
       Forall (store_expected rowMajor a b N D) ss
       ∧ (th.2 + th.1 * TPB < N →
          StorePerm (th.2 + th.1 * TPB) ((a * (th.2 + th.1 * TPB) + b) mod N) ∈ ss)
       ∧ (∀ t j, 0 ≤ t < N → 0 ≤ j < D →
            (if rowMajor
             then t / TPB = th.1 ∧ (t mod TPB) / WARP_SIZE = th.2 / WARP_SIZE
                  ∧ j mod WARP_SIZE = th.2 mod WARP_SIZE
             else t = th.2 + th.1 * TPB) →
            StoreOut (cell rowMajor N D t j)
              (cell rowMajor N D ((a * t + b) mod N) j) ∈ ss))
    (blockIdx ← seqZ 0 nblks; threadIdx ← seqZ 0 TPB; [(blockIdx, threadIdx)]))
    as (threads & E & HF).
  { intros [blk x] Hth. apply elem_of_threads in Hth as [Hblk Hx]. cbn [fst snd].
    destruct (permuteKernel_thread rowMajor TPB a b N D nblks blk x) as (ss & Ess & Hss);
      try assumption.
    exists ss. split; [exact Ess|exact Hss]. }
  exists threads. split; [exact E|]. intros sched Hsched.
  assert (Hexp : Forall (store_expected rowMajor a b N D) sched).
  { rewrite Hsched. apply Forall_forall. intros s Hs.
    apply elem_of_concat in Hs as (ss & Hss & Hs).
    apply list_elem_of_lookup in Hss as [i Hi].
    destruct (Forall2_lookup_r _ _ _ _ _ HF Hi) as (th & _ & Hth & _).
    rewrite Forall_forall in Hth. apply Hth. exact Hs. }
  assert (Hthread : ∀ blk x, 0 ≤ blk < nblks → 0 ≤ x < TPB →
            ∃ ss, ss ∈ threads
                  ∧ (x + blk * TPB < N →
                     StorePerm (x + blk * TPB) ((a * (x + blk * TPB) + b) mod N) ∈ ss)
                  ∧ (∀ t j, 0 ≤ t < N → 0 ≤ j < D →
                       (if rowMajor
                        then t / TPB = blk ∧ (t mod TPB) / WARP_SIZE = x / WARP_SIZE
                             ∧ j mod WARP_SIZE = x mod WARP_SIZE
                        else t = x + blk * TPB) →
                       StoreOut (cell rowMajor N D t j)
                         (cell rowMajor N D ((a * t + b) mod N) j) ∈ ss)).
  { intros blk x Hblk Hx.
    assert (Hth : (blk, x) ∈ (blockIdx ← seqZ 0 nblks; threadIdx ← seqZ 0 TPB;
                              [(blockIdx, threadIdx)])) by (apply elem_of_threads; lia).
    apply list_elem_of_lookup in Hth as [i Hi].
    destruct (Forall2_lookup_l _ _ _ _ _ HF Hi) as (ss & Hss & _ & Hp & Hc).
    exists ss. split; [eapply list_elem_of_lookup_2; exact Hss|].
    split; [exact Hp|exact Hc]. }
  destruct (run_stores_expected rowMajor a b N D in_ sched ltac:(lia) HD Hin Hexp
              perms0 out0 Hperms Hout) as (p & o & Erun & Hp & Ho & HP & HO).
  exists p, o. split; [exact Erun|]. split; [exact Hp|]. split; [exact Ho|].
  assert (Hdiv : ∀ t, 0 ≤ t < N → 0 ≤ t / TPB < nblks ∧ 0 ≤ t mod TPB < TPB
                                  ∧ t mod TPB + t / TPB * TPB = t).
  { intros t Ht. pose proof (Z.div_mod t TPB ltac:(lia)).
    pose proof (Z.mod_pos_bound t TPB HT). split; [|split; [lia|lia]].
    split; [apply Z.div_pos; lia|]. apply Z.div_lt_upper_bound; lia. }
  split.
  - intros t Ht. apply HP; [exact Ht|]. right.
    destruct (Hdiv t Ht) as (Hblk & Hx & Et).
    destruct (Hthread (t / TPB) (t mod TPB) Hblk Hx) as (ss & Hss & Hperm & _).
    rewrite Et in Hperm. exists ((a * t + b) mod N).
    rewrite Hsched. apply elem_of_concat. exists ss. split; [exact Hss|]. apply Hperm. lia.
  - intros t j Ht Hj. apply HO; [exact Ht|exact Hj|]. right.
    destruct (Hdiv t Ht) as (Hblk & Hx & Et).
    exists (cell rowMajor N D ((a * t + b) mod N) j).
    rewrite Hsched. apply elem_of_concat.
    destruct rowMajor.
    + unfold WARP_SIZE in *.
      assert (Hx' : 0 ≤ (t mod TPB) / 32 * 32 + j mod 32 < TPB)
        by (Z.div_mod_to_equations; lia).
      destruct (Hthread (t / TPB) ((t mod TPB) / 32 * 32 + j mod 32) Hblk Hx')
        as (ss & Hss & _ & Hcopy).
      exists ss. split; [exact Hss|]. apply Hcopy; [exact Ht|exact Hj|].
      split; [reflexivity|]. split; Z.div_mod_to_equations; lia.
    + destruct (Hthread (t / TPB) (t mod TPB) Hblk Hx) as (ss & Hss & _ & Hcopy).
      exists ss. split; [exact Hss|]. apply Hcopy; [exact Ht|exact Hj|]. lia.
Qed.

(** A launch of [permuteKernel] over at least [N] threads, with no null
    pointer: every thread has its stores, and whatever the order in which
    the stores of all the threads are applied, the execution stays inside
    the arrays, [perms[t]] ends as the image [(a * t + b) mod N] of [t], and
    element [j] of row [t] of [out] ends as element [j] of row [perms[t]] of
    [in], for every row [t] and column [j], in both layouts. *)
Theorem permuteKernel_launch_copies {A : Type} rowMajor TPB a b N D nblks
    (in_ out0 : list A) (perms0 : list Z) :
  1 ≤ N ≤ INT_MAX → 0 ≤ D → N * D ≤ INT_MAX → D + WARP_SIZE ≤ INT_MAX →
  0 ≤ a ≤ INT_MAX → 0 ≤ b ≤ INT_MAX →
  0 < TPB → TPB mod WARP_SIZE = 0 → N ≤ nblks * TPB → nblks * TPB ≤ INT_MAX →
  Z.of_nat (length in_) = N * D → Z.of_nat (length out0) = N * D →
  Z.of_nat (length perms0) = N →
  ∃ threads,
    launch_permuteKernel TPB rowMajor true true true a b N D nblks = Ok threads
    ∧ ∀ sched, sched ≡ₚ concat threads →
        ∃ perms out,
          run_stores in_ sched (perms0, out0) = Ok (perms, out)
          ∧ Z.of_nat (length perms) = N ∧ Z.of_nat (length out) = N * D
          ∧ (∀ t, 0 ≤ t < N → perms !! Z.to_nat t = Some ((a * t + b) mod N))
          ∧ (∀ t j, 0 ≤ t < N → 0 ≤ j < D →
               out !! Z.to_nat (cell rowMajor N D t j)
               = in_ !! Z.to_nat (cell rowMajor N D ((a * t + b) mod N) j)).
Proof.
  intros HN HD HND HDW Ha Hb HT HTW Hcover Hgrid Hin Hout Hperms.
  apply permuteKernel_launch_run; assumption.
Qed.

Lemma permuteKernel_launch_copies_witness :
  ∃ threads,
    launch_permuteKernel 32 false true true true 3 1 4 2 1 = Ok threads
    ∧ ∀ sched, sched ≡ₚ concat threads →
        ∃ perms out,
          run_stores [10; 11; 12; 13; 20; 21; 22; 23] sched
            ([0; 0; 0; 0], [0; 0; 0; 0; 0; 0; 0; 0]) = Ok (perms, out)
          ∧ Z.of_nat (length perms) = 4 ∧ Z.of_nat (length out) = 4 * 2
          ∧ (∀ t, 0 ≤ t < 4 → perms !! Z.to_nat t = Some ((3 * t + 1) mod 4))
          ∧ (∀ t j, 0 ≤ t < 4 → 0 ≤ j < 2 →
               out !! Z.to_nat (cell false 4 2 t j)
               = [10; 11; 12; 13; 20; 21; 22; 23]
                   !! Z.to_nat (cell false 4 2 ((3 * t + 1) mod 4) j)).
Proof.
  apply (permuteKernel_launch_copies false 32 3 1 4 2 1
           [10; 11; 12; 13; 20; 21; 22; 23] [0; 0; 0; 0; 0; 0; 0; 0] [0; 0; 0; 0]).
  - unfold INT_MAX. lia.
  - lia.
  - unfold INT_MAX. lia.
  - unfold INT_MAX, WARP_SIZE. lia.
  - unfold INT_MAX. lia.
  - unfold INT_MAX. lia.
  - lia.
  - reflexivity.
  - lia.
  - unfold INT_MAX. lia.
  - reflexivity.
  - reflexivity.
  - reflexivity.
Defined.

(** The host coefficients and the kernel at vector length 1 (the path of the
    column-major layout, and of the row-major one when no wider vector
    applies): whatever [rand()] returned and whatever the order of the
    stores, [perms] ends as a permutation of [0 .. N - 1] and every row [t]
    of [out] as the row [perms[t]] of [in]. *)
Theorem permute_shuffles_rows {A : Type} rowMajor TPB fuel rand1 rand2 N D
    (in_ out0 : list A) (perms0 : list Z) :
  1 ≤ N → 0 ≤ D → N * D ≤ INT_MAX → D + WARP_SIZE ≤ INT_MAX →
  0 ≤ rand1 → 0 ≤ rand2 → (Z.to_nat N ≤ fuel)%nat →
  0 < TPB → TPB mod WARP_SIZE = 0 → N + TPB ≤ INT_MAX →
  Z.of_nat (length in_) = N * D → Z.of_nat (length out0) = N * D →
  Z.of_nat (length perms0) = N →
  ∃ nblks a b threads,
    permute_coefficients TPB fuel rand1 rand2 N = Some (Ok (nblks, a, b))
    ∧ launch_permuteKernel TPB rowMajor true true true a b N D nblks = Ok threads
    ∧ ∀ sched, sched ≡ₚ concat threads →
        ∃ perms out,
          run_stores in_ sched (perms0, out0) = Ok (perms, out)
          ∧ perms ≡ₚ seqZ 0 N
          ∧ Z.of_nat (length out) = N * D
          ∧ ∀ t j, 0 ≤ t < N → 0 ≤ j < D →
              ∃ r, perms !! Z.to_nat t = Some r ∧ 0 ≤ r < N
                   ∧ out !! Z.to_nat (cell rowMajor N D t j)
                     = in_ !! Z.to_nat (cell rowMajor N D r j).
Proof.
  intros HN HD HND HDW H1 H2 Hfuel HT HTW Hgrid Hin Hout Hperms.
  assert (HN' : 1 ≤ N ≤ INT_MAX) by lia.
  unfold permute_coefficients.
  destruct (Z.eqb_spec N 0); [lia|].
  rewrite !Z.rem_mod_nonneg by lia.
  pose proof (Z.mod_pos_bound rand1 N ltac:(lia)) as Ha0.
  pose proof (Z.mod_pos_bound rand2 N ltac:(lia)) as Hb.
  destruct (coprime_search_spec fuel (rand1 mod N) N HN' Ha0 ltac:(lia))
    as (a & E & Hr & Hg & _).
  rewrite E.
  assert (Hcov : N ≤ ceildiv N TPB * TPB)
    by (pose proof (ceildiv_covers N TPB HT); lia).
  assert (Hmax : ceildiv N TPB * TPB ≤ INT_MAX).
  { rewrite ceildiv_formula by lia.
    pose proof (Z.div_mod (N + TPB - 1) TPB ltac:(lia)).
    pose proof (Z.mod_pos_bound (N + TPB - 1) TPB HT). lia. }
  destruct (permuteKernel_launch_run rowMajor TPB a (rand2 mod N) N D (ceildiv N TPB)
              in_ out0 perms0) as (threads & El & Hrun); try assumption; try lia.
  exists (ceildiv N TPB), a, (rand2 mod N), threads.
  split; [reflexivity|]. split; [exact El|].
  intros sched Hsched.
  destruct (Hrun sched Hsched) as (p & o & Erun & Hp & Ho & HP & HO).
  exists p, o. split; [exact Erun|]. split; [|split; [exact Ho|]].
  - replace p with ((λ t, (a * t + rand2 mod N) mod N) <$> seqZ 0 N);
      [apply index_map_permutation; [lia|exact Hg]|].
    symmetry. apply list_eq. intros i.
    destruct (decide (Z.of_nat i < N)) as [Hi|Hi].
    + specialize (HP (Z.of_nat i) ltac:(lia)). rewrite Nat2Z.id in HP. rewrite HP.
      rewrite list_lookup_fmap, lookup_seqZ_lt by lia. reflexivity.
    + rewrite !lookup_ge_None_2; [reflexivity| |lia].
      rewrite length_fmap, length_seqZ. lia.
  - intros t j Ht Hj. exists ((a * t + rand2 mod N) mod N).
    split; [apply HP; exact Ht|]. split; [apply Z.mod_pos_bound; lia|].
    apply HO; assumption.
Qed.

Lemma permute_shuffles_rows_witness :
  ∃ nblks a b threads,
    permute_coefficients 32 4 6 9 4 = Some (Ok (nblks, a, b))
    ∧ launch_permuteKernel 32 true true true true a b 4 2 nblks = Ok threads
    ∧ ∀ sched, sched ≡ₚ concat threads →
        ∃ perms out,
          run_stores [10; 11; 20; 21; 30; 31; 40; 41] sched
            ([0; 0; 0; 0], [0; 0; 0; 0; 0; 0; 0; 0]) = Ok (perms, out)
          ∧ perms ≡ₚ seqZ 0 4
          ∧ Z.of_nat (length out) = 4 * 2
          ∧ ∀ t j, 0 ≤ t < 4 → 0 ≤ j < 2 →
              ∃ r, perms !! Z.to_nat t = Some r ∧ 0 ≤ r < 4
                   ∧ out !! Z.to_nat (cell true 4 2 t j)
                     = [10; 11; 20; 21; 30; 31; 40; 41] !! Z.to_nat (cell true 4 2 r j).
Proof.
  apply (permute_shuffles_rows true 32 4 6 9 4 2
           [10; 11; 20; 21; 30; 31; 40; 41] [0; 0; 0; 0; 0; 0; 0; 0] [0; 0; 0; 0]).
  - lia.
  - lia.
  - unfold INT_MAX. lia.
  - unfold INT_MAX, WARP_SIZE. lia.
  - lia.
  - lia.
  - vm_compute. lia.
  - lia.
  - reflexivity.
  - unfold INT_MAX. lia.
  - reflexivity.
  - reflexivity.
  - reflexivity.
Defined.

(** * The masked comparison of [BitsetTest::run] *)

Lemma count_bits_zero f n :
  count_bits f n = 0 ↔ ∀ k, 0 ≤ k < Z.of_nat n → f k = false.
Proof.
  induction n as [|n IH]; simpl.
  - split; [intros _ k Hk; lia|reflexivity].
  - pose proof (count_bits_bounds f n) as Hb. split.
    + intros H k Hk. destruct (f (Z.of_nat n)) eqn:E; simpl in H; [lia|].
      destruct (decide (k = Z.of_nat n)) as [->|]; [exact E|].
      apply IH; lia.
    + intros H. rewrite (H (Z.of_nat n)) by lia. simpl.
      rewrite Z.add_0_r. apply IH. intros k Hk. apply H. lia.
Qed.

Lemma land_ones_eq x y k :
  0 ≤ k →
  Z.land x (Z.ones k) = Z.land y (Z.ones k)
  ↔ ∀ o, 0 ≤ o < k → Z.testbit x o = Z.testbit y o.
Proof.
  intros Hk. split.
  - intros E o Ho. apply (f_equal (λ z, Z.testbit z o)) in E.
    rewrite !Z.land_spec, Z.ones_spec_low, !andb_true_r in E by lia. exact E.
  - intros H. apply Z.bits_inj'. intros o Ho. rewrite !Z.land_spec.
    destruct (Z.lt_ge_cases o k).
    + rewrite H by lia. reflexivity.
    + rewrite Z.ones_spec_high by lia. rewrite !andb_false_r. reflexivity.
Qed.

Lemma typed_eq_bits t x y :
  0 ≤ x < 2 ^ nbits t → 0 ≤ y < 2 ^ nbits t →
  x = y ↔ ∀ o, 0 ≤ o < nbits t → Z.testbit x o = Z.testbit y o.
Proof.
  intros Hx Hy. split; [intros -> o _; reflexivity|].
  intros H. apply Z.bits_inj'. intros o Ho.
  destruct (Z.lt_ge_cases o (nbits t)).
  - apply H. lia.
  - rewrite (testbit_word_high t x), (testbit_word_high t y) by assumption. reflexivity.
Qed.

Lemma bit_at_word t v k o :
  0 ≤ k → 0 ≤ o < nbits t → bit_at t v (k * nbits t + o) = Z.testbit (word_at v k) o.
Proof.
  intros Hk Ho. unfold bit_at.
  rewrite Z.div_add_l, Z.div_small, Z.add_0_r by lia.
  rewrite Z.add_comm, Z.mod_add, Z.mod_small by lia. reflexivity.
Qed.

(** The mask keeps the bits of the last word that are logical bits: all of
    them when the bit count is a multiple of the word width, the low
    [total mod nbits] otherwise; the truncation of the bit count to
    [index_t] does not change it. *)
Lemma tail_mask_ones ix t bitset_len repeat_times :
  0 ≤ bitset_len * repeat_times ≤ SIZE_MAX →
  tail_mask ix t bitset_len repeat_times
  = Z.ones (if bitset_len * repeat_times mod nbits t =? 0 then nbits t
            else bitset_len * repeat_times mod nbits t).
Proof.
  intros Htot. unfold tail_mask. cbv zeta. change (sizeof t * 8) with (nbits t).
  set (total := bitset_len * repeat_times) in *.
  pose proof (nbits_pos t) as Hw. pose proof (nbits_le_64 t) as Hw64.
  pose proof (index_modulus_ge ix) as HM.
  rewrite (cast_small ix (nbits t)) by lia.
  change uint64_t with size_t. rewrite (cast_size_t_small total) by lia.
  assert (Hmod : cast ix total mod nbits t = total mod nbits t).
  { unfold cast. apply Z.mod_mod_divide.
    destruct ix, t; norm_nbits;
      match goal with |- (?w | 2 ^ ?m) => exists (2 ^ m / w); reflexivity end. }
  rewrite Hmod.
  pose proof (Z.mod_pos_bound total (nbits t) Hw) as Hr.
  assert (Hpow : nbits t < 2 ^ nbits t) by (destruct t; norm_nbits; lia).
  rewrite (cast_small t (total mod nbits t)) by lia.
  destruct (Z.eqb_spec (total mod nbits t) 0) as [_|Hne].
  - unfold cast. rewrite Z.ones_equiv. change (Z.lnot 0) with (-1).
    rewrite <- Z.sub_1_r.
    assert (0 < 2 ^ nbits t) by (apply Z.pow_pos_nonneg; lia).
    symmetry. apply Z.mod_unique with (q := -1); lia.
  - rewrite Z.shiftl_1_l, Z.ones_equiv, <- Z.sub_1_r.
    apply cast_small.
    assert (0 < 2 ^ (total mod nbits t)) by (apply Z.pow_pos_nonneg; lia).
    assert (2 ^ (total mod nbits t) < 2 ^ nbits t) by (apply Z.pow_lt_mono_r; lia).
    lia.
Qed.

Lemma errors_loop_count fuel ix mask ref res (diffw : Z → bool) i errors :
  vsize res = vsize ref → vsize ref < 2 ^ nbits ix →
  (∀ k, 0 ≤ k < vsize ref →
     diffw k = if k =? vsize ref - 1
               then negb (Z.land (word_at ref k) mask =? Z.land (word_at res k) mask)
               else negb (word_at ref k =? word_at res k)) →
  0 ≤ i ≤ vsize ref → (Z.to_nat (vsize ref - i) < fuel)%nat →
  errors = count_bits diffw (Z.to_nat i) →
  errors_loop fuel ix mask ref res i errors
  = Some (Ok (count_bits diffw (Z.to_nat (vsize ref)))).
Proof.
  intros Hsz Hix Hd. revert i errors.
  induction fuel as [|fuel IH]; intros i errors Hi Hfuel ->; [lia|].
  cbn [errors_loop]. destruct (Z.ltb_spec i (vsize ref)) as [Hlt|Hge].
  - rewrite !vec_get_ok by lia. cbn [mbind outcome_bind].
    rewrite (cast_size_t_small (vsize ref - 1))
      by (unfold SIZE_MAX; pose proof (nbits_le_64 ix);
          assert (2 ^ nbits ix ≤ 2 ^ 64) by (apply Z.pow_le_mono_r; lia); lia).
    rewrite <- (Hd i) by lia.
    pose proof (count_bits_bounds diffw (Z.to_nat i)) as Hb.
    rewrite (cast_small ix (i + 1)) by lia.
    rewrite (cast_small ix (count_bits diffw (Z.to_nat i) + Z.b2z (diffw i)))
      by (destruct (diffw i); simpl; lia).
    apply IH; [lia|lia|].
    replace (Z.to_nat (i + 1)) with (Datatypes.S (Z.to_nat i)) by lia.
    simpl. rewrite Z2Nat.id by lia. reflexivity.
  - replace i with (vsize ref) by lia. reflexivity.
Qed.

(** The comparison of [run] finishes on arrays whose word count fits
    [index_t], and counts no error exactly when the reference and the result
    agree on every logical bit: the words before the last are compared
    whole, the last one on its logical bits only, so that the padding bits
    of the result never count. *)
Theorem repeat_errors_logical_range fuel ix t bitset_len repeat_times ref res :
  0 ≤ bitset_len * repeat_times ≤ SIZE_MAX →
  vsize ref = eval_n_elements t (bitset_len * repeat_times) →
  vsize res = vsize ref →
  vsize ref < 2 ^ nbits ix →
  words_of t ref → words_of t res →
  (Z.to_nat (vsize ref) < fuel)%nat →
  ∃ errors,
    repeat_errors fuel ix t bitset_len repeat_times ref res = Some (Ok errors)
    ∧ 0 ≤ errors ≤ vsize ref
    ∧ (errors = 0 ↔ ∀ p, 0 ≤ p < bitset_len * repeat_times →
                      bit_at t ref p = bit_at t res p).
Proof.
  intros Htot Hn Hsz Hix Hwr Hws Hfuel. pose proof (nbits_pos t) as Hw.
  rewrite eval_n_elements_unfold, ceildiv_formula in Hn by lia.
  set (total := bitset_len * repeat_times) in *.
  set (n := vsize ref) in *.
  set (tail := if total mod nbits t =? 0 then nbits t else total mod nbits t).
  set (diffw := λ k, if k =? n - 1
                     then negb (Z.land (word_at ref k) (Z.ones tail)
                                =? Z.land (word_at res k) (Z.ones tail))
                     else negb (word_at ref k =? word_at res k)).
  exists (count_bits diffw (Z.to_nat n)).
  split; [|split].
  - unfold repeat_errors. rewrite tail_mask_ones by exact Htot. fold total tail.
    apply (errors_loop_count fuel ix (Z.ones tail) ref res diffw 0 0 Hsz Hix).
    + intros k Hk. reflexivity.
    + pose proof (vsize_nonneg ref). lia.
    + fold n. lia.
    + reflexivity.
  - pose proof (count_bits_bounds diffw (Z.to_nat n)). pose proof (vsize_nonneg ref).
    fold n in H0. lia.
  - assert (Htyped : ∀ v k, words_of t v → 0 ≤ k < vsize v → 0 ≤ word_at v k < 2 ^ nbits t).
    { intros v k Hv Hk. unfold words_of in Hv. rewrite Forall_forall in Hv. apply Hv.
      unfold word_at, vsize in *.
      destruct (lookup_lt_is_Some_2 v (Z.to_nat k)) as [x Hx]; [lia|].
      rewrite Hx. simpl. eapply list_elem_of_lookup_2. exact Hx. }
    assert (Htail : 0 < tail ≤ nbits t).
    { subst tail. pose proof (Z.mod_pos_bound total (nbits t) Hw).
      destruct (Z.eqb_spec (total mod nbits t) 0); lia. }
    assert (Hsplit : 1 ≤ n → total = (n - 1) * nbits t + tail).
    { intros Hn1. subst tail.
      destruct (Z.eqb_spec (total mod nbits t) 0);
        destruct t; norm_nbits; Z.div_mod_to_equations; lia. }
    assert (Hn0 : 0 ≤ n) by apply vsize_nonneg.
    rewrite count_bits_zero. rewrite Z2Nat.id by lia.
    split.
    + intros H p Hp.
      assert (Hk : 0 ≤ p / nbits t < n).
      { split; [apply Z.div_pos; lia|].
        destruct t; norm_nbits; Z.div_mod_to_equations; lia. }
      specialize (H (p / nbits t) Hk). subst diffw. cbv beta in H.
      pose proof (Z.mod_pos_bound p (nbits t) Hw) as Ho.
      unfold bit_at.
      destruct (Z.eqb_spec (p / nbits t) (n - 1)) as [Hlast|Hnot].
      * apply negb_false_iff in H. apply Z.eqb_eq in H.
        apply (proj1 (land_ones_eq _ _ tail ltac:(lia))) with (o := p mod nbits t) in H;
          [exact H|].
        specialize (Hsplit ltac:(lia)).
        pose proof (Z.div_mod p (nbits t) ltac:(lia)). rewrite Hlast in *. nia.
      * apply negb_false_iff in H. apply Z.eqb_eq in H. rewrite H. reflexivity.
    + intros H k Hk. subst diffw. cbv beta.
      destruct (Z.eqb_spec k (n - 1)) as [Hlast|Hnot].
      * apply negb_false_iff. apply Z.eqb_eq. apply land_ones_eq; [lia|].
        intros o Ho. rewrite <- !(bit_at_word t) by lia.
        apply H. specialize (Hsplit ltac:(lia)). subst k. nia.
      * apply negb_false_iff. apply Z.eqb_eq.
        apply (typed_eq_bits t); [apply Htyped; [exact Hwr|fold n; lia]
                                 |apply Htyped; [exact Hws|rewrite Hsz; fold n; lia]|].
        intros o Ho. rewrite <- !(bit_at_word t) by lia.
        apply H. specialize (Hsplit ltac:(lia)). nia.
Qed.

Lemma repeat_errors_logical_range_witness :
  ∃ errors,
    repeat_errors 3 uint32_t uint8_t 5 3 [0xb5; 0x56] [0xb5; 0xd6] = Some (Ok errors)
    ∧ 0 ≤ errors ≤ vsize [0xb5; 0x56]
    ∧ (errors = 0 ↔ ∀ p, 0 ≤ p < 5 * 3 →
                      bit_at uint8_t [0xb5; 0x56] p = bit_at uint8_t [0xb5; 0xd6] p).
Proof.
  apply (repeat_errors_logical_range 3 uint32_t uint8_t 5 3 [0xb5; 0x56] [0xb5; 0xd6]).
  - unfold SIZE_MAX. lia.
  - reflexivity.
  - reflexivity.
  - vm_compute. reflexivity.
  - repeat constructor; vm_compute; congruence.
  - repeat constructor; vm_compute; congruence.
  - vm_compute. lia.
Defined.

(** * The kernel with null pointers *)

Lemma run_perm_stores {A : Type} a b N (in_ : list A) ss :
  Forall (λ s, ∃ t, 0 ≤ t < N ∧ s = StorePerm t ((a * t + b) mod N)) ss →
  ∀ (p0 : list Z) (o0 : list A),
    Z.of_nat (length p0) = N →
    ∃ p,
      run_stores in_ ss (p0, o0) = Ok (p, o0)
      ∧ Z.of_nat (length p) = N
      ∧ (∀ t, 0 ≤ t < N →
           p0 !! Z.to_nat t = Some ((a * t + b) mod N)
           ∨ StorePerm t ((a * t + b) mod N) ∈ ss →
           p !! Z.to_nat t = Some ((a * t + b) mod N)).
Proof.
  induction 1 as [|s ss Hs Hss IH]; intros p0 o0 Hp0.
  - exists p0. split; [reflexivity|]. split; [exact Hp0|].
    intros t Ht [H|H]; [exact H|]. apply elem_of_nil in H. contradiction.
  - destruct Hs as (t0 & Ht0 & ->). cbn [run_stores run_store fst snd].
    rewrite decide_True by lia. cbn [mbind outcome_bind].
    destruct (IH (<[Z.to_nat t0 := (a * t0 + b) mod N]> p0) o0) as (p & E & Hp & HP);
      [rewrite length_insert; exact Hp0|].
    exists p. split; [exact E|]. split; [exact Hp|].
    intros t Ht Hcase. apply HP; [exact Ht|].
    destruct (decide (t = t0)) as [->|Hne].
    + left. apply list_lookup_insert_eq. lia.
    + rewrite list_lookup_insert_ne by lia.
      destruct Hcase as [H|H]; [left; exact H|right].
      apply elem_of_cons in H as [H|H]; [injection H as ->; contradiction|exact H].
Qed.

(** With [out] or [in] null the kernel only fills [perms], in both layouts
    and for every [D] and every block size: each thread below [N] stores its
    image and returns, the threads from [N] on store nothing, and an
    execution leaves the [out] array as it was. *)
Theorem permuteKernel_perms_only {A : Type} rowMajor TPB (out in_ : bool) a b N D nblks
    (input out0 : list A) (perms0 : list Z) :
  out && in_ = false →
  1 ≤ N ≤ INT_MAX → 0 ≤ a ≤ INT_MAX → 0 ≤ b ≤ INT_MAX →
  0 < TPB → N ≤ nblks * TPB → nblks * TPB ≤ INT_MAX →
  Z.of_nat (length perms0) = N →
  ∃ threads,
    launch_permuteKernel TPB rowMajor true out in_ a b N D nblks = Ok threads
    ∧ ∀ sched, sched ≡ₚ concat threads →
        ∃ perms,
          run_stores input sched (perms0, out0) = Ok (perms, out0)
          ∧ perms = (λ t, (a * t + b) mod N) <$> seqZ 0 N.
Proof.
  intros Hnull HN Ha Hb HT Hcover Hgrid Hperms.
  unfold launch_permuteKernel.
  destruct (collect_spec
    (λ th : Z * Z, permuteKernel TPB rowMajor true out in_ a b N D TPB th.1 th.2)
    (λ th ss, ss = if th.2 + th.1 * TPB <? N
                   then [StorePerm (th.2 + th.1 * TPB) ((a * (th.2 + th.1 * TPB) + b) mod N)]
                   else [])
    (blockIdx ← seqZ 0 nblks; threadIdx ← seqZ 0 TPB; [(blockIdx, threadIdx)]))
    as (threads & E & HF).
  { intros [blk x] Hth. apply elem_of_threads in Hth as [Hblk Hx]. cbn [fst snd].
    assert (Htid : 0 ≤ x + blk * TPB ≤ INT_MAX) by nia.
    eexists. split; [|reflexivity].
    unfold permuteKernel. cbv zeta.
    rewrite (sint32_small (x + blk * TPB)) by (unfold INT_MAX in *; lia).
    destruct (Z.eqb_spec N 0); [lia|].
    rewrite (inIdx_of_mod a b N (x + blk * TPB)) by lia.
    replace (negb out || negb in_) with true
      by (destruct out, in_; simpl in *; congruence).
    cbn [andb]. reflexivity. }
  exists threads. split; [exact E|]. intros sched Hsched.
  assert (Hexp : Forall (λ s, ∃ t, 0 ≤ t < N ∧ s = StorePerm t ((a * t + b) mod N)) sched).
  { rewrite Hsched. apply Forall_forall. intros s Hs.
    apply elem_of_concat in Hs as (ss & Hss & Hs).
    apply list_elem_of_lookup in Hss as [i Hi].
    destruct (Forall2_lookup_r _ _ _ _ _ HF Hi) as ([blk x] & Hth & ->).
    apply list_elem_of_lookup_2 in Hth. apply elem_of_threads in Hth as [Hblk Hx].
    cbn [fst snd] in Hs.
    destruct (Z.ltb_spec (x + blk * TPB) N); [|apply elem_of_nil in Hs; contradiction].
    apply list_elem_of_singleton in Hs. exists (x + blk * TPB). split; [nia|exact Hs]. }
  destruct (run_perm_stores a b N input sched Hexp perms0 out0 Hperms) as (p & Erun & Hp & HP).
  exists p. split; [exact Erun|].
  apply list_eq. intros i.
  destruct (decide (Z.of_nat i < N)) as [Hi|Hi].
  - rewrite list_lookup_fmap, lookup_seqZ_lt by lia. simpl.
    rewrite <- (Nat2Z.id i) at 1. apply HP; [lia|]. right.
    rewrite Hsched. apply elem_of_concat.
    set (t := Z.of_nat i) in *.
    pose proof (Z.div_mod t TPB ltac:(lia)) as Ht.
    pose proof (Z.mod_pos_bound t TPB HT) as Hm.
    assert (Hblk : 0 ≤ t / TPB < nblks).
    { split; [apply Z.div_pos; lia|]. apply Z.div_lt_upper_bound; lia. }
    assert (Hth : (t / TPB, t mod TPB) ∈ (blockIdx ← seqZ 0 nblks; threadIdx ← seqZ 0 TPB;
                                          [(blockIdx, threadIdx)]))
      by (apply elem_of_threads; lia).
    apply list_elem_of_lookup in Hth as [k Hk].
    destruct (Forall2_lookup_l _ _ _ _ _ HF Hk) as (ss & Hss & ->).
    eexists. split; [eapply list_elem_of_lookup_2; exact Hss|].
    cbn [fst snd]. replace (t mod TPB + t / TPB * TPB) with t by lia.
    destruct (Z.ltb_spec t N); [|lia]. apply list_elem_of_singleton. reflexivity.
  - rewrite !lookup_ge_None_2; [reflexivity| |lia].
    rewrite length_fmap, length_seqZ. lia.
Qed.

Lemma permuteKernel_perms_only_witness :
  ∃ threads,
    launch_permuteKernel 8 true true false true 3 1 4 2 1 = Ok threads
    ∧ ∀ sched, sched ≡ₚ concat threads →
        ∃ perms,
          run_stores [10; 11] sched ([0; 0; 0; 0], [7; 7; 7]) = Ok (perms, [7; 7; 7])
          ∧ perms = (λ t, (3 * t + 1) mod 4) <$> seqZ 0 4.
Proof.
  apply (permuteKernel_perms_only true 8 false true 3 1 4 2 1 [10; 11] [7; 7; 7] [0; 0; 0; 0]).
  - reflexivity.
  - unfold INT_MAX. lia.
  - unfold INT_MAX. lia.
  - unfold INT_MAX. lia.
  - lia.
  - lia.
  - unfold INT_MAX. lia.
  - reflexivity.
Defined.

(** * The constructor of the owning bitset *)










(** * The padding of the repeated bitset *)

Example repeat_cpu_bitset_dirty_destination :
  repeat_cpu_bitset uint8_t [0xff] 5 2 [0xff; 0xff; 0xaa] = Ok [0xff; 0x03; 0xaa].
Proof. vm_compute. reflexivity. Qed.

(** C10. Repeat zeroes the padding of the destination, whatever the
    destination held before: [repeat_cpu_bitset] returns a destination of
    the size it was given, and each of its first
    [ceil(input_bits * repeat / bits_per_word)] words is present, is a value
    of the word type, and has a 0 at every offset whose position
    [j * bits_per_word + o] is [input_bits * repeat] or more; read by
    logical position, every bit from [input_bits * repeat] up to the end of
    those words is 0. *)
Theorem repeat_cpu_bitset_padding t input input_bits repeat output :
  0 ≤ input_bits → 1 ≤ repeat →
  input_bits * repeat + nbits t - 1 ≤ SIZE_MAX →
  input_bits ≤ nbits t * vsize input →
  eval_n_elements t (input_bits * repeat) ≤ vsize output →
  ∃ out,
    repeat_cpu_bitset t input input_bits repeat output = Ok out
    ∧ vsize out = vsize output
    ∧ (∀ j o, 0 ≤ j < eval_n_elements t (input_bits * repeat) →
              0 ≤ o < nbits t → input_bits * repeat ≤ j * nbits t + o →
              ∃ x, out !! Z.to_nat j = Some x
                   ∧ 0 ≤ x < 2 ^ nbits t
                   ∧ Z.testbit x o = false)
    ∧ (∀ p, input_bits * repeat ≤ p < nbits t * eval_n_elements t (input_bits * repeat) →
         bit_at t out p = false).
Proof.
  intros Hb Hr Hmax Hin Hout. pose proof (nbits_pos t) as Hw.
  rewrite eval_n_elements_unfold in *.
  destruct (repeat_cpu_bitset_spec t input input_bits repeat output)
    as (out & E & _ & Hsz & Hbits & _); try assumption; [lia|].
  simpl in Hsz, Hbits.
  destruct (repeat_cpu_bitset_ok_inv t input input_bits repeat output out)
    as (_ & _ & Htyped); try assumption; [lia|].
  assert (Hpad : ∀ p, input_bits * repeat ≤ p
                      < nbits t * ceildiv (input_bits * repeat) (nbits t) →
                      bit_at t out p = false).
  { intros p Hp. rewrite Hbits by nia.
    destruct (Z.ltb_spec p (input_bits * repeat)); [lia|reflexivity]. }
  exists out. split; [exact E|]. split; [exact Hsz|]. split; [|exact Hpad].
  intros j o Hj Ho Hpos.
  destruct (lookup_lt_is_Some_2 out (Z.to_nat j)) as [x Hx];
    [unfold vsize in *; lia|].
  assert (Ex : word_at out j = x) by (unfold word_at; rewrite Hx; reflexivity).
  exists x. split; [exact Hx|]. split.
  - rewrite <- Ex. apply Htyped. exact Hj.
  - rewrite <- Ex, <- (bit_at_word t out j o) by lia. apply Hpad. nia.
Qed.

Lemma repeat_cpu_bitset_padding_witness :
  ∃ out,
    repeat_cpu_bitset uint8_t [0xff] 5 2 [0xff; 0xff; 0xaa] = Ok out
    ∧ vsize out = vsize [0xff; 0xff; 0xaa]
    ∧ (∀ j o, 0 ≤ j < eval_n_elements uint8_t (5 * 2) →
              0 ≤ o < nbits uint8_t → 5 * 2 ≤ j * nbits uint8_t + o →
              ∃ x, out !! Z.to_nat j = Some x
                   ∧ 0 ≤ x < 2 ^ nbits uint8_t
                   ∧ Z.testbit x o = false)
    ∧ (∀ p, 5 * 2 ≤ p < nbits uint8_t * eval_n_elements uint8_t (5 * 2) →
         bit_at uint8_t out p = false).
Proof.
  apply (repeat_cpu_bitset_padding uint8_t [0xff] 5 2 [0xff; 0xff; 0xaa]).
  - lia.
  - lia.
  - vm_compute. congruence.
  - vm_compute. congruence.
  - vm_compute. congruence.
Defined.

(** * The sparsity of the flipped bitset *)

(** Flipping exchanges the zero and the set bits of the logical range,
    whatever the padding bits are: where [ones] bits of the first
    [total_bits] are set in [data], the counting loop of
    [sparsity_cpu_bitset] counts [total_bits - ones] in the flipped bitset,
    so the quotient the function returns has the operands
    [total_bits - ones] and [total_bits] on [data], and [ones] and
    [total_bits] on the flipped bitset.  The statement is on the operands of
    the division: the rounding of the [double] quotient is not modelled. *)
Theorem sparsity_after_flip_cpu_bitset t data total_bits :
  1 ≤ total_bits ≤ SIZE_MAX → total_bits ≤ nbits t * vsize data →
  ∃ flipped ones,
    flip_cpu_bitset t data = Ok flipped
    ∧ ones = count_bits (bit_at t data) (Z.to_nat total_bits)
    ∧ 0 ≤ ones ≤ total_bits
    ∧ one_count t data total_bits = Ok ones
    ∧ one_count t flipped total_bits = Ok (total_bits - ones)
    ∧ sparsity_cpu_bitset t data total_bits = Ok (fdiv (total_bits - ones) total_bits)
    ∧ sparsity_cpu_bitset t flipped total_bits = Ok (fdiv ones total_bits).
Proof.
  intros HN Hcap.
  set (flipped := map (λ x, cast t (Z.lnot x)) data).
  set (ones := count_bits (bit_at t data) (Z.to_nat total_bits)).
  assert (Hsz : vsize flipped = vsize data)
    by (unfold flipped, vsize; rewrite length_map; reflexivity).
  pose proof (count_bits_bounds (bit_at t data) (Z.to_nat total_bits)) as Hc.
  fold ones in Hc.
  assert (Hflip : count_bits (bit_at t flipped) (Z.to_nat total_bits) = total_bits - ones).
  { rewrite (count_bits_ext (bit_at t flipped) (λ p, negb (bit_at t data p))).
    - rewrite count_bits_negb, Z2Nat.id by lia. reflexivity.
    - intros k Hk. apply bit_at_flip. lia. }
  assert (Hdiv : ∀ a, fdiv a total_bits = Exact (Q2Qc (inject_Z a / inject_Z total_bits))).
  { intros a. unfold fdiv. destruct (Z.eqb_spec total_bits 0); [lia|reflexivity]. }
  exists flipped, ones.
  split; [apply flip_cpu_bitset_map|]. split; [reflexivity|]. split; [lia|].
  split; [apply one_count_spec; lia|].
  split; [rewrite one_count_spec by lia; rewrite Hflip; reflexivity|].
  split.
  - rewrite sparsity_cpu_bitset_spec by lia. rewrite Hdiv. reflexivity.
  - rewrite sparsity_cpu_bitset_spec by lia. rewrite Hflip, Hdiv.
    replace (total_bits - (total_bits - ones)) with ones by lia. reflexivity.
Qed.

Lemma sparsity_after_flip_cpu_bitset_witness :
  ∃ flipped ones,
    flip_cpu_bitset uint8_t [0x01] = Ok flipped
    ∧ ones = count_bits (bit_at uint8_t [0x01]) (Z.to_nat 3)
    ∧ 0 ≤ ones ≤ 3
    ∧ one_count uint8_t [0x01] 3 = Ok ones
    ∧ one_count uint8_t flipped 3 = Ok (3 - ones)
    ∧ sparsity_cpu_bitset uint8_t [0x01] 3 = Ok (fdiv (3 - ones) 3)
    ∧ sparsity_cpu_bitset uint8_t flipped 3 = Ok (fdiv ones 3).
Proof.
  apply (sparsity_after_flip_cpu_bitset uint8_t [0x01] 3).
  - unfold SIZE_MAX. lia.
  - vm_compute. congruence.
Defined.

(** * create_cpu_bitset on its own *)

(** [create_cpu_bitset] returns exactly when every index of the mask
    addresses an allocated word, whatever the vector held; it has no range
    check and reports no error; what it returns has the size of its
    argument, holds words of the type, and has each logical bit of the
    vector, the padding bits of the last word included, set unless the mask
    names it. *)
Theorem create_cpu_bitset_exact t bitset mask :
  ((∃ out, create_cpu_bitset t bitset mask = Ok out)
   ↔ Forall (λ idx, 0 ≤ idx < nbits t * vsize bitset) mask)
  ∧ (∀ e, create_cpu_bitset t bitset mask ≠ Raise e)
  ∧ (∀ out, create_cpu_bitset t bitset mask = Ok out →
       vsize out = vsize bitset ∧ words_of t out
       ∧ ∀ p, 0 ≤ p < nbits t * vsize bitset →
           bit_at t out p = negb (bool_decide (p ∈ mask))).
Proof.
  assert (Hinv : ∀ out, create_cpu_bitset t bitset mask = Ok out →
                        Forall (λ idx, 0 ≤ idx < nbits t * vsize bitset) mask).
  { intros out E. unfold create_cpu_bitset in E.
    destruct (fill_ones_spec t bitset) as (v0 & E0 & Hsz0 & _).
    rewrite E0 in E. cbn [mbind outcome_bind] in E.
    rewrite <- Hsz0. apply (add_cpu_bitset_ok_inv t v0 mask out E). }
  split; [|split].
  - split.
    + intros [out E]. exact (Hinv out E).
    + intros Hmask.
      destruct (create_cpu_bitset_spec t bitset mask Hmask) as (out & E & _).
      exists out. exact E.
  - intros e. apply create_cpu_bitset_no_raise.
  - intros out E.
    destruct (create_cpu_bitset_spec t bitset mask (Hinv out E)) as (out' & E' & Hrest).
    rewrite (outcome_ok_inj _ _ _ E E'). exact Hrest.
Qed.
